(** * BOSS analyzer endpoint: clause extraction of [app.py]

    A shallow embedding of the text analysis of [src/app.py] and the
    properties of its specification.

    Python strings are modelled as lists of 8-bit characters: a text is
    a sequence of code points 0..255 (Latin-1).  The character classes
    of Python's [re] module ([\s], [\d], [\w], case folding under
    [re.I]) and of [str.strip], [str.lower] and [str.isdigit] are the
    Unicode ones restricted to that range.

    The regular expressions of the source are embedded as terms of a
    small regex syntax and run by a backtracking matcher that explores
    alternatives in the order of CPython's engine (leftmost start,
    first alternative first, greedy repetition). *)

From Stdlib Require Import List Ascii String ZArith NArith Lia Bool Arith.
From Stdlib Require Import DecimalString Sorted Permutation.
Import ListNotations.

(** ** Texts and character classes *)

Definition text := list ascii.

Definition txt (s : string) : text := list_ascii_of_string s.

Definition code (c : ascii) : N := N_of_ascii c.

Definition in_range (lo hi : N) (c : ascii) : bool :=
  (lo <=? code c)%N && (code c <=? hi)%N.

Definition is_char (a c : ascii) : bool := Ascii.eqb a c.

(** [\s] and [str.strip]: [Py_UNICODE_ISSPACE] below 256. *)
Definition is_space (c : ascii) : bool :=
  in_range 9 13 c || in_range 28 32 c
  || (code c =? 133)%N || (code c =? 160)%N.

(** [\d]: decimal digits (category Nd); below 256 these are 0-9. *)
Definition is_dec (c : ascii) : bool := in_range 48 57 c.

(** [str.isdigit] also accepts the superscript digits B2, B3 and B9. *)
Definition is_digit_char (c : ascii) : bool :=
  is_dec c || (code c =? 178)%N || (code c =? 179)%N || (code c =? 185)%N.

Definition is_upper_ascii (c : ascii) : bool := in_range 65 90 c.
Definition is_lower_ascii (c : ascii) : bool := in_range 97 122 c.

(** Letters of Latin-1 ([str.isalpha]). *)
Definition is_alpha (c : ascii) : bool :=
  is_upper_ascii c || is_lower_ascii c
  || (code c =? 170)%N || (code c =? 181)%N || (code c =? 186)%N
  || in_range 192 214 c || in_range 216 246 c || in_range 248 255 c.

(** [\w]: alphanumeric ([str.isalnum], which counts the superscripts
    and the vulgar fractions BC-BE as numeric) or underscore. *)
Definition is_word (c : ascii) : bool :=
  is_alpha c || is_digit_char c || in_range 188 190 c
  || (code c =? 95)%N.

(** Simple lower-case mapping: A-Z, and the capitals C0-DE but D7. *)
Definition lower (c : ascii) : ascii :=
  if is_upper_ascii c
     || (in_range 192 222 c && negb (code c =? 215)%N)
  then ascii_of_N (code c + 32) else c.

(** A literal pattern character under [re.I] (the pattern characters
    of the source are lower-case ASCII letters). *)
Definition is_char_i (a c : ascii) : bool := Ascii.eqb a (lower c).

(** [[a-z]] under [re.I]. *)
Definition is_az_i (c : ascii) : bool := is_lower_ascii (lower c).

(** [.] without [re.S]: anything but a line feed. *)
Definition is_dot (c : ascii) : bool := negb (code c =? 10)%N.

(** ** Regular expressions

    Every repetition of the source ([*], [+], [{m,n}]) applies to a
    single character class, so repetition is a constructor over a class;
    [?] applies to groups too and is a constructor of its own. *)

Inductive re : Type :=
| Eps : re
| Chr : (ascii -> bool) -> re
| Rep : (ascii -> bool) -> nat -> option nat -> re
| Seq : re -> re -> re
| Alt : re -> re -> re
| Opt : re -> re
| Grp : nat -> re -> re
| Wb : re.

Declare Scope re_scope.
Delimit Scope re_scope with re.
Bind Scope re_scope with re.
Notation "a ;; b" := (Seq a b) (at level 61, right associativity) : re_scope.
Notation "a // b" := (Alt a b) (at level 62, right associativity) : re_scope.

(** A literal word, its characters compared by [f]. *)
Fixpoint lit_with (f : ascii -> ascii -> bool) (w : text) : re :=
  match w with
  | [] => Eps
  | [a] => Chr (f a)
  | a :: w' => Seq (Chr (f a)) (lit_with f w')
  end.

(** A literal word under [re.I]. *)
Definition lit_i (s : string) : re := lit_with is_char_i (txt s).

Definition star (p : ascii -> bool) : re := Rep p 0 None.
Definition plus (p : ascii -> bool) : re := Rep p 1 None.
Definition upto (lo hi : nat) (p : ascii -> bool) : re := Rep p lo (Some hi).

(** ** The backtracking matcher *)

(** A cursor into the subject: the character before it (for [\b]),
    what is left, the offset, and the groups captured so far (latest
    binding first). *)
Record cursor : Type := Cursor {
  prev : option ascii;
  rest : text;
  pos : nat;
  caps : list (nat * text)
}.

Definition word_opt (o : option ascii) : bool :=
  match o with Some c => is_word c | None => false end.

(** [\b]: exactly one side of the cursor is a word character. *)
Definition at_boundary (st : cursor) : bool :=
  xorb (word_opt (prev st)) (word_opt (hd_error (rest st))).

Definition more (hi : option nat) : bool :=
  match hi with Some 0 => false | _ => true end.

Definition dec_hi (hi : option nat) : option nat :=
  match hi with Some n => Some (Nat.pred n) | None => None end.

(** Greedy repetition of a class: the longest run first, then shorter
    ones down to [lo] characters. *)
Fixpoint greedy (p : ascii -> bool) (lo : nat) (hi : option nat)
    (pv : option ascii) (s : text) (ps : nat) (cs : list (nat * text))
    {struct s} : list cursor :=
  let here := match lo with 0 => [Cursor pv s ps cs] | S _ => [] end in
  match s with
  | c :: s' =>
      if p c && more hi
      then greedy p (Nat.pred lo) (dec_hi hi) (Some c) s' (S ps) cs ++ here
      else here
  | [] => here
  end.

(** All the ways [r] matches at a cursor, in the order the engine
    tries them. *)
Fixpoint run (r : re) (st : cursor) : list cursor :=
  match r with
  | Eps => [st]
  | Chr p =>
      match rest st with
      | c :: s' =>
          if p c then [Cursor (Some c) s' (S (pos st)) (caps st)] else []
      | [] => []
      end
  | Rep p lo hi => greedy p lo hi (prev st) (rest st) (pos st) (caps st)
  | Seq r1 r2 => flat_map (run r2) (run r1 st)
  | Alt r1 r2 => run r1 st ++ run r2 st
  | Opt r1 => run r1 st ++ [st]
  | Grp n r1 =>
      map (fun st' =>
             Cursor (prev st') (rest st') (pos st')
                    ((n, firstn (pos st' - pos st) (rest st)) :: caps st'))
          (run r1 st)
  | Wb => if at_boundary st then [st] else []
  end.

(** A match object: its span, [group(0)] and the captured groups. *)
Record mtch : Type := Mtch {
  m_start : nat;
  m_end : nat;
  m_text : text;
  m_caps : list (nat * text)
}.

Definition m_len (m : mtch) : nat := m_end m - m_start m.

Fixpoint lookup (n : nat) (cs : list (nat * text)) : option text :=
  match cs with
  | [] => None
  | (k, w) :: cs' => if Nat.eqb k n then Some w else lookup n cs'
  end.

(** [m.group(n)] for [n >= 1]: [None] when the group took no part. *)
Definition group (m : mtch) (n : nat) : option text := lookup n (m_caps m).

(** The first way [r] matches at this very position. *)
Definition match_here (r : re) (pv : option ascii) (s : text) (ps : nat)
    : option mtch :=
  match run r (Cursor pv s ps []) with
  | st' :: _ =>
      Some (Mtch ps (pos st') (firstn (pos st' - ps) s) (caps st'))
  | [] => None
  end.

(** [re.search]: the leftmost position at which [r] matches. *)
Fixpoint search_from (r : re) (pv : option ascii) (s : text) (ps : nat)
    : option mtch :=
  match match_here r pv s ps with
  | Some m => Some m
  | None =>
      match s with
      | c :: s' => search_from r (Some c) s' (S ps)
      | [] => None
      end
  end.

Definition search (r : re) (s : text) : option mtch := search_from r None s 0.

Definition found (r : re) (s : text) : bool :=
  match search r s with Some _ => true | None => false end.

(** [finditer], [split] and [sub] walk the subject alike: it falls into
    the successive non-overlapping matches and the stretches between
    them. *)
Inductive piece : Type :=
| Chunk : text -> piece
| Hit : mtch -> piece.

Definition push (c : ascii) (ps : list piece) : list piece :=
  match ps with
  | Chunk w :: tl => Chunk (c :: w) :: tl
  | _ => Chunk [c] :: ps
  end.

(** The walk: at each position outside the last match the first match
    there, if any, is taken; [skip] counts the characters of the last
    match still to be passed over.  A match of no character is recorded
    and the walk moves on by one character; the patterns the source
    walks with match no empty string (see [run_min_len]). *)
Fixpoint scan (r : re) (pv : option ascii) (s : text) (ps skip : nat)
    {struct s} : list piece :=
  match s with
  | [] =>
      match skip, match_here r pv [] ps with
      | 0, Some m => [Chunk []; Hit m; Chunk []]
      | _, _ => [Chunk []]
      end
  | c :: s' =>
      match skip with
      | S k => scan r (Some c) s' (S ps) k
      | 0 =>
          match match_here r pv s ps with
          | Some m =>
              match m_len m with
              | 0 => Chunk [] :: Hit m :: push c (scan r (Some c) s' (S ps) 0)
              | S k => Chunk [] :: Hit m :: scan r (Some c) s' (S ps) k
              end
          | None => push c (scan r (Some c) s' (S ps) 0)
          end
      end
  end.

Definition pieces (r : re) (s : text) : list piece := scan r None s 0 0.

Definition hit_of (p : piece) : list mtch :=
  match p with Hit m => [m] | Chunk _ => [] end.

Definition chunk_of (p : piece) : list text :=
  match p with Chunk w => [w] | Hit _ => [] end.

Definition replaced (repl : text) (p : piece) : text :=
  match p with Chunk w => w | Hit _ => repl end.

(** [re.finditer(r, s)]. *)
Definition finditer (r : re) (s : text) : list mtch :=
  flat_map hit_of (pieces r s).

(** [re.split(r, s)] for a pattern without groups. *)
Definition split (r : re) (s : text) : list text :=
  flat_map chunk_of (pieces r s).

(** [re.sub(r, repl, s)] for a replacement without back-references. *)
Definition sub (r : re) (repl : text) (s : text) : text :=
  flat_map (replaced repl) (pieces r s).

(** ** Python helpers *)

Local Open Scope char_scope.
Local Open Scope Z_scope.

(** [x or y] on values that are [None] or a string. *)
Definition py_or (a b : option text) : option text :=
  match a with
  | Some (_ :: _) => a
  | _ => b
  end.

Fixpoint lstrip (s : text) : text :=
  match s with
  | c :: s' => if is_space c then lstrip s' else s
  | [] => []
  end.

Definition rstrip (s : text) : text := rev (lstrip (rev s)).

(** [s.strip()]. *)
Definition strip (s : text) : text := rstrip (lstrip s).

(** [sep.join(l)]. *)
Fixpoint join (sep : text) (l : list text) : text :=
  match l with
  | [] => []
  | [w] => w
  | w :: l' => w ++ sep ++ join sep l'
  end.

(** [s.isdigit()]. *)
Definition str_isdigit (s : text) : bool :=
  match s with
  | [] => false
  | _ => forallb is_digit_char s
  end.

(** [int(s)] on a run of decimal digits.  Python raises on any other
    string; the strings that reach [int] are groups matched by [\d]
    (see [net_groups_decimal] and its siblings). *)
Definition py_int (s : text) : Z :=
  fold_left (fun acc c => 10 * acc + (Z.of_N (code c) - 48)) s 0.

(** ** [clean] (lines 19-20)

    [s or ""] leaves a string as it is. *)

Definition ws_re : re := plus is_space.

Definition clean (s : text) : text := strip (sub ws_re (txt " ") s).

(** ** [word_to_num] (lines 22-31) *)

Definition WORD : list (string * Z) :=
  [("one", 1); ("two", 2); ("three", 3); ("four", 4); ("five", 5);
   ("six", 6); ("seven", 7); ("eight", 8); ("nine", 9); ("ten", 10);
   ("eleven", 11); ("twelve", 12); ("thirteen", 13); ("fourteen", 14);
   ("fifteen", 15); ("sixteen", 16); ("seventeen", 17); ("eighteen", 18);
   ("nineteen", 19); ("twenty", 20); ("thirty", 30); ("forty", 40);
   ("fifty", 50); ("sixty", 60); ("seventy", 70); ("eighty", 80);
   ("ninety", 90); ("hundred", 100)]%string.

(** [WORD.get(x)]. *)
Fixpoint dict_get (d : list (string * Z)) (x : string) : option Z :=
  match d with
  | [] => None
  | (k, v) :: d' => if String.eqb k x then Some v else dict_get d' x
  end.

(** [[^a-z]], without [re.I]. *)
Definition not_az_re : re := Chr (fun c => negb (is_lower_ascii c)).

Definition word_to_num (x : option text) : option Z :=
  match x with
  | None | Some [] => None
  | Some w =>
      dict_get WORD
        (string_of_list_ascii (sub not_az_re [] (map lower w)))
  end.

(** ** The patterns of [find_payment_days] (lines 33-50) *)

Definition ch (a : ascii) : re := Chr (is_char_i a).

(** [days?] *)
Definition days_re : re := (lit_i "day" ;; Opt (ch "s"))%re.

(** Pattern "\b(net\s*2|within\s*\(?2\)?\s*(?:business\s* )?days?)\b"
    (a blank added after the inner star). *)
Definition EXPLICIT_TWO : re :=
  (Wb ;;
   Grp 1 ((lit_i "net" ;; star is_space ;; ch "2")
          // (lit_i "within" ;; star is_space ;; Opt (ch "(") ;; ch "2" ;;
              Opt (ch ")") ;; star is_space ;;
              Opt (lit_i "business" ;; star is_space) ;; days_re)) ;;
   Wb)%re.

(** Pattern "[\r\n.]+". *)
Definition sep_re : re :=
  plus (fun c => is_char "013" c || is_char "010" c || is_char "." c).

(** Pattern "(payment|invoice|receipt|payable|net|due|days?)". *)
Definition kw_re : re :=
  Grp 1 (lit_i "payment" // lit_i "invoice" // lit_i "receipt"
         // lit_i "payable" // lit_i "net" // lit_i "due" // days_re)%re.

(** [[-\s]] *)
Definition dash_space (c : ascii) : bool := is_char "-" c || is_space c.

(** Pattern "\bnet[-\s]?((\d{1,3})|([a-z]+)\s*\(\s*(\d{1,3})\s*\)|([a-z]+))\b". *)
Definition net_re : re :=
  (Wb ;; lit_i "net" ;; Opt (Chr dash_space) ;;
   Grp 1 (Grp 2 (upto 1 3 is_dec)
          // (Grp 3 (plus is_az_i) ;; star is_space ;; ch "(" ;;
              star is_space ;; Grp 4 (upto 1 3 is_dec) ;; star is_space ;;
              ch ")")
          // Grp 5 (plus is_az_i)) ;;
   Wb)%re.

(** Pattern "\b(?:due\s+(?:in|within)|within)\s+(?:\(?([a-z]+)\)?\s* )?(?:\(?(\d{1,3})\)?)?\s*(?:calendar\s* )?days?\b"
    (a blank added after two inner stars). *)
Definition due_re : re :=
  (Wb ;;
   ((lit_i "due" ;; plus is_space ;; (lit_i "in" // lit_i "within"))
    // lit_i "within") ;;
   plus is_space ;;
   Opt (Opt (ch "(") ;; Grp 1 (plus is_az_i) ;; Opt (ch ")") ;;
        star is_space) ;;
   Opt (Opt (ch "(") ;; Grp 2 (upto 1 3 is_dec) ;; Opt (ch ")")) ;;
   star is_space ;;
   Opt (lit_i "calendar" ;; star is_space) ;;
   days_re ;; Wb)%re.

(** Pattern "\bpast\s+due\s+(?:after\s+)?(\d{1,3})\s*days?\b". *)
Definition past_re : re :=
  (Wb ;; lit_i "past" ;; plus is_space ;; lit_i "due" ;; plus is_space ;;
   Opt (lit_i "after" ;; plus is_space) ;;
   Grp 1 (upto 1 3 is_dec) ;; star is_space ;; days_re ;; Wb)%re.

(** ** [find_payment_days] (lines 35-58) *)

(** A candidate [(days, priority)]. *)
Definition pick : Type := (Z * Z)%type.

(** [int(n) if (n and n.isdigit()) else word_to_num(n)] *)
Definition to_num (n : option text) : option Z :=
  match n with
  | Some (c :: w) =>
      if str_isdigit (c :: w) then Some (py_int (c :: w)) else word_to_num n
  | _ => word_to_num n
  end.

Definition in_window (n : Z) : bool := (5 <=? n) && (n <=? 365).

(** Lines 41-43 and 47-49: what a resolved number adds to [picks]. *)
Definition rank (hi : Z) (n : option Z) : list pick :=
  match n with
  | None => []
  | Some n =>
      if n =? 2 then [(2, 3)]
      else if in_window n then [(n, hi)] else []
  end.

(** Lines 39-40: the number a match of [net_re] resolves to. *)
Definition net_value (m : mtch) : option Z :=
  to_num (py_or (py_or (group m 2) (group m 4)) (group m 5)).

(** Body of the loop of lines 38-43. *)
Definition net_pick (m : mtch) : list pick := rank 8 (net_value m).

(** Lines 45-46: the number a match of [due_re] resolves to. *)
Definition due_value (m : mtch) : option Z :=
  to_num (py_or (group m 2) (group m 1)).

(** Body of the loop of lines 44-49. *)
Definition due_pick (m : mtch) : list pick := rank 7 (due_value m).

(** Body of the loop of lines 50-52; group 1 takes part in every match
    of [past_re]. *)
Definition past_pick (m : mtch) : list pick :=
  match group m 1 with
  | Some w => let n := py_int w in if in_window n then [(n, 5)] else []
  | None => []
  end.

(** Line 36. *)
Definition relevant_text (t : text) : text :=
  join (txt ". ") (filter (found kw_re) (split sep_re t)).

(** Lines 37-52. *)
Definition candidates (relevant : text) : list pick :=
  flat_map net_pick (finditer net_re relevant)
  ++ flat_map due_pick (finditer due_re relevant)
  ++ flat_map past_pick (finditer past_re relevant).

(** The sort key [(-x[1], x[0])] and the order of Python tuples. *)
Definition sort_key (x : pick) : Z * Z := (- snd x, fst x).

Definition key_le (a b : pick) : bool :=
  let ka := sort_key a in
  let kb := sort_key b in
  (fst ka <? fst kb) || ((fst ka =? fst kb) && (snd ka <=? snd kb)).

(** [list.sort(key=...)] is stable: an insertion sort that keeps equal
    keys in their order. *)
Fixpoint insert (x : pick) (l : list pick) : list pick :=
  match l with
  | [] => [x]
  | y :: l' => if key_le x y then x :: l else y :: insert x l'
  end.

Definition sort_picks (l : list pick) : list pick := fold_right insert [] l.

(** Lines 53-58. *)
Definition resolve (picks : list pick) (relevant : text) : option Z :=
  match picks with
  | [] => None
  | _ :: _ =>
      match sort_picks picks with
      | (n, _) :: _ =>
          if (n =? 2) && negb (found EXPLICIT_TWO relevant)
          then None else Some n
      | [] => None
      end
  end.

Definition find_payment_days (t : text) : option Z :=
  let relevant := relevant_text t in
  resolve (candidates relevant) relevant.

(** ** The clause detectors (lines 60-73) *)

(** Pattern "(notice\s+of\s+assignment|assignment\s+notice|assignment\s+of\s+accounts)". *)
Definition noa_re : re :=
  Grp 1 ((lit_i "notice" ;; plus is_space ;; lit_i "of" ;; plus is_space ;;
          lit_i "assignment")
         // (lit_i "assignment" ;; plus is_space ;; lit_i "notice")
         // (lit_i "assignment" ;; plus is_space ;; lit_i "of" ;;
             plus is_space ;; lit_i "accounts"))%re.

(** Pattern "\brev\s*capital\b". *)
Definition rev_capital_re : re :=
  (Wb ;; lit_i "rev" ;; star is_space ;; lit_i "capital" ;; Wb)%re.

Definition find_noa (t : text) : bool :=
  found noa_re t && found rev_capital_re t.

(** Pattern "(non[-\s]?solicit|non[-\s]?hire|client\s+hire|liquidated\s+damages|conversion\s+fee)". *)
Definition nonsolicit_re : re :=
  Grp 1 ((lit_i "non" ;; Opt (Chr dash_space) ;; lit_i "solicit")
         // (lit_i "non" ;; Opt (Chr dash_space) ;; lit_i "hire")
         // (lit_i "client" ;; plus is_space ;; lit_i "hire")
         // (lit_i "liquidated" ;; plus is_space ;; lit_i "damages")
         // (lit_i "conversion" ;; plus is_space ;; lit_i "fee"))%re.

Definition find_nonsolicit (t : text) : bool := found nonsolicit_re t.

(** Pattern "(conversion|temp[-\s]?to[-\s]?perm)". *)
Definition conversions_re : re :=
  Grp 1 (lit_i "conversion"
         // (lit_i "temp" ;; Opt (Chr dash_space) ;; lit_i "to" ;;
             Opt (Chr dash_space) ;; lit_i "perm"))%re.

Definition find_conversions (t : text) : bool := found conversions_re t.

(** Pattern ".{0,200}indemnif(?:y|ication).{0,400}". *)
Definition indemnity_re : re :=
  (upto 0 200 is_dot ;; lit_i "indemnif" ;; (lit_i "y" // lit_i "ication") ;;
   upto 0 400 is_dot)%re.

(** Pattern "(each\s+party|mutual(?:ly)?\s+indemn|both\s+parties)". *)
Definition mutual_re : re :=
  Grp 1 ((lit_i "each" ;; plus is_space ;; lit_i "party")
         // (lit_i "mutual" ;; Opt (lit_i "ly") ;; plus is_space ;;
             lit_i "indemn")
         // (lit_i "both" ;; plus is_space ;; lit_i "parties"))%re.

Definition find_indemnity (t : text) : string :=
  match search indemnity_re t with
  | None => "none"
  | Some block => if found mutual_re (m_text block) then "mutual" else "one-sided"
  end.

(** ** [analyze] (lines 110-132) *)

(** An entry of [lights]: a dict with the keys label, status, note. *)
Record light : Type := Light {
  label : string;
  status : string;
  note : string
}.

(** [f"{days}"] *)
Definition str_of_int (n : Z) : string :=
  DecimalString.NilZero.string_of_int (Z.to_int n).

(** Lines 123-132, with the extracted facts as arguments. *)
Definition lights_of (days : option Z) (noa ns conv : bool) (indem : string)
    : list light :=
  let l : list light := [] in
  let l := l ++ [match days with
                 | None => Light "Payment Terms" "fail" "(not found)"
                 | Some d =>
                     let n := ("(" ++ str_of_int d ++ " days)")%string in
                     if d <=? 30 then Light "Payment Terms" "pass" n
                     else if d <=? 60 then Light "Payment Terms" "warn" n
                     else Light "Payment Terms" "fail" n
                 end] in
  let l := l ++ [Light "NOA to Rev Capital"
                       (if noa then "pass" else "fail")
                       (if noa then "(found)" else "(not found)")] in
  let l := l ++ [Light "Client Hire / Non-Solicit"
                       (if ns then "pass" else "warn")
                       (if ns then "(present)" else "(missing)")] in
  let l := l ++ [Light "Conversions"
                       (if conv then "pass" else "warn")
                       (if conv then "(present)" else "(missing)")] in
  let l := l ++ [Light "Indemnity"
                       (if String.eqb indem "none" || String.eqb indem "mutual"
                        then "pass" else "fail")
                       (if String.eqb indem "mutual" then "(mutual)"
                        else if String.eqb indem "none" then "(none)"
                        else "(one-sided)")] in
  l ++ [Light "Insurance" "warn"
              "(client minimums not auto-evaluated here)"].

(** The lights of a document whose extracted text is [text_raw]: an
    unreadable document is refused with status 422 (lines 113-115).
    The cards of lines 134-139 repeat the same facts as text and are
    left out. *)
Definition analyze (text_raw : text) : nat + list light :=
  let text_norm := clean text_raw in
  match text_norm with
  | [] => inl 422%nat
  | _ =>
      inr (lights_of (find_payment_days text_norm) (find_noa text_norm)
                     (find_nonsolicit text_norm) (find_conversions text_norm)
                     (find_indemnity text_norm))
  end.

(** ** Notions of the specification *)

(** The anchor forms as the specification lists them: one of the
    phrases "net 2", "net-2", "within (2) days" occurs, in any case. *)
Definition spec_two_day_anchor (relevant : text) : bool :=
  found (lit_i "net 2" // lit_i "net-2" // lit_i "within (2) days")%re
        relevant.

(** A keyword of the filter standing as a whole word. *)
Definition spec_kw_word_re : re := (Wb ;; kw_re ;; Wb)%re.

(** An occurrence of "indemnify" or "indemnification". *)
Definition occurrence_re : re :=
  (lit_i "indemnif" ;; (lit_i "y" // lit_i "ication"))%re.

(** The window of the specification: up to 200 characters before and
    400 after the first occurrence. *)
Definition spec_window (t : text) : option text :=
  match search occurrence_re t with
  | None => None
  | Some m =>
      let from := (m_start m - 200)%nat in
      Some (firstn (m_end m + 400 - from) (skipn from t))
  end.

Definition spec_find_indemnity (t : text) : string :=
  match spec_window t with
  | None => "none"
  | Some w => if found mutual_re w then "mutual" else "one-sided"
  end.

(** The sentence "net d days" with [d] in digits, bare and as a
    sentence of a document. *)
Definition net_days_sentence (d : Z) : text :=
  txt "net " ++ txt (str_of_int d) ++ txt " days".

Definition net_days_full_stop (d : Z) : text :=
  txt "Net " ++ txt (str_of_int d) ++ txt " days.".

(** The order of the sort, as a relation. *)
Definition key_before (a b : pick) : Prop :=
  snd b < snd a \/ (snd a = snd b /\ fst a <= fst b).

(** A text of two mentions of the keyword, the second within the first
    200 characters, and mutuality language more than 400 characters
    after the first mention. *)
Definition two_mentions : text :=
  txt "Contractor shall indemnify Client. " ++ repeat "x" 130
  ++ txt " Client may indemnify. " ++ repeat "y" 300 ++ txt " each party".

(** ** What a pattern matches

    The matches of a pattern, told apart from the way the matcher finds
    them: [lang r pv w after] says that [r] matches the word [w] when
    the character before it is [pv] and the text after it is [after]
    (both matter to [\b] only). *)

Definition last_char (pv : option ascii) (w : text) : option ascii :=
  fold_left (fun _ c => Some c) w pv.

Definition within (hi : option nat) (n : nat) : Prop :=
  match hi with Some h => (n <= h)%nat | None => True end.

Fixpoint lang (r : re) (pv : option ascii) (w after : text) : Prop :=
  match r with
  | Eps => w = []
  | Chr p => exists c, w = [c] /\ p c = true
  | Rep p lo hi =>
      forallb p w = true /\ (lo <= List.length w)%nat
      /\ within hi (List.length w)
  | Seq r1 r2 =>
      exists w1 w2,
        w = w1 ++ w2 /\ lang r1 pv w1 (w2 ++ after)
        /\ lang r2 (last_char pv w1) w2 after
  | Alt r1 r2 => lang r1 pv w after \/ lang r2 pv w after
  | Opt r1 => lang r1 pv w after \/ w = []
  | Grp _ r1 => lang r1 pv w after
  | Wb => w = [] /\ xorb (word_opt pv) (word_opt (hd_error after)) = true
  end.

(** [r] matches somewhere in [s]. *)
Definition occurs (r : re) (s : text) : Prop :=
  exists a w b, s = a ++ w ++ b /\ lang r (last_char None a) w b.

(** Patterns without [\b]. *)
Fixpoint wb_free (r : re) : bool :=
  match r with
  | Eps | Chr _ | Rep _ _ _ => true
  | Seq r1 r2 | Alt r1 r2 => wb_free r1 && wb_free r2
  | Opt r1 | Grp _ r1 => wb_free r1
  | Wb => false
  end.

(** The least number of characters a match takes. *)
Fixpoint min_len (r : re) : nat :=
  match r with
  | Eps | Wb | Opt _ => 0
  | Chr _ => 1
  | Rep _ lo _ => lo
  | Seq r1 r2 => min_len r1 + min_len r2
  | Alt r1 r2 => Nat.min (min_len r1) (min_len r2)
  | Grp _ r1 => min_len r1
  end.

(** Group [k] takes part in every match of [r]. *)
Fixpoint binds (k : nat) (r : re) : bool :=
  match r with
  | Grp n r1 => Nat.eqb n k || binds k r1
  | Seq r1 r2 => binds k r1 || binds k r2
  | Alt r1 r2 => binds k r1 && binds k r2
  | _ => false
  end.

(** Every group [n] of [r] captures words that satisfy [P n]. *)
Fixpoint groups_ok (P : nat -> text -> Prop) (r : re) : Prop :=
  match r with
  | Grp n r1 =>
      (forall pv w after, lang r1 pv w after -> P n w) /\ groups_ok P r1
  | Seq r1 r2 | Alt r1 r2 => groups_ok P r1 /\ groups_ok P r2
  | Opt r1 => groups_ok P r1
  | _ => True
  end.

(** A run of one to three decimal digits; a run of letters. *)
Definition decimal_run (w : text) : Prop :=
  forallb is_dec w = true /\ (1 <= List.length w <= 3)%nat.

Definition letter_run (w : text) : Prop :=
  forallb is_az_i w = true /\ (1 <= List.length w)%nat.

(** What the groups of [net_re], [due_re] and [past_re] capture. *)
Definition net_groups (k : nat) (w : text) : Prop :=
  match k with
  | 2%nat | 4%nat => decimal_run w
  | 3%nat | 5%nat => letter_run w
  | _ => True
  end.

Definition due_groups (k : nat) (w : text) : Prop :=
  match k with
  | 1%nat => letter_run w
  | 2%nat => decimal_run w
  | _ => True
  end.

Definition past_groups (k : nat) (w : text) : Prop :=
  match k with
  | 1%nat => decimal_run w
  | _ => True
  end.

(** No two whitespace characters in a row. *)
Fixpoint no_ws_pair (s : text) : bool :=
  match s with
  | x :: (y :: _) as s' => negb (is_space x && is_space y) && no_ws_pair s'
  | _ => true
  end.

Definition starts_ws (s : text) : bool :=
  match s with c :: _ => is_space c | [] => false end.

(** The number of whitespace characters [s] begins with. *)
Fixpoint leading_ws (s : text) : nat :=
  match s with
  | c :: s' => if is_space c then S (leading_ws s') else 0%nat
  | [] => 0%nat
  end.

(** One blank for each run of whitespace, read off a single pass;
    [in_ws] tells that the run has been answered already. *)
Fixpoint collapse_ws (in_ws : bool) (s : text) : text :=
  match s with
  | [] => []
  | c :: s' =>
      if is_space c
      then if in_ws then collapse_ws true s' else " " :: collapse_ws true s'
      else c :: collapse_ws false s'
  end.

(** A mention of the keyword, in any case. *)
Definition is_mention (w : text) : Prop :=
  map lower w = txt "indemnify" \/ map lower w = txt "indemnification".

(** The cursor [st'] lies [w] further than [st]. *)
Definition reaches (st : cursor) (w : text) (st' : cursor) : Prop :=
  rest st = w ++ rest st' /\ pos st' = (pos st + List.length w)%nat
  /\ prev st' = last_char (prev st) w.

(** ** Further notions *)

(** The ASCII letters of a token, lower-cased. *)
Definition letters (w : text) : text := filter is_lower_ascii (map lower w).

(** Lower-casing carried over cursors, matches and pieces. *)
Definition lower_caps (cs : list (nat * text)) : list (nat * text) :=
  map (fun kw => (fst kw, map lower (snd kw))) cs.

Definition lower_cursor (st : cursor) : cursor :=
  Cursor (option_map lower (prev st)) (map lower (rest st)) (pos st)
         (lower_caps (caps st)).

Definition lower_mtch (m : mtch) : mtch :=
  Mtch (m_start m) (m_end m) (map lower (m_text m)) (lower_caps (m_caps m)).

Definition lower_piece (p : piece) : piece :=
  match p with
  | Chunk w => Chunk (map lower w)
  | Hit m => Hit (lower_mtch m)
  end.

(** A class that does not tell a character from its lower case, and a
    pattern made of such classes. *)
Definition case_blind (p : ascii -> bool) : Prop :=
  forall c, p (lower c) = p c.

Fixpoint re_case_blind (r : re) : Prop :=
  match r with
  | Chr p | Rep p _ _ => case_blind p
  | Seq r1 r2 | Alt r1 r2 => re_case_blind r1 /\ re_case_blind r2
  | Opt r1 | Grp _ r1 => re_case_blind r1
  | Eps | Wb => True
  end.

(** The number of characters of class [p] that [s] begins with. *)
Fixpoint leading (p : ascii -> bool) (s : text) : nat :=
  match s with
  | c :: s' => if p c then S (leading p s') else 0%nat
  | [] => 0%nat
  end.

(** The separators of line 36. *)
Definition is_sep (c : ascii) : bool :=
  is_char "013" c || is_char "010" c || is_char "." c.

Definition nonnil (w : text) : bool :=
  match w with [] => false | _ :: _ => true end.

(** The word read so far, if any; [cur] holds it backwards. *)
Definition emit (cur : text) : list text :=
  match cur with [] => [] | _ :: _ => [rev cur] end.

(** The non-empty stretches of [s] between characters of class [p],
    read in one pass. *)
Fixpoint tokens_from (p : ascii -> bool) (cur : text) (s : text)
    : list text :=
  match s with
  | [] => emit cur
  | c :: s' =>
      if p c then emit cur ++ tokens_from p [] s'
      else tokens_from p (c :: cur) s'
  end.

(** The sentences of a text: what lies between full stops and line
    breaks. *)
Definition sentences (t : text) : list text := tokens_from is_sep [] t.

(** The first chunk of a list of chunks, with [cur] put before it. *)
Definition glue (cur : text) (l : list text) : list text :=
  match l with
  | h :: tl => (rev cur ++ h) :: tl
  | [] => [rev cur]
  end.

(** Patterns without groups. *)
Fixpoint group_free (r : re) : bool :=
  match r with
  | Grp _ _ => false
  | Seq r1 r2 | Alt r1 r2 => group_free r1 && group_free r2
  | Opt r1 => group_free r1
  | Eps | Chr _ | Rep _ _ _ | Wb => true
  end.

(** ** [extract_text_from_pdf] (lines 75-92)

    The libraries it calls are parameters: [pdf_text] is the primary
    extraction with its result read through [or ""] ([None] when it
    raises), [convert_from_bytes] renders the pages ([None] when it
    raises), [image_to_string] reads one page ([None] when it raises),
    and [OCR_OK] is the flag of lines 9-14. *)

Section Pdf.

Variables bytes image : Type.
Variable pdf_text : bytes -> option text.
Variable convert_from_bytes : bytes -> option (list image).
Variable image_to_string : image -> option text.

(** The loop of lines 87-88: an exception on a page leaves it. *)
Fixpoint ocr_pages (pages : list image) : option (list text) :=
  match pages with
  | [] => Some []
  | img :: pages' =>
      match image_to_string img with
      | None => None
      | Some s =>
          match ocr_pages pages' with
          | None => None
          | Some l => Some (s :: l)
          end
      end
  end.

(** Lines 76-80: the primary text, kept when it is not blank. *)
Definition primary_text (bytes_data : bytes) : option text :=
  match pdf_text bytes_data with
  | Some t => match clean t with [] => None | _ :: _ => Some t end
  | None => None
  end.

Definition extract_text_from_pdf (OCR_OK : bool) (bytes_data : bytes)
    : text :=
  match primary_text bytes_data with
  | Some t => t
  | None =>
      if OCR_OK then
        match convert_from_bytes bytes_data with
        | Some pages =>
            match ocr_pages (firstn 20 pages) with
            | Some ocr_txt => join ["010"] ocr_txt
            | None => []
            end
        | None => []
        end
      else []
  end.

End Pdf.

(** The sentences "due within d days" and "past due after d days". *)
Definition due_within_sentence (d : Z) : text :=
  txt "due within " ++ txt (str_of_int d) ++ txt " days".

Definition past_due_sentence (d : Z) : text :=
  txt "past due after " ++ txt (str_of_int d) ++ txt " days".

(** Equality test on resolved payment terms. *)
Definition same_days (a b : option Z) : bool :=
  match a, b with
  | Some x, Some y => x =? y
  | None, None => true
  | _, _ => false
  end.

(** The term a number word stands for when it is read alone. *)
Definition word_days (v : Z) : option Z :=
  if 5 <=? v then Some v else None.

Definition net_word_sentence (k : string) : text :=
  txt "net " ++ txt k ++ txt " days".

Definition due_word_sentence (k : string) : text :=
  txt "due within " ++ txt k ++ txt " days".

(** * Properties *)

(** ** The matcher and what a pattern matches *)

Section Matcher.

Local Open Scope nat_scope.

Lemma last_char_app (pv : option ascii) (w1 w2 : text) :
  last_char pv (w1 ++ w2) = last_char (last_char pv w1) w2.
Proof. unfold last_char. apply fold_left_app. Qed.

Lemma within_dec (hi : option nat) (n : nat) :
  more hi = true -> within (dec_hi hi) n -> within hi (S n).
Proof.
  destruct hi as [[|h]|]; cbn; intros; try discriminate; lia.
Qed.

Lemma within_more (hi : option nat) (n : nat) :
  within hi (S n) -> more hi = true /\ within (dec_hi hi) n.
Proof.
  destruct hi as [[|h]|]; cbn; intros; split; try reflexivity; lia.
Qed.

Lemma greedy_sound (p : ascii -> bool) (s : text) :
  forall lo hi pv ps cs st',
    In st' (greedy p lo hi pv s ps cs) ->
    exists w,
      s = w ++ rest st' /\ pos st' = ps + List.length w
      /\ prev st' = last_char pv w /\ caps st' = cs
      /\ forallb p w = true /\ lo <= List.length w
      /\ within hi (List.length w).
Proof.
  assert (Here : forall lo hi pv (s : text) ps cs st',
             In st' (match lo with 0 => [Cursor pv s ps cs] | S _ => [] end) ->
             exists w,
               s = w ++ rest st' /\ pos st' = ps + List.length w
               /\ prev st' = last_char pv w /\ caps st' = cs
               /\ forallb p w = true /\ lo <= List.length w
               /\ within hi (List.length w)).
  { intros lo hi pv s0 ps cs st' H. destruct lo; [|destruct H].
    destruct H as [<-|[]]. exists []. cbn.
    repeat split; auto. destruct hi; cbn; lia. }
  induction s as [|c s IH]; intros lo hi pv ps cs st'; cbn [greedy].
  - apply Here.
  - destruct (p c && more hi) eqn:E; [|apply Here].
    apply andb_true_iff in E. destruct E as [Pc Hm].
    rewrite in_app_iff. intros [H|H]; [|now apply Here].
    apply IH in H.
    destruct H as (w & Hs & Hp & Hv & Hc & Hall & Hlo & Hhi).
    exists (c :: w). cbn [app List.length forallb].
    rewrite Pc, Hall, Hp, Hv, Hc, <- Hs.
    repeat split; auto; try lia. now apply within_dec.
Qed.

Lemma greedy_here (p : ascii -> bool) (hi : option nat) (pv : option ascii)
    (s : text) (ps : nat) (cs : list (nat * text)) :
  In (Cursor pv s ps cs) (greedy p 0 hi pv s ps cs).
Proof.
  destruct s as [|c s]; cbn; [now left|].
  destruct (p c && more hi); [|now left].
  apply in_app_iff. right. now left.
Qed.

Lemma greedy_complete (p : ascii -> bool) (w : text) :
  forall lo hi pv after ps cs,
    forallb p w = true -> lo <= List.length w -> within hi (List.length w) ->
    In (Cursor (last_char pv w) after (ps + List.length w) cs)
       (greedy p lo hi pv (w ++ after) ps cs).
Proof.
  induction w as [|c w IH]; intros lo hi pv after ps cs Hall Hlo Hhi.
  - cbn in Hlo. assert (lo = 0) as -> by lia.
    cbn [List.length app]. rewrite Nat.add_0_r. apply greedy_here.
  - cbn in Hall. apply andb_true_iff in Hall. destruct Hall as [Pc Hall].
    cbn [List.length] in *. apply within_more in Hhi.
    destruct Hhi as [Hm Hhi].
    cbn [app greedy]. rewrite Pc, Hm. cbn [andb].
    apply in_app_iff. left.
    replace (ps + S (List.length w)) with (S ps + List.length w) by lia.
    apply IH; auto. lia.
Qed.

(** Every way the matcher finds is a match of the pattern. *)
Lemma run_sound (r : re) :
  forall st st',
    In st' (run r st) ->
    exists w,
      reaches st w st' /\ lang r (prev st) w (rest st').
Proof.
  unfold reaches.
  induction r as [|p|p lo hi|r1 IH1 r2 IH2|r1 IH1 r2 IH2|r1 IH1|n r1 IH1|];
    intros st st'; cbn [run lang].
  - intros [<-|[]]. exists []. cbn. auto.
  - destruct (rest st) as [|c s] eqn:Es; [intros []|].
    destruct (p c) eqn:Pc; [|intros []].
    intros [<-|[]]. exists [c]. cbn. repeat split; eauto; lia.
  - intros H. apply greedy_sound in H.
    destruct H as (w & Hs & Hp & Hv & _ & Hall & Hlo & Hhi).
    exists w. auto 10.
  - rewrite in_flat_map. intros (mid & H1 & H2).
    apply IH1 in H1. destruct H1 as (w1 & (Hs1 & Hp1 & Hv1) & L1).
    apply IH2 in H2. destruct H2 as (w2 & (Hs2 & Hp2 & Hv2) & L2).
    exists (w1 ++ w2). rewrite <- app_assoc, <- Hs2, last_char_app, <- Hv1.
    rewrite length_app. repeat split; auto; try lia.
    exists w1, w2. rewrite <- Hs2, <- Hv1. auto.
  - rewrite in_app_iff. intros [H|H].
    + apply IH1 in H. destruct H as (w & ? & ?). eauto.
    + apply IH2 in H. destruct H as (w & ? & ?). eauto.
  - rewrite in_app_iff. intros [H|[<-|[]]].
    + apply IH1 in H. destruct H as (w & ? & ?). eauto.
    + exists []. cbn. auto.
  - rewrite in_map_iff. intros (st1 & <- & H). cbn.
    apply IH1 in H. exact H.
  - destruct (at_boundary st) eqn:B; [|intros []].
    intros [<-|[]]. exists []. cbn. auto.
Qed.

(** Every match of the pattern is found by the matcher. *)
Lemma run_complete (r : re) :
  forall pv w after ps cs,
    lang r pv w after ->
    exists cs',
      In (Cursor (last_char pv w) after (ps + List.length w) cs')
         (run r (Cursor pv (w ++ after) ps cs)).
Proof.
  induction r as [|p|p lo hi|r1 IH1 r2 IH2|r1 IH1 r2 IH2|r1 IH1|n r1 IH1|];
    intros pv w after ps cs; cbn [run lang rest prev pos caps].
  - intros ->. exists cs. cbn. rewrite Nat.add_0_r. now left.
  - intros (c & -> & Pc). exists cs. cbn. rewrite Pc.
    replace (ps + 1) with (S ps) by lia. now left.
  - intros (Hall & Hlo & Hhi). exists cs. now apply greedy_complete.
  - intros (w1 & w2 & -> & L1 & L2).
    destruct (IH1 pv w1 (w2 ++ after) ps cs L1) as (cs1 & H1).
    destruct (IH2 (last_char pv w1) w2 after (ps + List.length w1) cs1 L2)
      as (cs2 & H2).
    exists cs2. rewrite in_flat_map.
    eexists. split; [rewrite <- app_assoc; exact H1|].
    rewrite last_char_app, length_app, Nat.add_assoc. exact H2.
  - intros [L|L].
    + destruct (IH1 pv w after ps cs L) as (cs' & H).
      exists cs'. apply in_app_iff. now left.
    + destruct (IH2 pv w after ps cs L) as (cs' & H).
      exists cs'. apply in_app_iff. now right.
  - intros [L| ->].
    + destruct (IH1 pv w after ps cs L) as (cs' & H).
      exists cs'. apply in_app_iff. now left.
    + exists cs. apply in_app_iff. right. cbn. rewrite Nat.add_0_r.
      now left.
  - intros L. destruct (IH1 pv w after ps cs L) as (cs' & H).
    eexists. rewrite in_map_iff. eexists. split; [|exact H]. reflexivity.
  - intros (-> & B). exists cs. unfold at_boundary. cbn. rewrite B.
    rewrite Nat.add_0_r. now left.
Qed.

End Matcher.

Section Search.

Local Open Scope nat_scope.

Lemma firstn_exact (w b : text) : firstn (List.length w) (w ++ b) = w.
Proof.
  rewrite <- (Nat.add_0_r (List.length w)), firstn_app_2.
  cbn. apply app_nil_r.
Qed.

Lemma match_here_sound (r : re) (pv : option ascii) (s : text) (ps : nat)
    (m : mtch) :
  match_here r pv s ps = Some m ->
  exists w b,
    s = w ++ b /\ m_start m = ps /\ m_end m = ps + List.length w
    /\ m_text m = w /\ lang r pv w b.
Proof.
  unfold match_here.
  destruct (run r (Cursor pv s ps [])) as [|st' tl] eqn:E; [discriminate|].
  intros [= <-].
  assert (H : In st' (run r (Cursor pv s ps []))) by (rewrite E; now left).
  apply run_sound in H. destruct H as (w & (Hs & Hp & _) & L).
  cbn in Hs, Hp, L. exists w, (rest st'). cbn.
  rewrite Hp, Hs. replace (ps + List.length w - ps) with (List.length w) by lia.
  rewrite firstn_exact. auto.
Qed.

Lemma match_here_complete (r : re) (pv : option ascii) (w b : text)
    (ps : nat) :
  lang r pv w b -> match_here r pv (w ++ b) ps <> None.
Proof.
  intros L. destruct (run_complete r pv w b ps [] L) as (cs & H).
  unfold match_here.
  destruct (run r (Cursor pv (w ++ b) ps [])); [destruct H|discriminate].
Qed.

(** The match [re.search] returns, and why it is the leftmost. *)
Lemma search_from_sound (r : re) (s : text) :
  forall pv ps m,
    search_from r pv s ps = Some m ->
    exists a w b,
      s = a ++ w ++ b /\ m_start m = ps + List.length a
      /\ m_end m = ps + List.length a + List.length w
      /\ m_text m = w /\ lang r (last_char pv a) w b
      /\ match_here r (last_char pv a) (w ++ b) (ps + List.length a) = Some m
      /\ forall a1 a2 w' b',
           a = a1 ++ a2 -> a2 <> [] -> a2 ++ w ++ b = w' ++ b' ->
           ~ lang r (last_char pv a1) w' b'.
Proof.
  induction s as [|c s IH]; intros pv ps m; cbn [search_from].
  - destruct (match_here r pv [] ps) as [m'|] eqn:E; [|discriminate].
    intros [= <-]. pose proof E as E'. apply match_here_sound in E.
    destruct E as (w & b & Hs & H1 & H2 & H3 & L).
    exists [], w, b. cbn. rewrite Nat.add_0_r. rewrite <- Hs.
    repeat split; auto.
    intros a1 a2 w' b' Ha. destruct a1, a2; try discriminate. congruence.
  - destruct (match_here r pv (c :: s) ps) as [m'|] eqn:E.
    + intros [= <-]. pose proof E as E'. apply match_here_sound in E.
      destruct E as (w & b & Hs & H1 & H2 & H3 & L).
      exists [], w, b. cbn. rewrite Nat.add_0_r. rewrite <- Hs.
      repeat split; auto.
      intros a1 a2 w' b' Ha. destruct a1, a2; try discriminate. congruence.
    + intros H. apply IH in H.
      destruct H as (a & w & b & Hs & H1 & H2 & H3 & L & Hm & Hleft).
      exists (c :: a), w, b. cbn [List.length app last_char fold_left].
      rewrite Hs.
      replace (ps + S (List.length a)) with (S ps + List.length a) by lia.
      repeat split; auto.
      intros a1 a2 w' b' Ha Hne Hw.
      destruct a1 as [|c1 a1].
      * cbn in Ha. subst a2. cbn in Hw. intros L'.
        apply (match_here_complete r pv w' b' ps) in L'.
        rewrite <- Hw, <- Hs in L'. cbn in L'. congruence.
      * cbn in Ha. injection Ha as <- ->.
        cbn. eapply Hleft; eauto.
Qed.

Lemma search_from_none (r : re) (s : text) :
  forall pv ps,
    search_from r pv s ps = None ->
    forall a w b, s = a ++ w ++ b -> ~ lang r (last_char pv a) w b.
Proof.
  induction s as [|c s IH]; intros pv ps; cbn [search_from].
  - destruct (match_here r pv [] ps) eqn:E; [discriminate|].
    intros _ a w b Hs L. destruct a; [|discriminate].
    cbn in Hs, L. apply (match_here_complete r pv w b ps) in L.
    rewrite <- Hs in L. congruence.
  - destruct (match_here r pv (c :: s) ps) eqn:E; [discriminate|].
    intros H a w b Hs L. destruct a as [|c' a].
    + cbn in Hs, L. apply (match_here_complete r pv w b ps) in L.
      rewrite <- Hs in L. congruence.
    + cbn in Hs. injection Hs as <- ->.
      eapply IH; eauto.
Qed.

(** [re.search] succeeds exactly when the pattern matches somewhere. *)
Lemma found_iff_occurs (r : re) (s : text) : found r s = true <-> occurs r s.
Proof.
  unfold found, search, occurs. split.
  - destruct (search_from r None s 0) as [m|] eqn:E; [|discriminate].
    intros _. apply search_from_sound in E.
    destruct E as (a & w & b & Hs & _ & _ & _ & L & _). eauto.
  - intros (a & w & b & Hs & L).
    destruct (search_from r None s 0) as [m|] eqn:E; [reflexivity|].
    exfalso. eapply search_from_none; eauto.
Qed.

(** Without [\b] a match does not depend on what surrounds it. *)
Lemma lang_wb_free (r : re) :
  wb_free r = true ->
  forall pv w after pv' after',
    lang r pv w after -> lang r pv' w after'.
Proof.
  induction r as [|p|p lo hi|r1 IH1 r2 IH2|r1 IH1 r2 IH2|r1 IH1|n r1 IH1|];
    cbn [wb_free lang]; intros F pv w after pv' after'; auto.
  - apply andb_true_iff in F. destruct F as [F1 F2].
    intros (w1 & w2 & -> & L1 & L2). exists w1, w2. eauto.
  - apply andb_true_iff in F. destruct F as [F1 F2].
    intros [L|L]; eauto.
  - intros [L|L]; eauto.
  - eauto.
  - discriminate.
Qed.

(** A literal under [re.I] matches the words that lower-case to it. *)
Lemma lang_lit_i (u : text) :
  forall pv w after,
    lang (lit_with is_char_i u) pv w after <-> map lower w = u.
Proof.
  assert (One : forall a w,
             (exists c, w = [c] /\ is_char_i a c = true) <-> map lower w = [a]).
  { intros a w. unfold is_char_i. split.
    - intros (c & -> & E). apply Ascii.eqb_eq in E. cbn. now rewrite E.
    - destruct w as [|c [|? ?]]; try discriminate.
      intros [= E]. exists c. split; [reflexivity|].
      apply Ascii.eqb_eq. auto. }
  induction u as [|a u IH]; intros pv w after.
  - cbn. split; [intros ->; reflexivity|].
    destruct w; [reflexivity|discriminate].
  - destruct u as [|b u].
    + cbn [lit_with lang]. apply One.
    + cbn [lit_with lang]. split.
      * intros (w1 & w2 & -> & L1 & L2).
        apply One in L1. apply IH in L2.
        rewrite map_app, L1, L2. reflexivity.
      * destruct w as [|c w]; [discriminate|].
        cbn [map]. intros [= E1 E2].
        exists [c], w. split; [reflexivity|]. split.
        -- apply One. cbn. now rewrite E1.
        -- apply IH. exact E2.
Qed.

(** A match is at least [min_len] characters long. *)
Lemma lang_min_len (r : re) :
  forall pv w after, lang r pv w after -> min_len r <= List.length w.
Proof.
  induction r as [|p|p lo hi|r1 IH1 r2 IH2|r1 IH1 r2 IH2|r1 IH1|n r1 IH1|];
    cbn [min_len lang]; intros pv w after.
  - lia.
  - intros (c & -> & _). cbn. lia.
  - intros (_ & H & _). exact H.
  - intros (w1 & w2 & -> & L1 & L2). rewrite length_app.
    apply IH1 in L1. apply IH2 in L2. lia.
  - intros [L|L]; [apply IH1 in L|apply IH2 in L]; lia.
  - lia.
  - apply IH1.
  - lia.
Qed.

Lemma match_here_min_len (r : re) (pv : option ascii) (s : text) (ps : nat)
    (m : mtch) :
  match_here r pv s ps = Some m -> min_len r <= m_len m.
Proof.
  intros H. apply match_here_sound in H.
  destruct H as (w & b & _ & H1 & H2 & _ & L).
  apply lang_min_len in L. unfold m_len. lia.
Qed.

(** The patterns walked by [finditer], [split] and [sub] match no
    empty string. *)
Lemma run_min_len :
  Forall (fun r => forall pv s ps m,
            match_here r pv s ps = Some m -> 0 < m_len m)
         [ws_re; not_az_re; sep_re; net_re; due_re; past_re].
Proof.
  repeat constructor; intros pv s ps m H;
    apply match_here_min_len in H; cbn in H; lia.
Qed.

End Search.

Section Priority.

Local Open Scope nat_scope.

(** The first result of a sequence comes from the first result of the
    head after which the tail matches. *)
Lemma flat_map_first {A B : Type} (f : A -> list B) (l : list A) (y : B)
    (tl : list B) :
  flat_map f l = y :: tl ->
  exists l1 x l2 tl',
    l = l1 ++ x :: l2 /\ (forall z, In z l1 -> f z = []) /\ f x = y :: tl'.
Proof.
  induction l as [|x l IH]; cbn; [discriminate|].
  destruct (f x) as [|y' tl'] eqn:E.
  - cbn. intros H. apply IH in H.
    destruct H as (l1 & x' & l2 & tl' & -> & Hz & Hx).
    exists (x :: l1), x', l2, tl'. split; [reflexivity|]. split; [|exact Hx].
    intros z [<-|Hin]; auto.
  - cbn. intros [= <- <-]. exists [], x, l, tl'. split; [reflexivity|].
    split; [intros z []|exact E].
Qed.

Lemma sorted_app {A : Type} (R : A -> A -> Prop) (l1 l2 : list A) :
  StronglySorted R l1 -> StronglySorted R l2 ->
  (forall x y, In x l1 -> In y l2 -> R x y) ->
  StronglySorted R (l1 ++ l2).
Proof.
  induction 1 as [|x l1 Hs IH Hall]; intros H2 Hx; cbn; [exact H2|].
  constructor.
  - apply IH; auto. intros; apply Hx; auto. now right.
  - apply Forall_app. split; [exact Hall|].
    apply Forall_forall. intros y Hy. apply Hx; auto. now left.
Qed.

(** Greedy repetition lists its results from the longest down. *)
Lemma greedy_sorted (p : ascii -> bool) (s : text) :
  forall lo hi pv ps cs,
    StronglySorted (fun x y => pos y < pos x) (greedy p lo hi pv s ps cs).
Proof.
  assert (Here : forall lo pv (s : text) ps cs,
             StronglySorted (fun x y : cursor => pos y < pos x)
               (match lo with 0 => [Cursor pv s ps cs] | S _ => [] end)).
  { intros. destruct lo; repeat constructor. }
  induction s as [|c s IH]; intros lo hi pv ps cs; cbn [greedy].
  - apply Here.
  - destruct (p c && more hi); [|apply Here].
    apply sorted_app; [apply IH|apply Here|].
    intros x y Hx Hy. apply greedy_sound in Hx.
    destruct Hx as (w & _ & Hp & _).
    destruct lo; [|destruct Hy]. destruct Hy as [<-|[]]. cbn. lia.
Qed.

Lemma sorted_before {A : Type} (R : A -> A -> Prop) (l1 l2 : list A)
    (x z : A) :
  StronglySorted R (l1 ++ x :: l2) -> In z (l1 ++ x :: l2) ->
  In z l1 \/ z = x \/ R x z.
Proof.
  induction l1 as [|y l1 IH]; cbn; intros Hs Hin.
  - inversion Hs as [|? ? _ Hall]; subst.
    rewrite Forall_forall in Hall.
    destruct Hin as [<-|Hin]; auto.
  - inversion Hs as [|? ? Hs' _]; subst.
    destruct Hin as [<-|Hin]; auto.
    destruct (IH Hs' Hin) as [H|[H|H]]; auto.
Qed.

(** The first match of a repetition followed by [r]: the longest run
    after which [r] matches. *)
Lemma rep_seq_first (p : ascii -> bool) (lo : nat) (hi : option nat)
    (r : re) (st st' : cursor) (tl : list cursor) :
  run (Seq (Rep p lo hi) r) st = st' :: tl ->
  exists a mid tl',
    reaches st a mid /\ caps mid = caps st
    /\ forallb p a = true /\ lo <= List.length a /\ within hi (List.length a)
    /\ run r mid = st' :: tl'
    /\ forall a' after',
         rest st = a' ++ after' -> forallb p a' = true ->
         lo <= List.length a' -> within hi (List.length a') ->
         (exists w b, after' = w ++ b /\ lang r (last_char (prev st) a') w b) ->
         List.length a' <= List.length a.
Proof.
  cbn [run]. intros H. apply flat_map_first in H.
  destruct H as (l1 & mid & l2 & tl' & El & Hz & Hx).
  assert (Hin : In mid (greedy p lo hi (prev st) (rest st) (pos st) (caps st)))
    by (rewrite El; apply in_app_iff; right; now left).
  apply greedy_sound in Hin.
  destruct Hin as (a & Hs & Hp & Hv & Hc & Hall & Hlo & Hhi).
  exists a, mid, tl'. unfold reaches. repeat split; auto.
  intros a' after' Hs' Hall' Hlo' Hhi' (w & b & -> & L).
  pose proof (greedy_complete p a' lo hi (prev st) (w ++ b) (pos st) (caps st)
                Hall' Hlo' Hhi') as Hin'.
  rewrite <- Hs' in Hin'.
  pose proof (greedy_sorted p (rest st) lo hi (prev st) (pos st) (caps st))
    as Hsorted.
  rewrite El in Hsorted, Hin'.
  destruct (sorted_before _ _ _ _ _ Hsorted Hin') as [H1|[H1|H1]].
  - apply Hz in H1.
    destruct (run_complete r _ w b (pos st + List.length a') (caps st) L)
      as (cs' & Hr).
    rewrite H1 in Hr. destruct Hr.
  - rewrite <- H1 in Hp. cbn in Hp. lia.
  - cbn in H1. lia.
Qed.

(** The first match of a repetition alone: the longest run. *)
Lemma rep_first (p : ascii -> bool) (lo : nat) (hi : option nat)
    (st st' : cursor) (tl : list cursor) :
  run (Rep p lo hi) st = st' :: tl ->
  exists b,
    reaches st b st' /\ forallb p b = true /\ lo <= List.length b
    /\ within hi (List.length b)
    /\ forall b' after',
         rest st = b' ++ after' -> forallb p b' = true ->
         lo <= List.length b' -> within hi (List.length b') ->
         List.length b' <= List.length b.
Proof.
  cbn [run]. intros E.
  assert (Hin : In st' (greedy p lo hi (prev st) (rest st) (pos st) (caps st)))
    by (rewrite E; now left).
  apply greedy_sound in Hin.
  destruct Hin as (b & Hs & Hp & Hv & Hc & Hall & Hlo & Hhi).
  exists b. unfold reaches. repeat split; auto.
  intros b' after' Hs' Hall' Hlo' Hhi'.
  pose proof (greedy_complete p b' lo hi (prev st) after' (pos st) (caps st)
                Hall' Hlo' Hhi') as Hin'.
  rewrite <- Hs' in Hin'.
  pose proof (greedy_sorted p (rest st) lo hi (prev st) (pos st) (caps st))
    as Hsorted.
  rewrite E in Hsorted, Hin'.
  destruct Hin' as [H1|H1].
  - rewrite H1 in Hp. cbn in Hp. lia.
  - inversion Hsorted as [|? ? _ Hall0]; subst.
    rewrite Forall_forall in Hall0. apply Hall0 in H1. cbn in H1. lia.
Qed.

(** The first match of [r1] followed by [r2], when it exists, goes
    through a match of [r1]. *)
Lemma seq_first (r1 r2 : re) (st st' : cursor) (tl : list cursor) :
  run (Seq r1 r2) st = st' :: tl ->
  exists mid tl', In mid (run r1 st) /\ run r2 mid = st' :: tl'.
Proof.
  cbn [run]. intros H. apply flat_map_first in H.
  destruct H as (l1 & mid & l2 & tl' & El & _ & Hx).
  exists mid, tl'. split; [|exact Hx].
  rewrite El. apply in_app_iff. right. now left.
Qed.

End Priority.

Section Indemnity.

Local Open Scope nat_scope.

(** The tail of [indemnity_re] after its first repetition. *)
Lemma mention_lang (kw : text) (pv : option ascii) (after : text) :
  is_mention kw <-> lang occurrence_re pv kw after.
Proof.
  unfold is_mention, occurrence_re, lit_i. cbn [lang]. split.
  - intros [H|H].
    + change (txt "indemnify") with (txt "indemnif" ++ txt "y") in H.
      apply map_eq_app in H. destruct H as (k1 & k2 & -> & H1 & H2).
      exists k1, k2. split; [reflexivity|].
      split; [now apply lang_lit_i|]. left. now apply lang_lit_i.
    + change (txt "indemnification") with (txt "indemnif" ++ txt "ication")
        in H.
      apply map_eq_app in H. destruct H as (k1 & k2 & -> & H1 & H2).
      exists k1, k2. split; [reflexivity|].
      split; [now apply lang_lit_i|]. right. now apply lang_lit_i.
  - intros (k1 & k2 & -> & L1 & [L2|L2]);
      apply lang_lit_i in L1; apply lang_lit_i in L2;
      rewrite map_app, L1, L2; [left|right]; reflexivity.
Qed.

Lemma window_lang (a kw b : text) (pv : option ascii) (after : text) :
  forallb is_dot a = true -> List.length a <= 200 -> is_mention kw ->
  forallb is_dot b = true -> List.length b <= 400 ->
  lang indemnity_re pv (a ++ kw ++ b) after.
Proof.
  intros Ha La Hk Hb Lb.
  apply (mention_lang kw (last_char pv a) (b ++ after)) in Hk.
  unfold occurrence_re in Hk. cbn [lang] in Hk.
  destruct Hk as (k1 & k2 & -> & L1 & L2).
  unfold indemnity_re, upto. cbn [lang].
  exists a, ((k1 ++ k2) ++ b). split; [reflexivity|]. split.
  - repeat split; auto. lia.
  - exists k1, (k2 ++ b). split; [now rewrite app_assoc|]. split.
    + eapply lang_wb_free; [reflexivity|exact L1].
    + exists k2, b. split; [reflexivity|]. split.
      * destruct L2 as [L2|L2]; [left|right];
          (eapply lang_wb_free; [reflexivity|exact L2]).
      * repeat split; auto. lia.
Qed.

Lemma forallb_skipn {A : Type} (p : A -> bool) (n : nat) (l : list A) :
  forallb p l = true -> forallb p (skipn n l) = true.
Proof.
  intros H. rewrite <- (firstn_skipn n l) in H.
  rewrite forallb_app in H. now apply andb_true_iff in H.
Qed.

(** The block [re.search] finds for [indemnity_re]. *)
Lemma indemnity_block (t : text) (block : mtch) :
  search indemnity_re t = Some block ->
  exists pre a kw0 b post,
    t = pre ++ a ++ kw0 ++ b ++ post
    /\ m_text block = a ++ kw0 ++ b
    /\ is_mention kw0
    /\ forallb is_dot a = true /\ List.length a <= 200
    /\ forallb is_dot b = true /\ List.length b <= 400
    /\ (forall x kw y,
          t = x ++ kw ++ y -> is_mention kw ->
          List.length pre <= List.length x
          /\ (forallb is_dot x = true ->
              List.length pre <= List.length x - 200))
    /\ (forall a' kw' y',
          a ++ kw0 ++ b ++ post = a' ++ kw' ++ y' -> is_mention kw' ->
          forallb is_dot a' = true -> List.length a' <= 200 ->
          List.length a' <= List.length a)
    /\ (forall b' y',
          b ++ post = b' ++ y' -> forallb is_dot b' = true ->
          List.length b' <= 400 -> List.length b' <= List.length b).
Proof.
  unfold search. intros H. apply search_from_sound in H.
  destruct H as (pre & w & post' & Ht & _ & _ & _ & _ & Hm & Hleft).
  cbn [Nat.add] in Hm.
  unfold match_here in Hm.
  destruct (run indemnity_re
              (Cursor (last_char None pre) (w ++ post') (List.length pre) []))
    as [|st' tl] eqn:E; [discriminate|].
  injection Hm as <-. cbn [m_text].
  unfold indemnity_re, upto in E.
  apply rep_seq_first in E.
  destruct E as (a & mid1 & tl1 & (Hs1 & Hp1 & Hv1) & _ & Ha & _ & La & E & Hmax).
  cbn [rest pos prev within] in Hs1, Hp1, Hv1, La, Hmax.
  apply seq_first in E. destruct E as (mid2 & tl2 & Hin2 & E).
  apply run_sound in Hin2. destruct Hin2 as (k1 & (Hs2 & Hp2 & Hv2) & L1).
  apply seq_first in E. destruct E as (mid3 & tl3 & Hin3 & E).
  apply run_sound in Hin3. destruct Hin3 as (k2 & (Hs3 & Hp3 & Hv3) & L2).
  apply rep_first in E.
  destruct E as (b & (Hs4 & Hp4 & Hv4) & Hb & _ & Lb & Hbmax).
  cbn [within] in Lb, Hbmax.
  assert (Hk : is_mention (k1 ++ k2)).
  { apply (mention_lang _ None []). unfold occurrence_re. cbn [lang].
    exists k1, k2. split; [reflexivity|]. split.
    - eapply lang_wb_free; [reflexivity|exact L1].
    - destruct L2 as [L2|L2]; [left|right];
        (eapply lang_wb_free; [reflexivity|exact L2]). }
  assert (Hw : w ++ post' = a ++ (k1 ++ k2) ++ b ++ rest st').
  { rewrite Hs1, Hs2, Hs3, Hs4. now rewrite <- !app_assoc. }
  exists pre, a, (k1 ++ k2), b, (rest st').
  split; [rewrite Ht, Hw; reflexivity|].
  split.
  { rewrite Hw, Hp4, Hp3, Hp2, Hp1.
    replace (List.length pre + List.length a + List.length k1
             + List.length k2 + List.length b - List.length pre)
      with (List.length (a ++ (k1 ++ k2) ++ b))
      by (rewrite !length_app; lia).
    rewrite !app_assoc. rewrite <- !app_assoc.
    replace (a ++ k1 ++ k2 ++ b ++ rest st')
      with ((a ++ k1 ++ k2 ++ b) ++ rest st')
      by (now rewrite <- !app_assoc).
    apply firstn_exact. }
  split; [exact Hk|].
  split; [exact Ha|]. split; [exact La|].
  split; [exact Hb|]. split; [exact Lb|].
  split; [|split].
  - intros x kw y Hx Hkw.
    assert (Hle : List.length pre <= List.length x).
    { destruct (Nat.le_gt_cases (List.length pre) (List.length x)) as [|Hlt];
        [assumption|exfalso].
      rewrite Ht in Hx. apply app_eq_app in Hx.
      destruct Hx as (d & [[Hpre Hd]|[Hx _]]).
      - apply (Hleft x d kw y Hpre).
        + intros ->. rewrite app_nil_r in Hpre. subst x. lia.
        + now rewrite Hd.
        + replace kw with ([] ++ kw ++ []) by (cbn; apply app_nil_r).
          apply window_lang; cbn; auto; lia.
      - rewrite Hx, length_app in Hlt. lia. }
    split; [exact Hle|]. intros Hdot.
    destruct (Nat.le_gt_cases (List.length pre) (List.length x - 200))
      as [|Hlt]; [assumption|exfalso].
    rewrite Ht in Hx. apply app_eq_app in Hx.
    destruct Hx as (d & [[Hpre Hd]|[Hx Hd]]).
    + assert (d = []) as ->.
      { destruct d; [reflexivity|].
        rewrite Hpre, length_app in Hle. cbn in Hle. lia. }
      rewrite app_nil_r in Hpre. subst x. cbn in Hd.
      set (n := List.length pre - 200) in *.
      apply (Hleft (firstn n pre) (skipn n pre) (skipn n pre ++ kw) y).
      * symmetry. apply firstn_skipn.
      * intros E0. apply (f_equal (@List.length ascii)) in E0.
        rewrite length_skipn in E0. cbn in E0. lia.
      * rewrite <- app_assoc. now rewrite Hd.
      * replace (skipn n pre ++ kw) with (skipn n pre ++ kw ++ [])
          by (now rewrite app_nil_r).
        apply window_lang; cbn; auto; try lia.
        -- now apply forallb_skipn.
        -- rewrite length_skipn. lia.
    + set (n := List.length x - 200) in *.
      apply (Hleft (firstn n pre) (skipn n pre)
                   ((skipn n pre ++ d) ++ kw) y).
      * symmetry. apply firstn_skipn.
      * intros E0. apply (f_equal (@List.length ascii)) in E0.
        rewrite length_skipn in E0. cbn in E0. lia.
      * rewrite Hd. now rewrite <- !app_assoc.
      * replace ((skipn n pre ++ d) ++ kw) with ((skipn n pre ++ d) ++ kw ++ [])
          by (now rewrite app_nil_r).
        apply window_lang; cbn; auto; try lia.
        -- rewrite Hx in Hdot. rewrite forallb_app in *.
           apply andb_true_iff in Hdot. destruct Hdot as [D1 D2].
           rewrite D2, andb_true_r. now apply forallb_skipn.
        -- rewrite length_app, length_skipn. subst n.
           rewrite Hx, length_app in Hlt |- *. lia.
  - intros a' kw' y' Heq Hkw' Ha' La'.
    apply (Hmax a' (kw' ++ y')); auto.
    + now rewrite Hw.
    + lia.
    + exists kw', y'. split; [reflexivity|].
      apply (mention_lang kw' (last_char (last_char None pre) a') y') in Hkw'.
      unfold occurrence_re in Hkw'. cbn [lang] in Hkw'.
      destruct Hkw' as (k1' & k2' & -> & L1' & L2').
      cbn [lang]. exists k1', k2'. split; [reflexivity|]. split.
      * eapply lang_wb_free; [reflexivity|exact L1'].
      * exists k2', []. split; [now rewrite app_nil_r|]. split.
        -- destruct L2' as [L2'|L2']; [left|right];
             (eapply lang_wb_free; [reflexivity|exact L2']).
        -- cbn. repeat split; lia.
  - intros b' y' Heq Hb' Lb'.
    apply (Hbmax b' y'); auto.
    + now rewrite Hs4.
    + lia.
Qed.

End Indemnity.

(** ** [clean] *)

Section Clean.

Local Open Scope nat_scope.

Lemma greedy_space_first (s : text) :
  forall lo pv ps cs,
    lo <= 1 -> (lo = 1 -> starts_ws s = true) ->
    exists st' tl,
      greedy is_space lo None pv s ps cs = st' :: tl
      /\ pos st' = ps + leading_ws s.
Proof.
  induction s as [|c s IH]; intros lo pv ps cs Hlo Hs; cbn [greedy].
  - destruct lo as [|lo].
    + eexists _, _. split; [reflexivity|]. cbn. lia.
    + assert (S lo = 1) as E by lia. apply Hs in E. discriminate.
  - cbn [leading_ws more dec_hi]. destruct (is_space c) eqn:Ec; cbn [andb].
    + destruct (IH (Nat.pred lo) (Some c) (S ps) cs) as (st' & tl & E & Hp).
      * lia.
      * intros E. destruct lo as [|[|lo]]; cbn in E; lia.
      * rewrite E. eexists _, _. split; [reflexivity|]. lia.
    + destruct lo as [|lo].
      * eexists _, _. split; [reflexivity|]. cbn. lia.
      * assert (S lo = 1) as E by lia. apply Hs in E. cbn in E. congruence.
Qed.

(** At a whitespace character [\s+] takes the whole run of whitespace;
    elsewhere it does not match. *)
Lemma ws_match_here (pv : option ascii) (s : text) (ps : nat) :
  match match_here ws_re pv s ps with
  | Some m => starts_ws s = true /\ m_len m = leading_ws s
  | None => starts_ws s = false
  end.
Proof.
  unfold match_here, ws_re, plus. cbn [run prev rest pos caps].
  destruct (starts_ws s) eqn:Es.
  - destruct (greedy_space_first s 1 pv ps []) as (st' & tl & E & Hp); auto.
    rewrite E. unfold m_len. cbn. split; [reflexivity|lia].
  - destruct s as [|c s]; [reflexivity|].
    cbn in Es. cbn. now rewrite Es.
Qed.

Lemma replaced_push (repl : text) (c : ascii) (l : list piece) :
  flat_map (replaced repl) (push c l) = c :: flat_map (replaced repl) l.
Proof. destruct l as [|[w|m] l]; reflexivity. Qed.

(** The substitution of [clean] is the single pass [collapse_ws]. *)
Lemma scan_ws_collapse (s : text) :
  forall pv ps,
    flat_map (replaced (txt " ")) (scan ws_re pv s ps (leading_ws s))
      = collapse_ws true s
    /\ flat_map (replaced (txt " ")) (scan ws_re pv s ps 0)
      = collapse_ws false s.
Proof.
  induction s as [|c s IH]; intros pv ps.
  - cbn [leading_ws scan collapse_ws].
    pose proof (ws_match_here pv [] ps) as H.
    destruct (match_here ws_re pv [] ps); [destruct H; discriminate|].
    split; reflexivity.
  - cbn [leading_ws scan collapse_ws].
    pose proof (ws_match_here pv (c :: s) ps) as H.
    destruct (IH (Some c) (S ps)) as [IA IB].
    destruct (is_space c) eqn:Ec.
    + split; [exact IA|].
      destruct (match_here ws_re pv (c :: s) ps) as [m|];
        [|cbn in H; congruence].
      destruct H as [_ Hl]. cbn [leading_ws] in Hl. rewrite Ec in Hl.
      rewrite Hl. cbn [flat_map replaced app]. now rewrite IA.
    + destruct (match_here ws_re pv (c :: s) ps) as [m|].
      * destruct H as [H _]. cbn in H. congruence.
      * rewrite replaced_push, IB. split; reflexivity.
Qed.

Lemma sub_ws_collapse (s : text) : sub ws_re (txt " ") s = collapse_ws false s.
Proof. unfold sub, pieces. apply scan_ws_collapse. Qed.

Lemma no_ws_pair_cons (x y : ascii) (l : text) :
  no_ws_pair (x :: y :: l)
  = negb (is_space x && is_space y) && no_ws_pair (y :: l).
Proof. reflexivity. Qed.

Lemma collapse_ws_shape (s : text) :
  forall b,
    no_ws_pair (collapse_ws b s) = true
    /\ (b = true -> starts_ws (collapse_ws b s) = false).
Proof.
  induction s as [|c s IH]; intros b; cbn [collapse_ws].
  - split; reflexivity.
  - destruct (IH true) as [T1 T2]. destruct (IH false) as [F1 _].
    destruct (is_space c) eqn:Ec.
    + destruct b.
      * split; auto.
      * split; [|discriminate].
        specialize (T2 eq_refl).
        destruct (collapse_ws true s) as [|y l] eqn:E; [reflexivity|].
        rewrite no_ws_pair_cons. cbn in T2. rewrite T2, andb_false_r.
        cbn [negb andb]. exact T1.
    + split; [|intros _; cbn; exact Ec].
      destruct (collapse_ws false s) as [|y l] eqn:E; [reflexivity|].
      rewrite no_ws_pair_cons, Ec. cbn [negb andb]. exact F1.
Qed.

Lemma collapse_ws_blank (s : text) :
  forallb is_space s = true ->
  collapse_ws true s = [] /\ (collapse_ws false s = [] \/ collapse_ws false s = txt " ").
Proof.
  induction s as [|c s IH]; cbn [forallb collapse_ws]; [auto|].
  intros H. apply andb_true_iff in H. destruct H as [Hc Hs].
  rewrite Hc. destruct (IH Hs) as [-> _]. auto.
Qed.

Lemma lstrip_split (s : text) :
  exists d, s = d ++ lstrip s /\ forallb is_space d = true.
Proof.
  induction s as [|c s (d & E & Hd)]; cbn [lstrip].
  - exists []. auto.
  - destruct (is_space c) eqn:Ec.
    + exists (c :: d). cbn. rewrite Ec, Hd. split; [now f_equal|reflexivity].
    + exists []. auto.
Qed.

Lemma lstrip_starts (s : text) : starts_ws (lstrip s) = false.
Proof.
  induction s as [|c s IH]; cbn [lstrip]; [reflexivity|].
  destruct (is_space c) eqn:Ec; [exact IH|]. cbn. exact Ec.
Qed.

Lemma rstrip_split (s : text) :
  exists d, s = rstrip s ++ d /\ forallb is_space d = true.
Proof.
  unfold rstrip. destruct (lstrip_split (rev s)) as (d & E & Hd).
  exists (rev d). split.
  - rewrite <- rev_app_distr, <- E. symmetry. apply rev_involutive.
  - rewrite forallb_forall in *. intros x Hx. apply Hd.
    now apply in_rev.
Qed.

Lemma rstrip_last (s r : text) (c : ascii) :
  rstrip s = r ++ [c] -> is_space c = false.
Proof.
  unfold rstrip. intros E. apply (f_equal (@rev ascii)) in E.
  rewrite rev_involutive, rev_app_distr in E. cbn in E.
  pose proof (lstrip_starts (rev s)) as H. rewrite E in H. exact H.
Qed.

Lemma no_ws_pair_tail (x : ascii) (s : text) :
  no_ws_pair (x :: s) = true -> no_ws_pair s = true.
Proof.
  destruct s as [|y s]; [reflexivity|]. rewrite no_ws_pair_cons.
  intros H. now apply andb_true_iff in H.
Qed.

Lemma no_ws_pair_suffix (d s : text) :
  no_ws_pair (d ++ s) = true -> no_ws_pair s = true.
Proof.
  induction d as [|x d IH]; cbn [app]; [auto|].
  intros H. apply IH. eapply no_ws_pair_tail. exact H.
Qed.

Lemma no_ws_pair_prefix (s d : text) :
  no_ws_pair (s ++ d) = true -> no_ws_pair s = true.
Proof.
  induction s as [|x s IH]; [reflexivity|].
  destruct s as [|y s]; [reflexivity|].
  cbn [app]. rewrite !no_ws_pair_cons. intros H. apply andb_true_iff in H.
  destruct H as [H1 H2]. rewrite H1. cbn [andb]. apply IH. exact H2.
Qed.

Lemma no_ws_pair_inside (a : text) (x y : ascii) (b : text) :
  no_ws_pair (a ++ x :: y :: b) = true -> is_space x && is_space y = false.
Proof.
  intros H. apply no_ws_pair_suffix in H. rewrite no_ws_pair_cons in H.
  apply andb_true_iff in H. destruct H as [H _].
  now apply negb_true_iff in H.
Qed.

Lemma strip_shape (s : text) :
  (forall c r, strip s = c :: r -> is_space c = false)
  /\ (forall r c, strip s = r ++ [c] -> is_space c = false)
  /\ (no_ws_pair s = true -> no_ws_pair (strip s) = true).
Proof.
  unfold strip.
  destruct (rstrip_split (lstrip s)) as (d & E & Hd).
  destruct (lstrip_split s) as (d' & E' & Hd').
  split; [|split].
  - intros c r H. pose proof (lstrip_starts s) as Hs.
    rewrite E, H in Hs. exact Hs.
  - intros r c H. eapply rstrip_last. exact H.
  - intros H. rewrite E' in H. apply no_ws_pair_suffix in H.
    rewrite E in H. now apply no_ws_pair_prefix in H.
Qed.

Lemma not_space_is_dot (c : ascii) : is_space c = false -> is_dot c = true.
Proof.
  destruct c as [[] [] [] [] [] [] [] []]; vm_compute; congruence.
Qed.

Lemma collapse_ws_no_linefeed (s : text) :
  forall b, forallb is_dot (collapse_ws b s) = true.
Proof.
  induction s as [|c s IH]; intros b; cbn [collapse_ws]; [reflexivity|].
  destruct (is_space c) eqn:Ec.
  - destruct b; [apply IH|]. cbn [forallb]. now rewrite IH.
  - cbn [forallb]. now rewrite IH, (not_space_is_dot c Ec).
Qed.

(** A normalized text holds no line feed. *)
Lemma clean_no_linefeed (s : text) : forallb is_dot (clean s) = true.
Proof.
  unfold clean, strip. rewrite sub_ws_collapse.
  pose proof (collapse_ws_no_linefeed s false) as H.
  destruct (lstrip_split (collapse_ws false s)) as (d & E & _).
  rewrite E, forallb_app in H. apply andb_true_iff in H. destruct H as [_ H].
  destruct (rstrip_split (lstrip (collapse_ws false s))) as (d' & E' & _).
  rewrite E', forallb_app in H. now apply andb_true_iff in H.
Qed.

End Clean.

(** ** What the groups capture *)

Section Groups.

Local Open Scope nat_scope.

Lemma run_caps_grow (r : re) :
  forall st st', In st' (run r st) -> exists new, caps st' = new ++ caps st.
Proof.
  induction r as [|p|p lo hi|r1 IH1 r2 IH2|r1 IH1 r2 IH2|r1 IH1|n r1 IH1|];
    intros st st'; cbn [run].
  - intros [<-|[]]. now exists [].
  - destruct (rest st) as [|c s]; [intros []|].
    destruct (p c); [|intros []]. intros [<-|[]]. now exists [].
  - intros H. apply greedy_sound in H.
    destruct H as (w & _ & _ & _ & Hc & _). exists []. exact Hc.
  - rewrite in_flat_map. intros (mid & H1 & H2).
    apply IH1 in H1. apply IH2 in H2.
    destruct H1 as (n1 & E1). destruct H2 as (n2 & E2).
    exists (n2 ++ n1). now rewrite E2, E1, app_assoc.
  - rewrite in_app_iff. intros [H|H]; eauto.
  - rewrite in_app_iff. intros [H|[<-|[]]]; eauto. now exists [].
  - rewrite in_map_iff. intros (st1 & <- & H). cbn.
    apply IH1 in H. destruct H as (n1 & E1).
    eexists (_ :: n1). rewrite E1. reflexivity.
  - destruct (at_boundary st); [|intros []].
    intros [<-|[]]. now exists [].
Qed.

Lemma lookup_app_bound (k : nat) (new old : list (nat * text)) :
  lookup k old <> None -> lookup k (new ++ old) <> None.
Proof.
  intros H. induction new as [|[n w] new IH]; cbn; [exact H|].
  destruct (Nat.eqb n k); [discriminate|exact IH].
Qed.

Lemma lookup_in (k : nat) (cs : list (nat * text)) (w : text) :
  lookup k cs = Some w -> In (k, w) cs.
Proof.
  induction cs as [|[n v] cs IH]; cbn; [discriminate|].
  destruct (Nat.eqb n k) eqn:E.
  - apply Nat.eqb_eq in E. intros [= ->]. left. now subst.
  - intros H. right. auto.
Qed.

(** A group that lies on every path through the pattern is set by
    every match. *)
Lemma run_binds (k : nat) (r : re) :
  binds k r = true ->
  forall st st', In st' (run r st) -> lookup k (caps st') <> None.
Proof.
  induction r as [|p|p lo hi|r1 IH1 r2 IH2|r1 IH1 r2 IH2|r1 IH1|n r1 IH1|];
    cbn [binds]; try discriminate; intros B st st'; cbn [run].
  - rewrite in_flat_map. intros (mid & H1 & H2).
    apply orb_true_iff in B. destruct B as [B|B].
    + destruct (run_caps_grow r2 _ _ H2) as (new & ->).
      apply lookup_app_bound. eapply IH1; eauto.
    + eapply IH2; eauto.
  - apply andb_true_iff in B. destruct B as [B1 B2].
    rewrite in_app_iff. intros [H|H]; [eapply IH1|eapply IH2]; eauto.
  - rewrite in_map_iff. intros (st1 & <- & H). cbn.
    destruct (Nat.eqb n k) eqn:E; [discriminate|].
    cbn in B. eapply IH1; eauto.
Qed.

(** Every captured word is a match of its group. *)
Lemma run_groups_ok (P : nat -> text -> Prop) (r : re) :
  groups_ok P r ->
  forall st st',
    (forall k w, In (k, w) (caps st) -> P k w) ->
    In st' (run r st) ->
    forall k w, In (k, w) (caps st') -> P k w.
Proof.
  induction r as [|p|p lo hi|r1 IH1 r2 IH2|r1 IH1 r2 IH2|r1 IH1|n r1 IH1|];
    cbn [groups_ok]; intros G st st' Hst; cbn [run].
  - intros [<-|[]]. exact Hst.
  - destruct (rest st) as [|c s]; [intros []|].
    destruct (p c); [|intros []]. intros [<-|[]]. exact Hst.
  - intros H. apply greedy_sound in H.
    destruct H as (w & _ & _ & _ & -> & _). exact Hst.
  - destruct G as [G1 G2]. rewrite in_flat_map. intros (mid & H1 & H2).
    apply (IH2 G2 mid st'); [|exact H2].
    apply (IH1 G1 st mid); assumption.
  - destruct G as [G1 G2]. rewrite in_app_iff.
    intros [H|H]; [apply (IH1 G1 st st')|apply (IH2 G2 st st')]; assumption.
  - rewrite in_app_iff. intros [H|[<-|[]]]; [|exact Hst].
    apply (IH1 G st st'); assumption.
  - destruct G as [G0 G1]. rewrite in_map_iff. intros (st1 & <- & H).
    cbn [caps]. intros k w [E|Hin].
    + injection E as <- <-.
      apply run_sound in H. destruct H as (w & (Hs & Hp & _) & L).
      rewrite Hs, Hp.
      replace (pos st + List.length w - pos st) with (List.length w) by lia.
      rewrite firstn_exact. eapply G0; eauto.
    + eapply IH1; eauto.
  - destruct (at_boundary st); [|intros []].
    intros [<-|[]]. exact Hst.
Qed.

Lemma match_here_caps (r : re) (pv : option ascii) (s : text) (ps : nat)
    (m : mtch) :
  match_here r pv s ps = Some m ->
  exists st', In st' (run r (Cursor pv s ps [])) /\ m_caps m = caps st'.
Proof.
  unfold match_here.
  destruct (run r (Cursor pv s ps [])) as [|st' tl]; [discriminate|].
  intros [= <-]. exists st'. split; [now left|reflexivity].
Qed.

Lemma in_push (c : ascii) (l : list piece) (m : mtch) :
  In (Hit m) (push c l) -> In (Hit m) l.
Proof.
  destruct l as [|[w|m'] l]; cbn.
  - intros [H|[]]. discriminate.
  - intros [H|H]; [discriminate|auto].
  - intros [H|H]; [discriminate|exact H].
Qed.

(** Every match [finditer] yields is the first match at some position
    of the subject. *)
Lemma scan_hits (r : re) (s : text) :
  forall pv ps k m,
    In (Hit m) (scan r pv s ps k) ->
    exists pv' s' ps', match_here r pv' s' ps' = Some m.
Proof.
  induction s as [|c s IH]; intros pv ps k m; cbn [scan].
  - destruct k.
    + destruct (match_here r pv [] ps) as [m'|] eqn:E.
      * intros [H|[H|[H|[]]]]; try discriminate.
        injection H as <-. eauto.
      * intros [H|[]]. discriminate.
    + intros [H|[]]. discriminate.
  - destruct k as [|k]; [|apply IH].
    destruct (match_here r pv (c :: s) ps) as [m'|] eqn:E.
    + destruct (m_len m').
      * intros [H|[H|H]]; try discriminate.
        -- injection H as <-. eauto.
        -- apply in_push in H. eapply IH; eauto.
      * intros [H|[H|H]]; try discriminate.
        -- injection H as <-. eauto.
        -- eapply IH; eauto.
    + intros H. apply in_push in H. eapply IH; eauto.
Qed.

Lemma finditer_hits (r : re) (s : text) (m : mtch) :
  In m (finditer r s) ->
  exists pv' s' ps', match_here r pv' s' ps' = Some m.
Proof.
  unfold finditer, pieces. rewrite in_flat_map.
  intros ([w|m'] & Hin & H); [destruct H|].
  destruct H as [<-|[]]. eapply scan_hits; eauto.
Qed.

Lemma finditer_groups (P : nat -> text -> Prop) (r : re) (s : text)
    (m : mtch) (k : nat) (w : text) :
  groups_ok P r -> In m (finditer r s) -> group m k = Some w -> P k w.
Proof.
  intros G Hin Hg. apply finditer_hits in Hin.
  destruct Hin as (pv & s' & ps & Hm).
  apply match_here_caps in Hm. destruct Hm as (st' & Hr & Hc).
  unfold group in Hg. rewrite Hc in Hg. apply lookup_in in Hg.
  eapply run_groups_ok; eauto. intros k' w' [].
Qed.

Lemma finditer_binds (r : re) (s : text) (m : mtch) (k : nat) :
  binds k r = true -> In m (finditer r s) -> group m k <> None.
Proof.
  intros B Hin. apply finditer_hits in Hin.
  destruct Hin as (pv & s' & ps & Hm).
  apply match_here_caps in Hm. destruct Hm as (st' & Hr & Hc).
  unfold group. rewrite Hc. eapply run_binds; eauto.
Qed.

Lemma net_groups_ok : groups_ok net_groups net_re.
Proof.
  unfold net_re; cbn [groups_ok lit_i lit_with txt list_ascii_of_string
                      star ch days_re]; cbn [net_groups].
  repeat split; auto;
    match goal with
    | H : lang _ _ _ _ |- _ =>
        cbn in H; destruct H as (? & ? & ?); solve [auto | lia]
    end.
Qed.

Lemma due_groups_ok : groups_ok due_groups due_re.
Proof.
  unfold due_re; cbn [groups_ok lit_i lit_with txt list_ascii_of_string
                      star ch days_re]; cbn [due_groups].
  repeat split; auto;
    match goal with
    | H : lang _ _ _ _ |- _ =>
        cbn in H; destruct H as (? & ? & ?); solve [auto | lia]
    end.
Qed.

Lemma past_groups_ok : groups_ok past_groups past_re.
Proof.
  unfold past_re; cbn [groups_ok lit_i lit_with txt list_ascii_of_string
                       star ch days_re]; cbn [past_groups].
  repeat split; auto;
    match goal with
    | H : lang _ _ _ _ |- _ =>
        cbn in H; destruct H as (? & ? & ?); solve [auto | lia]
    end.
Qed.

Lemma letter_not_digit (c : ascii) : is_az_i c = true -> is_digit_char c = false.
Proof.
  destruct c as [[] [] [] [] [] [] [] []]; vm_compute; congruence.
Qed.

Lemma dec_is_digit (c : ascii) : is_dec c = true -> is_digit_char c = true.
Proof. unfold is_digit_char. now intros ->. Qed.

Lemma letter_run_not_digits (w : text) : letter_run w -> str_isdigit w = false.
Proof.
  intros [H L]. destruct w as [|c w]; [reflexivity|].
  cbn in H |- *. apply andb_true_iff in H. destruct H as [Hc _].
  now rewrite (letter_not_digit _ Hc).
Qed.

(** The strings of a match of [net_re] that reach [int] are runs of
    decimal digits. *)
Lemma net_groups_decimal (relevant : text) (m : mtch) (w : text) :
  In m (finditer net_re relevant) ->
  py_or (py_or (group m 2) (group m 4)) (group m 5) = Some w ->
  str_isdigit w = true -> decimal_run w.
Proof.
  intros Hin Hor Hd.
  pose proof (fun k w => finditer_groups net_groups net_re relevant m k w
                           net_groups_ok Hin) as G.
  assert (Hcase : group m 2 = Some w \/ group m 4 = Some w
                  \/ group m 5 = Some w).
  { unfold py_or in Hor.
    destruct (group m 2) as [[|? ?]|]; destruct (group m 4) as [[|? ?]|];
      auto. }
  destruct Hcase as [H|[H|H]].
  - exact (G 2 w H).
  - exact (G 4 w H).
  - apply G in H. cbn in H. apply letter_run_not_digits in H. congruence.
Qed.

(** Likewise for [due_re]. *)
Lemma due_groups_decimal (relevant : text) (m : mtch) (w : text) :
  In m (finditer due_re relevant) ->
  py_or (group m 2) (group m 1) = Some w ->
  str_isdigit w = true -> decimal_run w.
Proof.
  intros Hin Hor Hd.
  pose proof (fun k w => finditer_groups due_groups due_re relevant m k w
                           due_groups_ok Hin) as G.
  assert (Hcase : group m 2 = Some w \/ group m 1 = Some w).
  { unfold py_or in Hor. destruct (group m 2) as [[|? ?]|]; auto. }
  destruct Hcase as [H|H].
  - exact (G 2 w H).
  - apply G in H. cbn in H. apply letter_run_not_digits in H. congruence.
Qed.

(** Group 1 of [past_re] takes part in every match and is a run of
    decimal digits. *)
Lemma past_group_decimal (relevant : text) (m : mtch) :
  In m (finditer past_re relevant) ->
  exists w, group m 1 = Some w /\ decimal_run w.
Proof.
  intros Hin.
  pose proof (finditer_binds past_re relevant m 1 eq_refl Hin) as B.
  destruct (group m 1) as [w|] eqn:E; [|congruence].
  exists w. split; [reflexivity|].
  exact (finditer_groups past_groups past_re relevant m 1 w
           past_groups_ok Hin E).
Qed.

End Groups.

(** ** More on [clean] *)

Section CleanMore.

Local Open Scope nat_scope.

Lemma collapse_ws_keeps (s : text) :
  forall b,
    filter (fun c => negb (is_space c)) (collapse_ws b s)
    = filter (fun c => negb (is_space c)) s.
Proof.
  induction s as [|c s IH]; intros b; cbn [collapse_ws filter]; [reflexivity|].
  destruct (is_space c) eqn:Ec; cbn [negb].
  - destruct b; [apply IH|]. cbn [filter]. apply IH.
  - cbn [filter]. rewrite Ec. cbn [negb]. now rewrite IH.
Qed.

Lemma collapse_ws_blanks (s : text) :
  forall b,
    Forall (fun c => is_space c = true -> c = " "%char) (collapse_ws b s).
Proof.
  induction s as [|c s IH]; intros b; cbn [collapse_ws]; [constructor|].
  destruct (is_space c) eqn:Ec.
  - destruct b; [apply IH|]. constructor; [reflexivity|apply IH].
  - constructor; [congruence|apply IH].
Qed.

Lemma collapse_ws_length (s : text) :
  forall b, List.length (collapse_ws b s) <= List.length s.
Proof.
  induction s as [|c s IH]; intros b; cbn [collapse_ws List.length]; [lia|].
  destruct (is_space c); [destruct b|]; cbn [List.length];
    try (specialize (IH true); lia); specialize (IH false); lia.
Qed.

Lemma filter_blank_nil (d : text) :
  forallb is_space d = true -> filter (fun c => negb (is_space c)) d = [].
Proof.
  induction d as [|c d IH]; cbn; [reflexivity|].
  intros H. apply andb_true_iff in H. destruct H as [-> H]. cbn. auto.
Qed.

Lemma filter_nil_blank (d : text) :
  filter (fun c => negb (is_space c)) d = [] -> forallb is_space d = true.
Proof.
  induction d as [|c d IH]; cbn; [reflexivity|].
  destruct (is_space c); cbn; [exact IH|discriminate].
Qed.

Lemma strip_keeps (s : text) :
  filter (fun c => negb (is_space c)) (strip s)
  = filter (fun c => negb (is_space c)) s.
Proof.
  unfold strip.
  destruct (lstrip_split s) as (d & E & Hd).
  destruct (rstrip_split (lstrip s)) as (d' & E' & Hd').
  rewrite E at 2. rewrite E' at 2.
  rewrite !filter_app, (filter_blank_nil d Hd), (filter_blank_nil d' Hd').
  now rewrite app_nil_r.
Qed.

Lemma strip_length (s : text) : List.length (strip s) <= List.length s.
Proof.
  unfold strip.
  destruct (lstrip_split s) as (d & E & _).
  destruct (rstrip_split (lstrip s)) as (d' & E' & _).
  rewrite E at 2. rewrite E' at 2. rewrite !length_app. lia.
Qed.

Lemma strip_blanks (s : text) :
  Forall (fun c => is_space c = true -> c = " "%char) s ->
  Forall (fun c => is_space c = true -> c = " "%char) (strip s).
Proof.
  unfold strip. intros H.
  destruct (lstrip_split s) as (d & E & _).
  destruct (rstrip_split (lstrip s)) as (d' & E' & _).
  rewrite E in H. apply Forall_app in H. destruct H as [_ H].
  rewrite E' in H. now apply Forall_app in H.
Qed.

Lemma rstrip_ends (s : text) : starts_ws (rev (rstrip s)) = false.
Proof. unfold rstrip. rewrite rev_involutive. apply lstrip_starts. Qed.

Lemma lstrip_fixed (s : text) : starts_ws s = false -> lstrip s = s.
Proof. destruct s as [|c s]; cbn; [reflexivity|]. now intros ->. Qed.

Lemma rstrip_fixed (s : text) : starts_ws (rev s) = false -> rstrip s = s.
Proof.
  intros H. unfold rstrip. rewrite (lstrip_fixed _ H). apply rev_involutive.
Qed.

Lemma rstrip_starts (s : text) : starts_ws s = false -> starts_ws (rstrip s) = false.
Proof.
  intros H. destruct (rstrip_split s) as (d & E & _).
  destruct (rstrip s) as [|c r]; [reflexivity|].
  rewrite E in H. exact H.
Qed.

Lemma collapse_after_ws (s : text) :
  starts_ws s = false -> collapse_ws true s = collapse_ws false s.
Proof. destruct s as [|c s]; cbn; [reflexivity|]. now intros ->. Qed.

(** A text that is already normal is left as it is by the pass. *)
Lemma collapse_ws_fixed (s : text) :
  no_ws_pair s = true ->
  Forall (fun c => is_space c = true -> c = " "%char) s ->
  collapse_ws false s = s.
Proof.
  induction s as [|c s IH]; [reflexivity|].
  intros Hp Hb. inversion Hb as [|? ? Hc Hb']; subst.
  pose proof (no_ws_pair_tail _ _ Hp) as Hp'.
  cbn [collapse_ws]. destruct (is_space c) eqn:Ec.
  - rewrite (Hc eq_refl). f_equal.
    rewrite collapse_after_ws; [now apply IH|].
    destruct s as [|y s]; [reflexivity|].
    rewrite no_ws_pair_cons, Ec in Hp. cbn in Hp |- *.
    destruct (is_space y); [discriminate|reflexivity].
  - f_equal. now apply IH.
Qed.

Lemma clean_fixed (s : text) :
  no_ws_pair s = true ->
  Forall (fun c => is_space c = true -> c = " "%char) s ->
  starts_ws s = false -> starts_ws (rev s) = false ->
  clean s = s.
Proof.
  intros Hp Hb H1 H2. unfold clean, strip.
  rewrite sub_ws_collapse, (collapse_ws_fixed s Hp Hb).
  rewrite (lstrip_fixed s H1). now apply rstrip_fixed.
Qed.

Lemma clean_normal (s : text) :
  no_ws_pair (clean s) = true
  /\ Forall (fun c => is_space c = true -> c = " "%char) (clean s)
  /\ starts_ws (clean s) = false
  /\ starts_ws (rev (clean s)) = false.
Proof.
  unfold clean. rewrite sub_ws_collapse.
  destruct (strip_shape (collapse_ws false s)) as (_ & _ & S3).
  split; [apply S3, collapse_ws_shape|].
  split; [apply strip_blanks, collapse_ws_blanks|].
  unfold strip. split; [|apply rstrip_ends].
  apply rstrip_starts, lstrip_starts.
Qed.

Lemma clean_keeps (s : text) :
  filter (fun c => negb (is_space c)) (clean s)
  = filter (fun c => negb (is_space c)) s.
Proof.
  unfold clean. rewrite sub_ws_collapse, strip_keeps. apply collapse_ws_keeps.
Qed.

Lemma clean_nil_iff (s : text) : clean s = [] <-> forallb is_space s = true.
Proof.
  split.
  - intros E. apply filter_nil_blank. rewrite <- clean_keeps, E. reflexivity.
  - intros H. unfold clean. rewrite sub_ws_collapse.
    apply collapse_ws_blank in H. destruct H as [_ [-> | ->]]; reflexivity.
Qed.

End CleanMore.

(** ** [word_to_num] *)

Section Words.

Local Open Scope nat_scope.

Lemma not_az_match_here (pv : option ascii) (s : text) (ps : nat) :
  match match_here not_az_re pv s ps with
  | Some m =>
      m_len m = 1 /\ exists c s', s = c :: s' /\ is_lower_ascii c = false
  | None =>
      match s with c :: _ => is_lower_ascii c = true | [] => True end
  end.
Proof.
  unfold match_here, not_az_re. cbn [run rest pos caps].
  destruct s as [|c s]; [exact I|].
  destruct (is_lower_ascii c) eqn:Ec; cbn [negb].
  - reflexivity.
  - unfold m_len. cbn [m_end m_start pos]. split; [lia|]. eauto.
Qed.

(** Deleting what is not a lower-case letter is a filter. *)
Lemma scan_not_az (s : text) :
  forall pv ps,
    flat_map (replaced []) (scan not_az_re pv s ps 0)
    = filter is_lower_ascii s.
Proof.
  induction s as [|c s IH]; intros pv ps; cbn [scan filter].
  - pose proof (not_az_match_here pv [] ps) as H.
    destruct (match_here not_az_re pv [] ps); [|reflexivity].
    destruct H as [_ (c & s' & E & _)]. discriminate.
  - pose proof (not_az_match_here pv (c :: s) ps) as H.
    destruct (match_here not_az_re pv (c :: s) ps) as [m|].
    + destruct H as [Hl (c' & s' & E & Hc)]. injection E as <- <-.
      rewrite Hl, Hc. cbn [flat_map replaced app]. apply IH.
    + rewrite H, replaced_push. now rewrite IH.
Qed.

Lemma sub_not_az (s : text) : sub not_az_re [] s = filter is_lower_ascii s.
Proof. unfold sub, pieces. apply scan_not_az. Qed.

Lemma word_to_num_letters (w : text) :
  w <> [] ->
  word_to_num (Some w) = dict_get WORD (string_of_list_ascii (letters w)).
Proof.
  destruct w as [|c w]; [congruence|]. intros _.
  unfold word_to_num, letters. now rewrite sub_not_az.
Qed.

Lemma dict_get_in (d : list (string * Z)) (x : string) (v : Z) :
  dict_get d x = Some v -> In (x, v) d.
Proof.
  induction d as [|[k u] d IH]; cbn; [discriminate|].
  destruct (String.eqb k x) eqn:E.
  - apply String.eqb_eq in E. intros [= ->]. left. now subst.
  - intros H. right. auto.
Qed.

(** The keys of [WORD] are distinct: each is looked up to its value. *)
Lemma dict_get_word (k : string) (v : Z) :
  In (k, v) WORD -> dict_get WORD k = Some v.
Proof.
  unfold WORD. cbn [In].
  intros H.
  repeat (destruct H as [H|H]; [injection H as <- <-; reflexivity|]).
  destruct H.
Qed.

Lemma letters_nonempty (w : text) : letters w <> [] -> w <> [].
Proof. intros H ->. now apply H. Qed.

End Words.

(** ** Letter case *)

Section Case.

Local Open Scope nat_scope.

Lemma lower_idem (c : ascii) : lower (lower c) = lower c.
Proof. destruct c as [[] [] [] [] [] [] [] []]; reflexivity. Qed.

Lemma is_word_lower (c : ascii) : is_word (lower c) = is_word c.
Proof. destruct c as [[] [] [] [] [] [] [] []]; reflexivity. Qed.

Lemma is_space_blind : case_blind is_space.
Proof. intros c. destruct c as [[] [] [] [] [] [] [] []]; reflexivity. Qed.

Lemma is_dec_blind : case_blind is_dec.
Proof. intros c. destruct c as [[] [] [] [] [] [] [] []]; reflexivity. Qed.

Lemma is_digit_char_blind : case_blind is_digit_char.
Proof. intros c. destruct c as [[] [] [] [] [] [] [] []]; reflexivity. Qed.

Lemma is_dot_blind : case_blind is_dot.
Proof. intros c. destruct c as [[] [] [] [] [] [] [] []]; reflexivity. Qed.

Lemma dash_space_blind : case_blind dash_space.
Proof. intros c. destruct c as [[] [] [] [] [] [] [] []]; reflexivity. Qed.

Lemma sep_blind :
  case_blind (fun c => is_char "013" c || is_char "010" c || is_char "." c).
Proof. intros c. destruct c as [[] [] [] [] [] [] [] []]; reflexivity. Qed.

Lemma is_char_i_blind (a : ascii) : case_blind (is_char_i a).
Proof. intros c. unfold is_char_i. now rewrite lower_idem. Qed.

Lemma is_az_i_blind : case_blind is_az_i.
Proof. intros c. unfold is_az_i. now rewrite lower_idem. Qed.

Lemma digit_lower_fixed (c : ascii) : is_digit_char c = true -> lower c = c.
Proof.
  destruct c as [[] [] [] [] [] [] [] []]; vm_compute; congruence.
Qed.

Lemma lit_i_blind (s : string) : re_case_blind (lit_i s).
Proof.
  unfold lit_i. induction (txt s) as [|a u IH]; [exact I|].
  destruct u as [|b u]; [apply is_char_i_blind|].
  split; [apply is_char_i_blind|exact IH].
Qed.

Lemma flat_map_through {A : Type} (f : A -> list A) (g : A -> A)
    (l : list A) :
  (forall x, f (g x) = map g (f x)) ->
  flat_map f (map g l) = map g (flat_map f l).
Proof.
  intros H. induction l as [|x l IH]; cbn; [reflexivity|].
  now rewrite H, IH, map_app.
Qed.

Lemma greedy_lower (p : ascii -> bool) (s : text) :
  case_blind p ->
  forall lo hi pv ps cs,
    greedy p lo hi (option_map lower pv) (map lower s) ps (lower_caps cs)
    = map lower_cursor (greedy p lo hi pv s ps cs).
Proof.
  intros B. induction s as [|c s IH]; intros lo hi pv ps cs;
    cbn [greedy map].
  - destruct lo; reflexivity.
  - rewrite B. destruct (p c && more hi).
    + rewrite map_app. rewrite <- IH. destruct lo; reflexivity.
    + destruct lo; reflexivity.
Qed.

Lemma at_boundary_lower (st : cursor) :
  at_boundary (lower_cursor st) = at_boundary st.
Proof.
  unfold at_boundary, lower_cursor. cbn [prev rest]. f_equal.
  - destruct (prev st); cbn; [apply is_word_lower|reflexivity].
  - destruct (rest st); cbn; [reflexivity|apply is_word_lower].
Qed.

(** On a lower-cased subject a case-blind pattern matches in the same
    ways. *)
Lemma run_lower (r : re) :
  re_case_blind r ->
  forall st, run r (lower_cursor st) = map lower_cursor (run r st).
Proof.
  induction r as [|p|p lo hi|r1 IH1 r2 IH2|r1 IH1 r2 IH2|r1 IH1|n r1 IH1|];
    cbn [re_case_blind]; intros B st; cbn [run].
  - reflexivity.
  - unfold lower_cursor at 1. cbn [rest pos caps].
    destruct (rest st) as [|c s]; [reflexivity|]. cbn [map].
    rewrite B. destruct (p c); reflexivity.
  - unfold lower_cursor at 1. cbn [prev rest pos caps].
    now apply greedy_lower.
  - destruct B as [B1 B2]. rewrite (IH1 B1).
    apply flat_map_through. exact (IH2 B2).
  - destruct B as [B1 B2]. now rewrite (IH1 B1), (IH2 B2), map_app.
  - rewrite (IH1 B), map_app. reflexivity.
  - rewrite (IH1 B), !map_map. apply map_ext. intros st'.
    unfold lower_cursor. cbn [prev rest pos caps lower_caps map fst snd].
    now rewrite firstn_map.
  - rewrite at_boundary_lower. destruct (at_boundary st); reflexivity.
Qed.

Lemma match_here_lower (r : re) (pv : option ascii) (s : text) (ps : nat) :
  re_case_blind r ->
  match_here r (option_map lower pv) (map lower s) ps
  = option_map lower_mtch (match_here r pv s ps).
Proof.
  intros B. unfold match_here.
  change (Cursor (option_map lower pv) (map lower s) ps [])
    with (lower_cursor (Cursor pv s ps [])).
  rewrite (run_lower r B).
  destruct (run r (Cursor pv s ps [])) as [|st' tl]; [reflexivity|].
  cbn. unfold lower_mtch. cbn. now rewrite firstn_map.
Qed.

Lemma search_from_lower (r : re) (s : text) :
  re_case_blind r ->
  forall pv ps,
    search_from r (option_map lower pv) (map lower s) ps
    = option_map lower_mtch (search_from r pv s ps).
Proof.
  intros B. induction s as [|c s IH]; intros pv ps; cbn [search_from map].
  - pose proof (match_here_lower r pv [] ps B) as E. cbn [map] in E.
    rewrite E. destruct (match_here r pv [] ps); reflexivity.
  - pose proof (match_here_lower r pv (c :: s) ps B) as E. cbn [map] in E.
    rewrite E. destruct (match_here r pv (c :: s) ps); [reflexivity|].
    apply (IH (Some c)).
Qed.

Lemma search_lower (r : re) (s : text) :
  re_case_blind r ->
  search r (map lower s) = option_map lower_mtch (search r s).
Proof. intros B. apply (search_from_lower r s B None). Qed.

Lemma found_lower (r : re) (s : text) :
  re_case_blind r -> found r (map lower s) = found r s.
Proof.
  intros B. unfold found. rewrite (search_lower r s B).
  destruct (search r s); reflexivity.
Qed.

Lemma push_lower (c : ascii) (l : list piece) :
  map lower_piece (push c l) = push (lower c) (map lower_piece l).
Proof. destruct l as [|[w|m] l]; reflexivity. Qed.

Lemma scan_lower (r : re) (s : text) :
  re_case_blind r ->
  forall pv ps k,
    scan r (option_map lower pv) (map lower s) ps k
    = map lower_piece (scan r pv s ps k).
Proof.
  intros B. induction s as [|c s IH]; intros pv ps k; cbn [scan map].
  - pose proof (match_here_lower r pv [] ps B) as E. cbn [map] in E.
    rewrite E. destruct k; [|reflexivity].
    destruct (match_here r pv [] ps); reflexivity.
  - destruct k as [|k]; [|apply (IH (Some c))].
    pose proof (match_here_lower r pv (c :: s) ps B) as E. cbn [map] in E.
    rewrite E.
    destruct (match_here r pv (c :: s) ps) as [m|]; cbn [option_map].
    + change (m_len (lower_mtch m)) with (m_len m).
      destruct (m_len m); cbn [map lower_piece].
      * now rewrite push_lower, <- (IH (Some c)).
      * now rewrite <- (IH (Some c)).
    + now rewrite push_lower, <- (IH (Some c)).
Qed.

Lemma finditer_lower (r : re) (s : text) :
  re_case_blind r ->
  finditer r (map lower s) = map lower_mtch (finditer r s).
Proof.
  intros B. unfold finditer, pieces.
  pose proof (scan_lower r s B None 0 0) as E. cbn [option_map] in E.
  rewrite E. clear E.
  induction (scan r None s 0 0) as [|[w|m] l IH]; cbn; [reflexivity|exact IH|].
  now rewrite IH.
Qed.

Lemma split_lower (r : re) (s : text) :
  re_case_blind r ->
  split r (map lower s) = map (map lower) (split r s).
Proof.
  intros B. unfold split, pieces.
  pose proof (scan_lower r s B None 0 0) as E. cbn [option_map] in E.
  rewrite E. clear E.
  induction (scan r None s 0 0) as [|[w|m] l IH]; cbn; [reflexivity| |exact IH].
  now rewrite IH.
Qed.

Lemma sub_lower (r : re) (repl s : text) :
  re_case_blind r -> map lower repl = repl ->
  sub r repl (map lower s) = map lower (sub r repl s).
Proof.
  intros B Hr. unfold sub, pieces.
  pose proof (scan_lower r s B None 0 0) as E. cbn [option_map] in E.
  rewrite E. clear E.
  induction (scan r None s 0 0) as [|[w|m] l IH]; cbn; [reflexivity| |].
  - now rewrite map_app, IH.
  - now rewrite map_app, IH, Hr.
Qed.

Lemma group_lower (m : mtch) (k : nat) :
  group (lower_mtch m) k = option_map (map lower) (group m k).
Proof.
  unfold group, lower_mtch. cbn [m_caps].
  induction (m_caps m) as [|[n w] cs IH]; cbn; [reflexivity|].
  destruct (Nat.eqb n k); [reflexivity|exact IH].
Qed.

End Case.

(** ** Letter case and the program *)

Section CaseProgram.

Local Open Scope nat_scope.

Create HintDb blind discriminated.

#[local] Hint Resolve lit_i_blind is_char_i_blind is_az_i_blind
  is_space_blind is_dec_blind is_dot_blind dash_space_blind sep_blind
  : blind.

Ltac blind_re :=
  unfold days_re; unfold star, plus, upto, ch; cbn [re_case_blind];
  repeat match goal with |- _ /\ _ => split end;
  auto with blind.

Lemma ws_re_blind : re_case_blind ws_re.
Proof. unfold ws_re. blind_re. Qed.

Lemma sep_re_blind : re_case_blind sep_re.
Proof. unfold sep_re. blind_re. Qed.

Lemma kw_re_blind : re_case_blind kw_re.
Proof. unfold kw_re. blind_re. Qed.

Lemma net_re_blind : re_case_blind net_re.
Proof. unfold net_re. blind_re. Qed.

Lemma due_re_blind : re_case_blind due_re.
Proof. unfold due_re. blind_re. Qed.

Lemma past_re_blind : re_case_blind past_re.
Proof. unfold past_re. blind_re. Qed.

Lemma explicit_two_blind : re_case_blind EXPLICIT_TWO.
Proof. unfold EXPLICIT_TWO. blind_re. Qed.

Lemma noa_re_blind : re_case_blind noa_re.
Proof. unfold noa_re. blind_re. Qed.

Lemma rev_capital_re_blind : re_case_blind rev_capital_re.
Proof. unfold rev_capital_re. blind_re. Qed.

Lemma nonsolicit_re_blind : re_case_blind nonsolicit_re.
Proof. unfold nonsolicit_re. blind_re. Qed.

Lemma conversions_re_blind : re_case_blind conversions_re.
Proof. unfold conversions_re. blind_re. Qed.

Lemma indemnity_re_blind : re_case_blind indemnity_re.
Proof. unfold indemnity_re. blind_re. Qed.

Lemma mutual_re_blind : re_case_blind mutual_re.
Proof. unfold mutual_re. blind_re. Qed.

Lemma map_lower_idem (w : text) : map lower (map lower w) = map lower w.
Proof. rewrite map_map. apply map_ext. apply lower_idem. Qed.

Lemma digits_lower_fixed (w : text) :
  forallb is_digit_char w = true -> map lower w = w.
Proof.
  induction w as [|c w IH]; cbn; [reflexivity|].
  intros H. apply andb_true_iff in H. destruct H as [Hc Hw].
  now rewrite (digit_lower_fixed c Hc), IH.
Qed.

Lemma str_isdigit_lower (w : text) : str_isdigit (map lower w) = str_isdigit w.
Proof.
  destruct w as [|c w]; [reflexivity|].
  unfold str_isdigit. cbn [map].
  change (lower c :: map lower w) with (map lower (c :: w)).
  induction (c :: w) as [|a u IH]; cbn; [reflexivity|].
  now rewrite is_digit_char_blind, IH.
Qed.

Lemma word_to_num_lower (x : option text) :
  word_to_num (option_map (map lower) x) = word_to_num x.
Proof.
  destruct x as [[|c w]|]; try reflexivity.
  unfold word_to_num. cbn [option_map map].
  change (lower (lower c) :: map lower (map lower w))
    with (map lower (map lower (c :: w))).
  now rewrite map_lower_idem.
Qed.

Lemma to_num_lower (x : option text) :
  to_num (option_map (map lower) x) = to_num x.
Proof.
  destruct x as [[|c w]|]; try reflexivity.
  unfold to_num. cbn [option_map map].
  change (lower c :: map lower w) with (map lower (c :: w)).
  rewrite str_isdigit_lower.
  destruct (str_isdigit (c :: w)) eqn:E.
  - unfold str_isdigit in E. now rewrite (digits_lower_fixed _ E).
  - apply (word_to_num_lower (Some (c :: w))).
Qed.

Lemma py_or_lower (a b : option text) :
  py_or (option_map (map lower) a) (option_map (map lower) b)
  = option_map (map lower) (py_or a b).
Proof. destruct a as [[|c w]|]; reflexivity. Qed.

Lemma net_pick_lower (m : mtch) : net_pick (lower_mtch m) = net_pick m.
Proof.
  unfold net_pick, net_value.
  now rewrite !group_lower, !py_or_lower, to_num_lower.
Qed.

Lemma due_pick_lower (m : mtch) : due_pick (lower_mtch m) = due_pick m.
Proof.
  unfold due_pick, due_value.
  now rewrite !group_lower, !py_or_lower, to_num_lower.
Qed.

Lemma past_pick_lower (relevant : text) (m : mtch) :
  In m (finditer past_re relevant) -> past_pick (lower_mtch m) = past_pick m.
Proof.
  intros Hin. destruct (past_group_decimal relevant m Hin) as (w & E & Hd & _).
  unfold past_pick. rewrite group_lower, E. cbn [option_map].
  rewrite digits_lower_fixed; [reflexivity|].
  rewrite forallb_forall in *. intros c Hc. apply dec_is_digit. auto.
Qed.

Lemma flat_map_over {A B : Type} (f : A -> list B) (g : A -> A)
    (l : list A) :
  (forall x, In x l -> f (g x) = f x) ->
  flat_map f (map g l) = flat_map f l.
Proof.
  induction l as [|x l IH]; cbn; [reflexivity|].
  intros H. rewrite H by now left. f_equal. apply IH.
  intros y Hy. apply H. now right.
Qed.

Lemma candidates_lower (relevant : text) :
  candidates (map lower relevant) = candidates relevant.
Proof.
  unfold candidates.
  rewrite (finditer_lower _ _ net_re_blind), (finditer_lower _ _ due_re_blind),
    (finditer_lower _ _ past_re_blind).
  rewrite (flat_map_over net_pick), (flat_map_over due_pick),
    (flat_map_over past_pick); auto using net_pick_lower, due_pick_lower.
  intros m Hin. now apply past_pick_lower with relevant.
Qed.

Lemma join_lower (sep : text) (l : list text) :
  join (map lower sep) (map (map lower) l) = map lower (join sep l).
Proof.
  induction l as [|w l IH]; [reflexivity|].
  destruct l as [|w' l]; [reflexivity|].
  cbn [map join] in *. now rewrite IH, !map_app.
Qed.

Lemma filter_found_lower (r : re) (l : list text) :
  re_case_blind r ->
  filter (found r) (map (map lower) l) = map (map lower) (filter (found r) l).
Proof.
  intros B. induction l as [|w l IH]; cbn; [reflexivity|].
  rewrite (found_lower r w B). destruct (found r w); cbn; now rewrite IH.
Qed.

Lemma relevant_text_lower (t : text) :
  relevant_text (map lower t) = map lower (relevant_text t).
Proof.
  unfold relevant_text.
  rewrite (split_lower _ _ sep_re_blind), (filter_found_lower _ _ kw_re_blind).
  apply (join_lower (txt ". ")).
Qed.

Lemma find_payment_days_lower (t : text) :
  find_payment_days (map lower t) = find_payment_days t.
Proof.
  unfold find_payment_days. cbv zeta.
  rewrite relevant_text_lower, candidates_lower.
  unfold resolve. now rewrite (found_lower _ _ explicit_two_blind).
Qed.

Lemma find_indemnity_lower (t : text) :
  find_indemnity (map lower t) = find_indemnity t.
Proof.
  unfold find_indemnity. rewrite (search_lower _ _ indemnity_re_blind).
  destruct (search indemnity_re t) as [m|]; [|reflexivity].
  cbn [option_map lower_mtch m_text].
  now rewrite (found_lower _ _ mutual_re_blind).
Qed.

Lemma find_noa_lower (t : text) : find_noa (map lower t) = find_noa t.
Proof.
  unfold find_noa.
  now rewrite (found_lower _ _ noa_re_blind),
    (found_lower _ _ rev_capital_re_blind).
Qed.

Lemma find_nonsolicit_lower (t : text) :
  find_nonsolicit (map lower t) = find_nonsolicit t.
Proof. apply (found_lower _ _ nonsolicit_re_blind). Qed.

Lemma find_conversions_lower (t : text) :
  find_conversions (map lower t) = find_conversions t.
Proof. apply (found_lower _ _ conversions_re_blind). Qed.

Lemma lstrip_lower (s : text) : lstrip (map lower s) = map lower (lstrip s).
Proof.
  induction s as [|c s IH]; [reflexivity|]. cbn [map lstrip].
  rewrite is_space_blind. destruct (is_space c); [exact IH|reflexivity].
Qed.

Lemma strip_lower (s : text) : strip (map lower s) = map lower (strip s).
Proof.
  unfold strip, rstrip.
  now rewrite lstrip_lower, <- map_rev, lstrip_lower, map_rev.
Qed.

Lemma clean_lower (s : text) : clean (map lower s) = map lower (clean s).
Proof.
  unfold clean.
  rewrite (sub_lower _ _ _ ws_re_blind) by reflexivity.
  apply strip_lower.
Qed.

Lemma analyze_lower (t : text) : analyze (map lower t) = analyze t.
Proof.
  unfold analyze. cbv zeta. rewrite clean_lower.
  destruct (clean t) as [|c s]; [reflexivity|].
  change (map lower (c :: s)) with (lower c :: map lower s) at 1.
  cbv iota. change (lower c :: map lower s) with (map lower (c :: s)).
  now rewrite find_payment_days_lower, find_noa_lower, find_nonsolicit_lower,
    find_conversions_lower, find_indemnity_lower.
Qed.

End CaseProgram.

(** ** Sentences and the relevant text *)

Section Sentences.

Local Open Scope nat_scope.

Lemma greedy_first (p : ascii -> bool) (s : text) :
  forall lo pv ps cs,
    lo <= 1 -> (lo = 1 -> leading p s <> 0) ->
    exists st' tl,
      greedy p lo None pv s ps cs = st' :: tl
      /\ pos st' = ps + leading p s.
Proof.
  induction s as [|c s IH]; intros lo pv ps cs Hlo Hs; cbn [greedy].
  - destruct lo as [|lo].
    + eexists _, _. split; [reflexivity|]. cbn. lia.
    + assert (S lo = 1) as E by lia. apply Hs in E. now cbn in E.
  - cbn [leading more dec_hi] in *. destruct (p c) eqn:Pc; cbn [andb].
    + destruct (IH (Nat.pred lo) (Some c) (S ps) cs) as (st' & tl & E & Hp).
      * lia.
      * intros E. destruct lo as [|[|lo]]; cbn in E; lia.
      * rewrite E. eexists _, _. split; [reflexivity|]. lia.
    + destruct lo as [|lo].
      * eexists _, _. split; [reflexivity|]. cbn. lia.
      * assert (S lo = 1) as E by lia. now apply Hs in E.
Qed.

(** Where a character of the class stands [p+] takes the whole run;
    elsewhere it does not match. *)
Lemma plus_match_here (p : ascii -> bool) (pv : option ascii) (s : text)
    (ps : nat) :
  match match_here (plus p) pv s ps with
  | Some m => leading p s <> 0 /\ m_len m = leading p s
  | None => leading p s = 0
  end.
Proof.
  unfold match_here, plus. cbn [run prev rest pos caps].
  destruct (leading p s) as [|n] eqn:El.
  - destruct s as [|c s]; [reflexivity|].
    cbn in El. cbn. destruct (p c); [discriminate|reflexivity].
  - destruct (greedy_first p s 1 pv ps []) as (st' & tl & E & Hp);
      [lia|intros _; now rewrite El|].
    rewrite E. unfold m_len. cbn [m_end m_start]. rewrite El in Hp.
    split; [discriminate|lia].
Qed.

Lemma scan_head (r : re) (s : text) :
  forall pv ps k, exists w tl, scan r pv s ps k = Chunk w :: tl.
Proof.
  induction s as [|c s IH]; intros pv ps k; cbn [scan].
  - destruct k; [destruct (match_here r pv [] ps)|]; eauto.
  - destruct k as [|k]; [|apply IH].
    destruct (match_here r pv (c :: s) ps) as [m|].
    + destruct (m_len m); eauto.
    + destruct (IH (Some c) (S ps) 0) as (w & tl & ->). cbn. eauto.
Qed.

Lemma nonnil_rev (cur : text) : nonnil (rev cur) = nonnil cur.
Proof.
  destruct cur as [|c cur]; [reflexivity|]. cbn.
  destruct (rev cur); reflexivity.
Qed.

Lemma filter_glue_nil (cur : text) (l : list text) :
  filter nonnil (glue cur ([] :: l)) = emit cur ++ filter nonnil l.
Proof.
  cbn [glue filter]. rewrite app_nil_r, nonnil_rev.
  destruct cur; reflexivity.
Qed.

(** The non-empty chunks [re.split] cuts at runs of a class are the
    tokens of the single pass. *)
Lemma scan_tokens (p : ascii -> bool) (s : text) :
  forall pv ps cur,
    filter nonnil (glue cur (flat_map chunk_of (scan (plus p) pv s ps 0)))
      = tokens_from p cur s
    /\ filter nonnil
         (flat_map chunk_of (scan (plus p) pv s ps (leading p s)))
      = tokens_from p [] s.
Proof.
  induction s as [|c s IH]; intros pv ps cur.
  - cbn [leading scan tokens_from].
    pose proof (plus_match_here p pv [] ps) as H.
    destruct (match_here (plus p) pv [] ps); [destruct H as [H _]; now cbn in H|].
    cbn [flat_map chunk_of app]. split; [|reflexivity].
    pose proof (filter_glue_nil cur []) as E. rewrite app_nil_r in E. exact E.
  - pose proof (plus_match_here p pv (c :: s) ps) as H.
    cbn [leading tokens_from] in *. destruct (p c) eqn:Pc.
    + cbn [scan]. destruct (IH (Some c) (S ps) []) as [_ IB].
      split; [|exact IB].
      destruct (match_here (plus p) pv (c :: s) ps) as [m|]; [|discriminate].
      destruct H as [_ ->]. cbn [flat_map chunk_of app].
      now rewrite filter_glue_nil, IB.
    + cbn [scan].
      destruct (match_here (plus p) pv (c :: s) ps) as [m|];
        [destruct H as [H _]; congruence|].
      assert (A : forall cur',
                 filter nonnil
                   (glue cur'
                      (flat_map chunk_of
                         (push c (scan (plus p) (Some c) s (S ps) 0))))
                 = tokens_from p (c :: cur') s).
      { intros cur'. destruct (IH (Some c) (S ps) (c :: cur')) as [IA _].
        rewrite <- IA.
        destruct (scan_head (plus p) s (Some c) (S ps) 0) as (w & tl & ->).
        cbn [push flat_map chunk_of app glue rev].
        now rewrite <- app_assoc. }
      split; [apply A|].
      rewrite <- (A []).
      destruct (scan_head (plus p) s (Some c) (S ps) 0) as (w & tl & ->).
      reflexivity.
Qed.

Lemma split_tokens (p : ascii -> bool) (s : text) :
  filter nonnil (split (plus p) s) = tokens_from p [] s.
Proof.
  unfold split, pieces.
  destruct (scan_tokens p s None 0 []) as [A _].
  rewrite <- A.
  destruct (scan_head (plus p) s None 0 0) as (w & tl & ->).
  reflexivity.
Qed.

Lemma filter_nonnil (P : text -> bool) (l : list text) :
  P [] = false -> filter P (filter nonnil l) = filter P l.
Proof.
  intros H. induction l as [|w l IH]; cbn; [reflexivity|].
  destruct w as [|c w]; cbn; [now rewrite H|]. now rewrite IH.
Qed.

(** The relevant text: the sentences that hold a keyword, joined. *)
Lemma relevant_text_sentences (t : text) :
  relevant_text t = join (txt ". ") (filter (found kw_re) (sentences t)).
Proof.
  unfold relevant_text, sentences.
  change sep_re with (plus is_sep).
  rewrite <- (split_tokens is_sep t), filter_nonnil; reflexivity.
Qed.

Lemma tokens_from_app (p : ascii -> bool) (t1 : text) (c : ascii)
    (t2 : text) :
  p c = true ->
  forall cur,
    tokens_from p cur (t1 ++ c :: t2)
    = tokens_from p cur t1 ++ tokens_from p [] t2.
Proof.
  intros Pc. induction t1 as [|a t1 IH]; intros cur; cbn [app tokens_from].
  - now rewrite Pc.
  - destruct (p a); [|apply IH]. now rewrite IH, app_assoc.
Qed.

Lemma sentences_app (t1 : text) (c : ascii) (t2 : text) :
  is_sep c = true -> sentences (t1 ++ c :: t2) = sentences t1 ++ sentences t2.
Proof. intros H. now apply tokens_from_app. Qed.

(** A token is a stretch of the text. *)
Lemma tokens_from_inside (p : ascii -> bool) (s : text) :
  forall cur f,
    In f (tokens_from p cur s) -> exists a b, rev cur ++ s = a ++ f ++ b.
Proof.
  assert (E : forall cur f (s : text),
             In f (emit cur) -> exists a b, rev cur ++ s = a ++ f ++ b).
  { intros cur f s0 H. destruct cur as [|c cur]; [destruct H|].
    destruct H as [<-|[]]. now exists [], s0. }
  induction s as [|c s IH]; intros cur f; cbn [tokens_from].
  - apply E.
  - destruct (p c).
    + rewrite in_app_iff. intros [H|H]; [now apply E|].
      apply IH in H. destruct H as (a & b & Hs). cbn in Hs.
      exists (rev cur ++ c :: a), b. rewrite Hs. now rewrite <- app_assoc.
    + intros H. apply IH in H. destruct H as (a & b & Hs).
      exists a, b. rewrite <- Hs. cbn [rev]. now rewrite <- app_assoc.
Qed.

(** A pattern without [\b] found in a stretch of a text is found in
    the text. *)
Lemma found_inside (r : re) (a t b : text) :
  wb_free r = true -> found r t = true -> found r (a ++ t ++ b) = true.
Proof.
  intros F H. apply found_iff_occurs in H. apply found_iff_occurs.
  destruct H as (a' & w & b' & -> & L).
  exists (a ++ a'), w, (b' ++ b). split.
  - now rewrite <- !app_assoc.
  - eapply lang_wb_free; eauto.
Qed.

Lemma no_keyword_no_sentence (t : text) :
  found kw_re t = false -> filter (found kw_re) (sentences t) = [].
Proof.
  intros H. unfold sentences.
  assert (A : forall f, In f (tokens_from is_sep [] t) -> found kw_re f = false).
  { intros f Hf. apply tokens_from_inside in Hf.
    destruct Hf as (a & b & E). cbn in E.
    destruct (found kw_re f) eqn:Ef; [|reflexivity].
    rewrite E in H. rewrite found_inside in H; [discriminate|reflexivity|exact Ef]. }
  induction (tokens_from is_sep [] t) as [|f l IH]; [reflexivity|].
  cbn. rewrite (A f) by now left. apply IH. intros g Hg. apply A. now right.
Qed.

Lemma relevant_text_skip_left (t1 : text) (c : ascii) (t2 : text) :
  is_sep c = true -> found kw_re t1 = false ->
  relevant_text (t1 ++ c :: t2) = relevant_text t2.
Proof.
  intros Hc H. rewrite !relevant_text_sentences, sentences_app by exact Hc.
  now rewrite filter_app, no_keyword_no_sentence.
Qed.

Lemma relevant_text_skip_right (t1 : text) (c : ascii) (t2 : text) :
  is_sep c = true -> found kw_re t2 = false ->
  relevant_text (t1 ++ c :: t2) = relevant_text t1.
Proof.
  intros Hc H. rewrite !relevant_text_sentences, sentences_app by exact Hc.
  now rewrite filter_app, (no_keyword_no_sentence t2), app_nil_r.
Qed.

Lemma relevant_text_no_keyword (t : text) :
  found kw_re t = false -> relevant_text t = [].
Proof.
  intros H. now rewrite relevant_text_sentences, no_keyword_no_sentence.
Qed.

End Sentences.

Lemma tokens_from_shape (p : ascii -> bool) (s : text) :
  forall cur f,
    forallb (fun c => negb (p c)) cur = true ->
    In f (tokens_from p cur s) ->
    f <> [] /\ forallb (fun c => negb (p c)) f = true.
Proof.
  assert (E : forall cur f,
             forallb (fun c => negb (p c)) cur = true -> In f (emit cur) ->
             f <> [] /\ forallb (fun c => negb (p c)) f = true).
  { intros cur f Hc H. destruct cur as [|c cur]; [destruct H|].
    destruct H as [<-|[]]. split.
    - cbn. destruct (rev cur); discriminate.
    - rewrite forallb_forall in *. intros x Hx. apply Hc. now apply in_rev. }
  induction s as [|c s IH]; intros cur f Hc; cbn [tokens_from].
  - now apply E.
  - destruct (p c) eqn:Pc.
    + rewrite in_app_iff. intros [H|H]; [now apply (E cur)|].
      now apply (IH []).
    + apply IH. cbn. now rewrite Pc.
Qed.

(** ** The detectors and their surroundings *)

Section Detectors.

Local Open Scope nat_scope.

Lemma last_char_cons (pv : option ascii) (c : ascii) (w : text) :
  last_char pv (c :: w) = last_char (Some c) w.
Proof. reflexivity. Qed.

Lemma last_char_word (pv pv' : option ascii) (w : text) :
  word_opt pv = word_opt pv' ->
  word_opt (last_char pv w) = word_opt (last_char pv' w).
Proof. destruct w as [|c w]; [auto|]. intros _. now rewrite !last_char_cons. Qed.

Lemma hd_app_word (w after after' : text) :
  word_opt (hd_error after) = word_opt (hd_error after') ->
  word_opt (hd_error (w ++ after)) = word_opt (hd_error (w ++ after')).
Proof. destruct w; auto. Qed.

(** A match depends on its surroundings only through the two
    characters next to it, and on these only as word characters or
    not. *)
Lemma lang_context (r : re) :
  forall pv w after pv' after',
    word_opt pv = word_opt pv' ->
    word_opt (hd_error after) = word_opt (hd_error after') ->
    lang r pv w after -> lang r pv' w after'.
Proof.
  induction r as [|p|p lo hi|r1 IH1 r2 IH2|r1 IH1 r2 IH2|r1 IH1|n r1 IH1|];
    cbn [lang]; intros pv w after pv' after' Hp Ha; auto.
  - intros (w1 & w2 & -> & L1 & L2). exists w1, w2.
    split; [reflexivity|]. split.
    + eapply IH1; [exact Hp|apply hd_app_word; exact Ha|exact L1].
    + eapply IH2; [apply last_char_word; exact Hp|exact Ha|exact L2].
  - intros [L|L]; [left; eapply IH1|right; eapply IH2]; eauto.
  - intros [L|L]; [left; eapply IH1; eauto|now right].
  - eapply IH1; eauto.
  - intros [-> B]. split; [reflexivity|]. now rewrite <- Hp, <- Ha.
Qed.

(** What is found in a text is found when more text follows a
    character that is not a word character, and when it comes after
    one. *)
Lemma found_before_break (r : re) (t1 : text) (c : ascii) (t2 : text) :
  is_word c = false -> found r t1 = true -> found r (t1 ++ c :: t2) = true.
Proof.
  intros Hc H. apply found_iff_occurs in H. apply found_iff_occurs.
  destruct H as (a & w & b & -> & L).
  exists a, w, (b ++ c :: t2). split; [now rewrite <- !app_assoc|].
  eapply lang_context; [reflexivity| |exact L].
  destruct b; cbn; [now rewrite Hc|reflexivity].
Qed.

Lemma found_after_break (r : re) (t1 : text) (c : ascii) (t2 : text) :
  is_word c = false -> found r t2 = true -> found r (t1 ++ c :: t2) = true.
Proof.
  intros Hc H. apply found_iff_occurs in H. apply found_iff_occurs.
  destruct H as (a & w & b & -> & L).
  exists (t1 ++ c :: a), w, b. split; [now rewrite <- app_assoc|].
  eapply lang_context; [|reflexivity|exact L].
  rewrite last_char_app, last_char_cons.
  destruct a as [|x a]; cbn; [now rewrite Hc|reflexivity].
Qed.

Lemma occurs_phrase (r : re) (a w b : text) :
  wb_free r = true -> lang r None w [] -> found r (a ++ w ++ b) = true.
Proof.
  intros F L. apply found_iff_occurs. exists a, w, b.
  split; [reflexivity|]. eapply lang_wb_free; eauto.
Qed.

(** "conversion", a run of whitespace and "fee", in any case. *)
Lemma conversion_fee_lang (w1 sp w2 : text) :
  map lower w1 = txt "conversion" -> sp <> [] -> forallb is_space sp = true ->
  map lower w2 = txt "fee" ->
  lang nonsolicit_re None (w1 ++ sp ++ w2) [].
Proof.
  intros H1 Hs Hsp H2. unfold nonsolicit_re. cbn [lang].
  do 4 right. exists w1, (sp ++ w2). split; [reflexivity|]. split.
  - now apply lang_lit_i.
  - exists sp, w2. split; [reflexivity|]. split.
    + unfold plus. cbn [lang within]. repeat split; auto.
      destruct sp; [congruence|cbn; lia].
    + now apply lang_lit_i.
Qed.

Lemma conversion_lang (w : text) :
  map lower w = txt "conversion" -> lang conversions_re None w [].
Proof.
  intros H. unfold conversions_re. cbn [lang]. left. now apply lang_lit_i.
Qed.

End Detectors.

(** ** The parenthesised digits of the "net" pattern *)

Section NetGroups.

Local Open Scope nat_scope.

Lemma run_group_free (r : re) :
  group_free r = true ->
  forall st st', In st' (run r st) -> caps st' = caps st.
Proof.
  induction r as [|p|p lo hi|r1 IH1 r2 IH2|r1 IH1 r2 IH2|r1 IH1|n r1 IH1|];
    cbn [group_free]; intros G st st'; cbn [run]; try discriminate.
  - intros [<-|[]]. reflexivity.
  - destruct (rest st) as [|c s]; [intros []|].
    destruct (p c); [|intros []]. intros [<-|[]]. reflexivity.
  - intros H. apply greedy_sound in H. now destruct H as (w & _ & _ & _ & Hc & _).
  - apply andb_true_iff in G. destruct G as [G1 G2].
    rewrite in_flat_map. intros (mid & H1 & H2).
    rewrite (IH2 G2 _ _ H2). now apply IH1.
  - apply andb_true_iff in G. destruct G as [G1 G2].
    rewrite in_app_iff. intros [H|H]; auto.
  - rewrite in_app_iff. intros [H|[<-|[]]]; auto.
  - destruct (at_boundary st); [|intros []]. intros [<-|[]]. reflexivity.
Qed.

Lemma last_char_snoc (pv : option ascii) (w : text) (c : ascii) :
  last_char pv (w ++ [c]) = Some c.
Proof. now rewrite last_char_app. Qed.

Lemma close_paren_not_word (c : ascii) :
  is_char_i ")" c = true -> is_word c = false.
Proof. destruct c as [[] [] [] [] [] [] [] []]; vm_compute; congruence. Qed.

(** Every match [finditer] yields is the first match at its own
    position of the subject. *)
Lemma scan_hits_at (r : re) (s : text) :
  forall pv ps k m,
    In (Hit m) (scan r pv s ps k) ->
    exists a s',
      s = a ++ s'
      /\ match_here r (last_char pv a) s' (ps + List.length a) = Some m.
Proof.
  assert (Step : forall c (s0 : text) pv ps m,
             (exists a s',
                s0 = a ++ s'
                /\ match_here r (last_char (Some c) a) s'
                     (S ps + List.length a) = Some m) ->
             exists a s',
               c :: s0 = a ++ s'
               /\ match_here r (last_char pv a) s' (ps + List.length a)
                  = Some m).
  { intros c s0 pv ps m (a & s' & -> & H). exists (c :: a), s'.
    split; [reflexivity|]. cbn [List.length].
    replace (ps + S (List.length a)) with (S ps + List.length a) by lia.
    exact H. }
  assert (Here : forall (s0 : text) pv ps m,
             match_here r pv s0 ps = Some m ->
             exists a s',
               s0 = a ++ s'
               /\ match_here r (last_char pv a) s' (ps + List.length a)
                  = Some m).
  { intros s0 pv ps m H. exists [], s0. cbn. now rewrite Nat.add_0_r. }
  induction s as [|c s IH]; intros pv ps k m; cbn [scan].
  - destruct k.
    + destruct (match_here r pv [] ps) as [m'|] eqn:E.
      * intros [H|[H|[H|[]]]]; try discriminate.
        injection H as <-. now apply Here.
      * intros [H|[]]. discriminate.
    + intros [H|[]]. discriminate.
  - destruct k as [|k]; [|intros H; apply Step; eapply IH; eauto].
    destruct (match_here r pv (c :: s) ps) as [m'|] eqn:E.
    + destruct (m_len m').
      * intros [H|[H|H]]; try discriminate.
        -- injection H as <-. now apply Here.
        -- apply in_push in H. apply Step. eapply IH; eauto.
      * intros [H|[H|H]]; try discriminate.
        -- injection H as <-. now apply Here.
        -- apply Step. eapply IH; eauto.
    + intros H. apply in_push in H. apply Step. eapply IH; eauto.
Qed.

Lemma finditer_hits_at (r : re) (s : text) (m : mtch) :
  In m (finditer r s) ->
  exists a s',
    s = a ++ s' /\ match_here r (last_char None a) s' (List.length a) = Some m.
Proof.
  unfold finditer, pieces. rewrite in_flat_map.
  intros ([w|m'] & Hin & H); [destruct H|].
  destruct H as [<-|[]]. apply scan_hits_at in Hin. exact Hin.
Qed.

Lemma in_run_seq (r1 r2 : re) (st st' : cursor) :
  In st' (run (Seq r1 r2) st) ->
  exists mid, In mid (run r1 st) /\ In st' (run r2 mid).
Proof. cbn [run]. now rewrite in_flat_map. Qed.

Lemma in_run_alt (r1 r2 : re) (st st' : cursor) :
  In st' (run (Alt r1 r2) st) -> In st' (run r1 st) \/ In st' (run r2 st).
Proof. cbn [run]. now rewrite in_app_iff. Qed.

Lemma in_run_grp (n : nat) (r1 : re) (st st' : cursor) :
  In st' (run (Grp n r1) st) ->
  exists x,
    In x (run r1 st) /\ prev st' = prev x /\ rest st' = rest x
    /\ pos st' = pos x /\ exists w, caps st' = (n, w) :: caps x.
Proof.
  cbn [run]. rewrite in_map_iff. intros (x & <- & Hx).
  exists x. cbn. eauto 8.
Qed.

Lemma in_run_wb (st st' : cursor) :
  In st' (run Wb st) -> st' = st /\ at_boundary st = true.
Proof.
  cbn [run]. destruct (at_boundary st); [|intros []].
  intros [<-|[]]. auto.
Qed.

(** In a match of the "net" pattern group 4 is set only when a word
    character follows the closing parenthesis at once. *)
Lemma net_group4_needs_word (relevant : text) (m : mtch) :
  In m (finditer net_re relevant) -> group m 4 <> None ->
  exists c, nth_error relevant (m_end m) = Some c /\ is_word c = true.
Proof.
  intros Hin Hg. apply finditer_hits_at in Hin.
  destruct Hin as (a & s' & Hs & Hm).
  unfold match_here in Hm.
  destruct (run net_re (Cursor (last_char None a) s' (List.length a) []))
    as [|st' tl] eqn:E; [discriminate|].
  injection Hm as <-. unfold group in Hg. cbn [m_caps m_end] in *.
  assert (Hrun : In st' (run net_re
                           (Cursor (last_char None a) s' (List.length a) [])))
    by (rewrite E; now left).
  clear E. pose proof (run_sound _ _ _ Hrun) as (wf & (Hrs & Hps & _) & _).
  cbn [rest pos] in Hrs, Hps.
  unfold net_re in Hrun.
  apply in_run_seq in Hrun. destruct Hrun as (s1 & H1 & Hrun).
  apply in_run_seq in Hrun. destruct Hrun as (s2 & H2 & Hrun).
  apply in_run_seq in Hrun. destruct Hrun as (s3 & H3 & Hrun).
  apply in_run_seq in Hrun. destruct Hrun as (s4 & H4 & Hrun).
  apply in_run_wb in H1. destruct H1 as [-> _].
  apply (run_group_free (lit_i "net") eq_refl) in H2. cbn [caps] in H2.
  apply (run_group_free (Opt (Chr dash_space)) eq_refl) in H3.
  rewrite H2 in H3.
  apply in_run_wb in Hrun. destruct Hrun as [-> B].
  apply in_run_grp in H4.
  destruct H4 as (x & Hx & Hv4 & Hr4 & _ & w1 & Hc4).
  rewrite Hc4 in Hg. cbn [lookup Nat.eqb] in Hg.
  apply in_run_alt in Hx. destruct Hx as [Hx|Hx].
  { apply in_run_grp in Hx. destruct Hx as (y & Hy & _ & _ & _ & w2 & Hc).
    apply (run_group_free (upto 1 3 is_dec) eq_refl) in Hy.
    rewrite Hc, Hy, H3 in Hg. now cbn in Hg. }
  apply in_run_alt in Hx. destruct Hx as [Hx|Hx].
  2:{ apply in_run_grp in Hx. destruct Hx as (y & Hy & _ & _ & _ & w2 & Hc).
      apply (run_group_free (plus is_az_i) eq_refl) in Hy.
      rewrite Hc, Hy, H3 in Hg. now cbn in Hg. }
  clear Hg.
  apply run_sound in Hx. destruct Hx as (w & (_ & _ & Hv) & L).
  cbn [lang] in L.
  destruct L as (u1 & r1 & -> & _ & u2 & r2 & -> & _ & u3 & r3 & -> & _
                 & u4 & r4 & -> & _ & u5 & r5 & -> & _ & u6 & r6 & -> & _
                 & c7 & -> & P7).
  rewrite !app_assoc, last_char_snoc in Hv.
  apply close_paren_not_word in P7.
  unfold at_boundary in B. rewrite Hv4, Hr4, Hv in B.
  cbn [word_opt] in B. rewrite P7 in B. cbn [xorb] in B.
  rewrite Hr4 in Hrs.
  destruct (rest x) as [|c tl'] eqn:Er; [discriminate|].
  cbn [hd_error word_opt] in B.
  exists c. split; [|exact B].
  rewrite Hs, Hrs, Hps, app_assoc.
  rewrite nth_error_app2 by (rewrite length_app; lia).
  rewrite length_app, Nat.sub_diag. reflexivity.
Qed.

End NetGroups.



(** ** The candidate order *)

Lemma key_le_spec (a b : pick) : key_le a b = true <-> key_before a b.
Proof.
  unfold key_le, key_before, sort_key; cbn [fst snd].
  rewrite orb_true_iff, andb_true_iff, Z.ltb_lt, Z.eqb_eq, Z.leb_le.
  lia.
Qed.

Lemma key_le_total (a b : pick) : key_le a b = false -> key_le b a = true.
Proof.
  intros H. apply key_le_spec.
  destruct (key_le a b) eqn:E; [discriminate|].
  assert (N : ~ key_before a b) by (rewrite <- key_le_spec; congruence).
  unfold key_before in *. lia.
Qed.

Lemma key_before_trans (a b c : pick) :
  key_before a b -> key_before b c -> key_before a c.
Proof. unfold key_before. lia. Qed.

Lemma insert_perm (x : pick) (l : list pick) : Permutation (x :: l) (insert x l).
Proof.
  induction l as [|y l IH]; cbn.
  - reflexivity.
  - destruct (key_le x y).
    + reflexivity.
    + rewrite perm_swap. now constructor.
Qed.

Lemma sort_picks_perm (l : list pick) : Permutation l (sort_picks l).
Proof.
  induction l as [|x l IH]; cbn.
  - constructor.
  - rewrite <- insert_perm. now constructor.
Qed.

Lemma insert_sorted (x : pick) (l : list pick) :
  StronglySorted key_before l -> StronglySorted key_before (insert x l).
Proof.
  induction 1 as [|y l Hs IH Hall]; cbn.
  - repeat constructor.
  - destruct (key_le x y) eqn:E.
    + apply key_le_spec in E.
      constructor; [now constructor|].
      constructor; [exact E|].
      eapply Forall_impl; [|exact Hall].
      intros c Hc. eapply key_before_trans; eauto.
    + apply key_le_total, key_le_spec in E.
      constructor; [exact IH|].
      eapply Permutation_Forall; [apply insert_perm|].
      now constructor.
Qed.

Lemma sort_picks_sorted (l : list pick) : StronglySorted key_before (sort_picks l).
Proof.
  induction l as [|x l IH]; cbn.
  - constructor.
  - now apply insert_sorted.
Qed.

(** The head of the sorted list is a candidate that comes before every
    candidate. *)
Lemma winner_first (l : list pick) (w : pick) (tl : list pick) :
  sort_picks l = w :: tl ->
  In w l /\ forall c, In c l -> key_before w c.
Proof.
  intros E. split.
  - eapply Permutation_in; [symmetry; apply sort_picks_perm|].
    rewrite E. now left.
  - intros c Hc.
    pose proof (sort_picks_sorted l) as Hs. rewrite E in Hs.
    apply (Permutation_in _ (sort_picks_perm l)) in Hc.
    rewrite E in Hc. destruct Hc as [<-|Hc].
    + unfold key_before. lia.
    + inversion Hs as [|? ? _ Hall]; subst.
      rewrite Forall_forall in Hall. now apply Hall.
Qed.

Lemma sort_picks_nonempty (l : list pick) :
  l <> [] -> exists w tl, sort_picks l = w :: tl.
Proof.
  intros Hl. destruct (sort_picks l) as [|w tl] eqn:E.
  - pose proof (sort_picks_perm l) as P. rewrite E in P.
    apply Permutation_sym, Permutation_nil in P. contradiction.
  - eauto.
Qed.

(** ** The candidates of a text *)

Lemma in_window_spec (n : Z) : in_window n = true <-> 5 <= n <= 365.
Proof. unfold in_window. rewrite andb_true_iff, !Z.leb_le. tauto. Qed.

Lemma rank_range (hi : Z) (n : option Z) (c : pick) :
  In c (rank hi n) ->
  c = (2, 3) \/ (5 <= fst c <= 365 /\ snd c = hi /\ n = Some (fst c)).
Proof.
  unfold rank. destruct n as [n|]; [|intros []].
  destruct (n =? 2) eqn:E2.
  - intros [<-|[]]. now left.
  - destruct (in_window n) eqn:W; [|intros []].
    apply in_window_spec in W.
    intros [<-|[]]. right. cbn. auto.
Qed.

Lemma past_pick_range (m : mtch) (c : pick) :
  In c (past_pick m) -> 5 <= fst c <= 365 /\ snd c = 5.
Proof.
  unfold past_pick. destruct (group m 1) as [w|]; [|intros []].
  cbv zeta. destruct (in_window (py_int w)) eqn:W; [|intros []].
  apply in_window_spec in W. intros [<-|[]]. cbn. auto.
Qed.

Lemma candidates_range (relevant : text) (c : pick) :
  In c (candidates relevant) ->
  c = (2, 3) \/ (5 <= fst c <= 365 /\ (snd c = 8 \/ snd c = 7 \/ snd c = 5)).
Proof.
  unfold candidates. rewrite !in_app_iff, !in_flat_map.
  intros [[m [_ H]]|[[m [_ H]]|[m [_ H]]]].
  - apply rank_range in H. intuition.
  - apply rank_range in H. intuition.
  - apply past_pick_range in H. intuition.
Qed.

Lemma resolve_winner (picks : list pick) (relevant : text) (n : Z) :
  resolve picks relevant = Some n ->
  exists w, In w picks /\ fst w = n /\ forall c, In c picks -> key_before w c.
Proof.
  unfold resolve. destruct picks as [|p picks]; [discriminate|].
  destruct (sort_picks (p :: picks)) as [|[v q] tl] eqn:E; [discriminate|].
  apply winner_first in E. destruct E as [Hin Hmin].
  destruct ((v =? 2) && negb (found EXPLICIT_TWO relevant)); [discriminate|].
  intros [= <-]. exists (v, q). auto.
Qed.

Lemma resolve_unfold (picks : list pick) (relevant : text) (w : pick)
    (tl : list pick) :
  sort_picks picks = w :: tl ->
  resolve picks relevant =
    if (fst w =? 2) && negb (found EXPLICIT_TWO relevant)
    then None else Some (fst w).
Proof.
  intros E. unfold resolve. destruct picks as [|p picks].
  - discriminate.
  - rewrite E. destruct w as [v q]. reflexivity.
Qed.

(** The guard of lines 56-57 on a winner of value 2. *)
Lemma guard_on_two (picks : list pick) (relevant : text) (p : Z)
    (tl : list pick) :
  sort_picks picks = (2, p) :: tl ->
  resolve picks relevant =
    if found EXPLICIT_TWO relevant then Some 2 else None.
Proof.
  intros E. rewrite (resolve_unfold _ relevant _ _ E). cbn [fst].
  now destruct (found EXPLICIT_TWO relevant).
Qed.

(** ** The resolver *)

(** C3: an empty candidate list resolves to absent; otherwise the
    winner is the head of the list sorted by descending priority, ties
    broken by ascending duration: a candidate of the list that no other
    candidate precedes, and the resolver answers with its duration
    (unless the two-day guard discards it).  From (30, 8) and (60, 7)
    it picks 30, and a candidate of priority 7 beats one of priority 5
    whatever their durations and their order. *)
Theorem resolver_picks_highest_priority :
  (forall relevant, resolve [] relevant = None) /\
  (forall picks relevant, picks <> [] ->
     exists w tl,
       sort_picks picks = w :: tl /\
       Permutation picks (sort_picks picks) /\
       StronglySorted key_before (sort_picks picks) /\
       In w picks /\
       (forall c, In c picks ->
          snd c < snd w \/ (snd w = snd c /\ fst w <= fst c)) /\
       resolve picks relevant =
         if (fst w =? 2) && negb (found EXPLICIT_TWO relevant)
         then None else Some (fst w)) /\
  (forall relevant, resolve [(30, 8); (60, 7)] relevant = Some 30) /\
  (forall relevant a b, a <> 2 ->
     resolve [(a, 7); (b, 5)] relevant = Some a /\
     resolve [(b, 5); (a, 7)] relevant = Some a) /\
  find_payment_days
    (txt "Invoices are due within 45 days. Accounts past due after 10 days accrue interest.")
    = Some 45 /\
  find_payment_days
    (txt "Accounts past due after 10 days accrue interest. Invoices are due within 45 days.")
    = Some 45.
Proof.
  split; [reflexivity|]. split; [|split; [|split; [|split]]].
  - intros picks relevant Hne.
    destruct (sort_picks_nonempty _ Hne) as (w & tl & E).
    exists w, tl. destruct (winner_first _ _ _ E) as [Hin Hmin].
    split; [exact E|]. split; [apply sort_picks_perm|].
    split; [apply sort_picks_sorted|]. split; [exact Hin|].
    split; [intros c Hc; apply (Hmin c Hc)|].
    now apply resolve_unfold with tl.
  - reflexivity.
  - intros relevant a b Ha.
    apply Z.eqb_neq in Ha.
    unfold resolve, sort_picks, insert, fold_right, key_le, sort_key.
    cbn [fst snd]. cbn. now rewrite Ha.
  - vm_compute. reflexivity.
  - vm_compute. reflexivity.
Qed.

Lemma resolver_picks_highest_priority_witness :
  exists w tl,
    sort_picks [(60, 7); (30, 8)] = w :: tl /\
    Permutation [(60, 7); (30, 8)] (sort_picks [(60, 7); (30, 8)]) /\
    StronglySorted key_before (sort_picks [(60, 7); (30, 8)]) /\
    In w [(60, 7); (30, 8)] /\
    (forall c, In c [(60, 7); (30, 8)] ->
       snd c < snd w \/ (snd w = snd c /\ fst w <= fst c)) /\
    resolve [(60, 7); (30, 8)] [] =
      if (fst w =? 2) && negb (found EXPLICIT_TWO []) then None
      else Some (fst w).
Proof.
  apply (proj1 (proj2 resolver_picks_highest_priority)
               [(60, 7); (30, 8)] []).
  discriminate.
Defined.

(** C9: the extraction returns absent, 2, or a number of days from 5
    to 365, and nothing else; and it does return: every string it hands
    to [int] is a run of one to three decimal digits. *)
Theorem payment_days_absent_two_or_window (t : text) :
  (find_payment_days t = None \/
   exists n, find_payment_days t = Some n /\ (n = 2 \/ 5 <= n <= 365)) /\
  (forall m w,
     In m (finditer net_re (relevant_text t)) ->
     py_or (py_or (group m 2) (group m 4)) (group m 5) = Some w ->
     str_isdigit w = true -> decimal_run w) /\
  (forall m w,
     In m (finditer due_re (relevant_text t)) ->
     py_or (group m 2) (group m 1) = Some w ->
     str_isdigit w = true -> decimal_run w) /\
  (forall m,
     In m (finditer past_re (relevant_text t)) ->
     exists w, group m 1 = Some w /\ decimal_run w).
Proof.
  split; [|split; [|split]].
  - destruct (find_payment_days t) as [n|] eqn:E; [right|now left].
    exists n. split; [reflexivity|].
    unfold find_payment_days in E. cbv zeta in E.
    apply resolve_winner in E. destruct E as (w & Hin & <- & _).
    apply candidates_range in Hin. destruct Hin as [->|[H _]].
    + now left.
    + now right.
  - intros m w. apply net_groups_decimal.
  - intros m w. apply due_groups_decimal.
  - intros m. apply past_group_decimal.
Qed.

Lemma payment_days_absent_two_or_window_witness :
  exists w,
    group (Mtch 0 22 (txt "past due after 10 days") [(1%nat, txt "10")]) 1
      = Some w
    /\ decimal_run w.
Proof.
  apply (proj2 (proj2 (proj2
           (payment_days_absent_two_or_window
              (txt "past due after 10 days"))))).
  vm_compute. left. reflexivity.
Defined.

(** What a resolved number adds: one candidate, from the value. *)
Lemma rank_cases (hi v : Z) :
  (5 <= v <= 365 -> rank hi (Some v) = [(v, hi)]) /\
  (v = 2 -> rank hi (Some v) = [(2, 3)]) /\
  (v = 3 \/ v = 4 \/ 365 < v -> rank hi (Some v) = []).
Proof.
  unfold rank. split; [|split].
  - intros H. destruct (v =? 2) eqn:E; [apply Z.eqb_eq in E; lia|].
    destruct (in_window v) eqn:W; [reflexivity|].
    apply in_window_spec in H. congruence.
  - intros ->. reflexivity.
  - intros H. destruct (v =? 2) eqn:E; [apply Z.eqb_eq in E; lia|].
    destruct (in_window v) eqn:W; [|reflexivity].
    apply in_window_spec in W. lia.
Qed.

Lemma rank_in (hi : Z) (n : option Z) (c : pick) :
  In c (rank hi n) ->
  exists v, n = Some v
            /\ ((5 <= v <= 365 /\ c = (v, hi)) \/ (v = 2 /\ c = (2, 3))).
Proof.
  unfold rank. destruct n as [n|]; [|intros []].
  exists n. split; [reflexivity|].
  destruct (n =? 2) eqn:E2.
  - apply Z.eqb_eq in E2. destruct H as [<-|[]]. now right.
  - destruct (in_window n) eqn:W; [|destruct H].
    apply in_window_spec in W. destruct H as [<-|[]]. now left.
Qed.

(** Digits go through [int], letters through the table. *)
Lemma digits_to_num (ds : text) :
  decimal_run ds ->
  to_num (Some ds) = Some (py_int ds) /\ forall x, py_or (Some ds) x = Some ds.
Proof.
  intros [H L]. destruct ds as [|c w]; [cbn in L; lia|].
  split; [|reflexivity].
  assert (D : str_isdigit (c :: w) = true).
  { unfold str_isdigit. apply forallb_forall. intros x Hx.
    apply dec_is_digit. rewrite forallb_forall in H. now apply H. }
  unfold to_num. now rewrite D.
Qed.

Lemma letters_to_num (w : text) :
  letter_run w ->
  to_num (Some w) = word_to_num (Some w) /\ forall x, py_or (Some w) x = Some w.
Proof.
  intros R. pose proof (letter_run_not_digits w R) as D.
  destruct R as [H L]. destruct w as [|c w]; [cbn in L; lia|].
  split; [|reflexivity]. unfold to_num. now rewrite D.
Qed.

(** ** The pattern families *)

(** C4: what the matches of each family over the relevant text add to
    the candidates.  A match of the "net" pattern resolves to the
    number its digits spell, or to the value of its word, and gives
    the candidate (v, 8) for v from 5 to 365 and (2, 3) for v = 2; a
    match of the "due within" pattern resolves the same way and gives
    priority 7 on the same windows; a match of the "past due" pattern
    always carries a run of digits, read with [int] alone (a number
    word does not match), and gives (v, 5) for v from 5 to 365; any
    other value (3, 4 and above 365 among them) gives nothing.  The
    candidates of the text are exactly the ones produced this way. *)
Theorem family_candidates (relevant : text) :
  (forall m,
     In m (finditer net_re relevant) ->
     (forall ds, group m 2 = Some ds -> net_value m = Some (py_int ds)) /\
     (forall ds, group m 2 = None -> group m 4 = Some ds ->
        net_value m = Some (py_int ds)) /\
     (forall w, group m 2 = None -> group m 4 = None ->
        group m 5 = Some w -> net_value m = word_to_num (Some w)) /\
     (forall v, net_value m = Some v ->
        (5 <= v <= 365 ->
         net_pick m = [(v, 8)] /\ In (v, 8) (candidates relevant)) /\
        (v = 2 ->
         net_pick m = [(2, 3)] /\ In (2, 3) (candidates relevant)) /\
        (v = 3 \/ v = 4 \/ 365 < v -> net_pick m = []))) /\
  (forall m,
     In m (finditer due_re relevant) ->
     (forall ds, group m 2 = Some ds -> due_value m = Some (py_int ds)) /\
     (forall w, group m 2 = None -> group m 1 = Some w ->
        due_value m = word_to_num (Some w)) /\
     (forall v, due_value m = Some v ->
        (5 <= v <= 365 ->
         due_pick m = [(v, 7)] /\ In (v, 7) (candidates relevant)) /\
        (v = 2 ->
         due_pick m = [(2, 3)] /\ In (2, 3) (candidates relevant)) /\
        (v = 3 \/ v = 4 \/ 365 < v -> due_pick m = []))) /\
  (forall m,
     In m (finditer past_re relevant) ->
     exists ds,
       group m 1 = Some ds /\ decimal_run ds /\
       (5 <= py_int ds <= 365 ->
        past_pick m = [(py_int ds, 5)]
        /\ In (py_int ds, 5) (candidates relevant)) /\
       (py_int ds = 2 \/ py_int ds = 3 \/ py_int ds = 4 \/ 365 < py_int ds ->
        past_pick m = [])) /\
  (forall c,
     In c (candidates relevant) ->
     (exists m v,
        In m (finditer net_re relevant) /\ net_value m = Some v
        /\ ((5 <= v <= 365 /\ c = (v, 8)) \/ (v = 2 /\ c = (2, 3))))
     \/ (exists m v,
           In m (finditer due_re relevant) /\ due_value m = Some v
           /\ ((5 <= v <= 365 /\ c = (v, 7)) \/ (v = 2 /\ c = (2, 3))))
     \/ (exists m ds,
           In m (finditer past_re relevant) /\ group m 1 = Some ds
           /\ 5 <= py_int ds <= 365 /\ c = (py_int ds, 5))) /\
  (forall c,
     In c (candidates relevant) ->
     fst c <> 3 /\ fst c <> 4 /\ fst c <= 365) /\
  finditer past_re (txt "past due after ten days") = [].
Proof.
  assert (Net : forall m c, In m (finditer net_re relevant) ->
                  In c (net_pick m) -> In c (candidates relevant)).
  { intros m c Hm Hc. unfold candidates. rewrite !in_app_iff, !in_flat_map.
    left. now exists m. }
  assert (Due : forall m c, In m (finditer due_re relevant) ->
                  In c (due_pick m) -> In c (candidates relevant)).
  { intros m c Hm Hc. unfold candidates. rewrite !in_app_iff, !in_flat_map.
    right. left. now exists m. }
  assert (Past : forall m c, In m (finditer past_re relevant) ->
                   In c (past_pick m) -> In c (candidates relevant)).
  { intros m c Hm Hc. unfold candidates. rewrite !in_app_iff, !in_flat_map.
    right. right. now exists m. }
  split; [|split; [|split; [|split; [|split]]]].
  - intros m Hm.
    pose proof (fun k w => finditer_groups net_groups net_re relevant m k w
                             net_groups_ok Hm) as G.
    split; [|split; [|split]].
    + intros ds E. destruct (digits_to_num ds (G 2%nat ds E)) as [T O].
      unfold net_value. rewrite E, !O. exact T.
    + intros ds E2 E4. destruct (digits_to_num ds (G 4%nat ds E4)) as [T O].
      unfold net_value. rewrite E2, E4.
      change (py_or None (Some ds)) with (Some ds). now rewrite O.
    + intros w E2 E4 E5. destruct (letters_to_num w (G 5%nat w E5)) as [T _].
      unfold net_value. rewrite E2, E4, E5. exact T.
    + intros v E. destruct (rank_cases 8 v) as (R1 & R2 & R3).
      unfold net_pick in *. rewrite E. split; [|split].
      * intros H. split; [now apply R1|].
        apply (Net m); [exact Hm|]. unfold net_pick.
        rewrite E, (R1 H). now left.
      * intros H. split; [now apply R2|].
        apply (Net m); [exact Hm|]. unfold net_pick.
        rewrite E, (R2 H). now left.
      * exact R3.
  - intros m Hm.
    pose proof (fun k w => finditer_groups due_groups due_re relevant m k w
                             due_groups_ok Hm) as G.
    split; [|split].
    + intros ds E. destruct (digits_to_num ds (G 2%nat ds E)) as [T O].
      unfold due_value. rewrite E, O. exact T.
    + intros w E2 E1. destruct (letters_to_num w (G 1%nat w E1)) as [T _].
      unfold due_value. rewrite E2, E1. exact T.
    + intros v E. destruct (rank_cases 7 v) as (R1 & R2 & R3).
      unfold due_pick in *. rewrite E. split; [|split].
      * intros H. split; [now apply R1|].
        apply (Due m); [exact Hm|]. unfold due_pick.
        rewrite E, (R1 H). now left.
      * intros H. split; [now apply R2|].
        apply (Due m); [exact Hm|]. unfold due_pick.
        rewrite E, (R2 H). now left.
      * exact R3.
  - intros m Hm.
    destruct (past_group_decimal relevant m Hm) as (ds & E & D).
    exists ds. split; [exact E|]. split; [exact D|].
    assert (P : 5 <= py_int ds <= 365 -> past_pick m = [(py_int ds, 5)]).
    { intros H. unfold past_pick. rewrite E. cbv zeta.
      apply in_window_spec in H. now rewrite H. }
    split.
    + intros H. split; [now apply P|].
      apply (Past m); [exact Hm|]. rewrite (P H). now left.
    + intros H. unfold past_pick. rewrite E. cbv zeta.
      destruct (in_window (py_int ds)) eqn:W; [|reflexivity].
      apply in_window_spec in W. lia.
  - intros c. unfold candidates. rewrite !in_app_iff, !in_flat_map.
    intros [(m & Hm & Hc)|[(m & Hm & Hc)|(m & Hm & Hc)]].
    + left. apply rank_in in Hc. destruct Hc as (v & E & Hv).
      now exists m, v.
    + right. left. apply rank_in in Hc. destruct Hc as (v & E & Hv).
      now exists m, v.
    + right. right.
      destruct (past_group_decimal relevant m Hm) as (ds & E & _).
      exists m, ds. split; [exact Hm|]. split; [exact E|].
      unfold past_pick in Hc. rewrite E in Hc. cbv zeta in Hc.
      destruct (in_window (py_int ds)) eqn:W; [|destruct Hc].
      apply in_window_spec in W. destruct Hc as [<-|[]]. now split.
  - intros c H. apply candidates_range in H.
    destruct H as [->|[H _]]; cbn; lia.
  - vm_compute. reflexivity.
Qed.

Lemma family_candidates_witness :
  In (30, 8) (candidates (txt "net 30 days. due within 45 days"))
  /\ In (45, 7) (candidates (txt "net 30 days. due within 45 days"))
  /\ In (10, 5) (candidates (txt "past due after 10 days"))
  /\ In (2, 3) (candidates (txt "within 2 days")).
Proof.
  split; [|split; [|split]].
  - refine (proj2 (proj1 (proj2 (proj2 (proj2
              (proj1 (family_candidates
                        (txt "net 30 days. due within 45 days"))
                 (Mtch 0 6 (txt "net 30")
                    [(1%nat, txt "30"); (2%nat, txt "30")]) _)))
              30 eq_refl) _)).
    + vm_compute. left. reflexivity.
    + lia.
  - refine (proj2 (proj1 (proj2 (proj2
              (proj1 (proj2 (family_candidates
                               (txt "net 30 days. due within 45 days")))
                 (Mtch 13 31 (txt "due within 45 days")
                    [(2%nat, txt "45")]) _))
              45 eq_refl) _)).
    + vm_compute. left. reflexivity.
    + lia.
  - destruct (proj1 (proj2 (proj2 (family_candidates
                                     (txt "past due after 10 days"))))
                (Mtch 0 22 (txt "past due after 10 days")
                   [(1%nat, txt "10")]))
      as (ds & E & _ & H & _).
    + vm_compute. left. reflexivity.
    + injection E as <-. apply H. vm_compute. split; discriminate.
  - refine (proj2 (proj1 (proj2 (proj2 (proj2
              (proj1 (proj2 (family_candidates (txt "within 2 days")))
                 (Mtch 0 13 (txt "within 2 days") [(2%nat, txt "2")]) _))
              2 eq_refl)) eq_refl)).
    vm_compute. left. reflexivity.
Defined.

(** ** The composer *)

(** C7: the lights are a function of the extracted facts alone.  The
    first light fails for an absent term, passes up to 30 days, warns
    from 31 to 60 and fails above 60; the last light, Insurance, always
    warns; there are always six lights, in the order Payment Terms,
    NOA, Non-Solicit, Conversions, Indemnity, Insurance; composing
    twice from the same facts gives the same lights. *)
Theorem composer_lights (days : option Z) (noa ns conv : bool)
    (indem : string) :
  (days = None ->
   nth_error (map status (lights_of days noa ns conv indem)) 0
     = Some "fail"%string) /\
  (forall d, days = Some d -> d <= 30 ->
   nth_error (map status (lights_of days noa ns conv indem)) 0
     = Some "pass"%string) /\
  (forall d, days = Some d -> 31 <= d <= 60 ->
   nth_error (map status (lights_of days noa ns conv indem)) 0
     = Some "warn"%string) /\
  (forall d, days = Some d -> 60 < d ->
   nth_error (map status (lights_of days noa ns conv indem)) 0
     = Some "fail"%string) /\
  nth_error (map status (lights_of days noa ns conv indem)) 5
    = Some "warn"%string /\
  List.length (lights_of days noa ns conv indem) = 6%nat /\
  map label (lights_of days noa ns conv indem)
    = ["Payment Terms"; "NOA to Rev Capital"; "Client Hire / Non-Solicit";
       "Conversions"; "Indemnity"; "Insurance"]%string /\
  (forall days' noa' ns' conv' indem',
     (days', noa', ns', conv', indem') = (days, noa, ns, conv, indem) ->
     lights_of days' noa' ns' conv' indem'
       = lights_of days noa ns conv indem).
Proof.
  unfold lights_of. cbn [app map nth_error status label length].
  repeat apply conj.
  - intros ->. reflexivity.
  - intros d -> H. cbv zeta. apply Z.leb_le in H. now rewrite H.
  - intros d -> H. cbv zeta.
    destruct (d <=? 30) eqn:E1; [apply Z.leb_le in E1; lia|].
    destruct (d <=? 60) eqn:E2; [reflexivity|apply Z.leb_gt in E2; lia].
  - intros d -> H. cbv zeta.
    destruct (d <=? 30) eqn:E1; [apply Z.leb_le in E1; lia|].
    destruct (d <=? 60) eqn:E2; [apply Z.leb_le in E2; lia|reflexivity].
  - reflexivity.
  - reflexivity.
  - destruct days as [d|]; cbv zeta.
    + destruct (d <=? 30); [|destruct (d <=? 60)]; reflexivity.
    + reflexivity.
  - intros days' noa' ns' conv' indem' [= -> -> -> -> ->]. reflexivity.
Qed.

Lemma composer_lights_witness :
  nth_error
    (map status (lights_of (Some 45) true false false "none")) 0
  = Some "warn"%string.
Proof.
  apply (proj1 (proj2 (proj2
           (composer_lights (Some 45) true false false "none"))) 45).
  - reflexivity.
  - lia.
Defined.

(** ** The two-day guard *)

(** The text "Net 2" resolves to 2, where C1 expects absent. *)
Lemma net_two_not_discarded :
  candidates (relevant_text (txt "Net 2")) = [(2, 3)] /\
  find_payment_days (txt "Net 2") = Some 2 /\
  find_payment_days (txt "Net 2") <> None.
Proof.
  split; [vm_compute; reflexivity|].
  split; [vm_compute; reflexivity|].
  vm_compute. discriminate.
Qed.

(** C1, amended: a text whose winning candidate has the value 2
    resolves to 2 when its RelevantText has a match of the explicit
    two-day pattern and to absent otherwise.  The text "Net 2" yields
    the single candidate (2, priority 3) and resolves to 2, since
    "Net 2" is itself such a match; the same candidate is discarded
    for the spelled-out "Net two". *)
Theorem net_two_is_its_own_anchor :
  (forall t p tl,
     sort_picks (candidates (relevant_text t)) = (2, p) :: tl ->
     find_payment_days t
       = if found EXPLICIT_TWO (relevant_text t) then Some 2 else None) /\
  candidates (relevant_text (txt "Net 2")) = [(2, 3)] /\
  found EXPLICIT_TWO (relevant_text (txt "Net 2")) = true /\
  find_payment_days (txt "Net 2") = Some 2 /\
  candidates (relevant_text (txt "Net two")) = [(2, 3)] /\
  found EXPLICIT_TWO (relevant_text (txt "Net two")) = false /\
  find_payment_days (txt "Net two") = None /\
  find_payment_days (txt "Net 2. Payment within (2) days of receipt")
    = Some 2.
Proof.
  split; [|repeat split; vm_compute; reflexivity].
  intros t p tl E. unfold find_payment_days. cbv zeta.
  now apply guard_on_two with p tl.
Qed.

Lemma net_two_is_its_own_anchor_witness :
  find_payment_days (txt "Net 2")
  = if found EXPLICIT_TWO (relevant_text (txt "Net 2")) then Some 2
    else None.
Proof.
  apply (proj1 net_two_is_its_own_anchor (txt "Net 2") 3 []).
  vm_compute. reflexivity.
Defined.

(** The text "net-2" has a winner of value 2 and contains the form
    "net-2", yet resolves to absent, where C2 expects 2. *)
Lemma hyphenated_net_two_discarded :
  sort_picks (candidates (relevant_text (txt "net-2"))) = [(2, 3)] /\
  spec_two_day_anchor (relevant_text (txt "net-2")) = true /\
  find_payment_days (txt "net-2") = None /\
  ~ (find_payment_days (txt "net-2") = Some 2 <->
     spec_two_day_anchor (relevant_text (txt "net-2")) = true).
Proof.
  split; [vm_compute; reflexivity|].
  split; [vm_compute; reflexivity|].
  split; [vm_compute; reflexivity|].
  intros [_ H].
  assert (E : spec_two_day_anchor (relevant_text (txt "net-2")) = true)
    by (vm_compute; reflexivity).
  specialize (H E). vm_compute in H. discriminate.
Qed.

(** C2, amended: when the winning candidate's value is 2, the resolver
    returns 2 if and only if the RelevantText has a match of the
    explicit two-day pattern, and absent otherwise.  The pattern, in
    any case and between word boundaries, is "net" then optional
    whitespace then "2", or "within", "2" with optional parentheses,
    optional "business", and "day" or "days"; the hyphenated "net-2"
    is not a match. *)
Theorem two_day_guard (picks : list pick) (relevant : text) (p : Z)
    (tl : list pick) :
  sort_picks picks = (2, p) :: tl ->
  (resolve picks relevant = Some 2 <-> found EXPLICIT_TWO relevant = true) /\
  (resolve picks relevant = Some 2 <-> occurs EXPLICIT_TWO relevant) /\
  (found EXPLICIT_TWO relevant = false -> resolve picks relevant = None) /\
  found EXPLICIT_TWO (txt "net 2") = true /\
  found EXPLICIT_TWO (txt "NET2") = true /\
  found EXPLICIT_TWO (txt "within (2) days") = true /\
  found EXPLICIT_TWO (txt "Within 2 business days") = true /\
  found EXPLICIT_TWO (txt "net-2") = false.
Proof.
  intros E. rewrite (guard_on_two _ relevant _ _ E).
  rewrite <- found_iff_occurs.
  destruct (found EXPLICIT_TWO relevant).
  - repeat split; try discriminate; vm_compute; reflexivity.
  - repeat split; try discriminate; vm_compute; reflexivity.
Qed.

Lemma two_day_guard_witness :
  (resolve [(30, 1); (2, 3)] (txt "net two") = Some 2 <->
   found EXPLICIT_TWO (txt "net two") = true) /\
  (found EXPLICIT_TWO (txt "net two") = false ->
   resolve [(30, 1); (2, 3)] (txt "net two") = None).
Proof.
  destruct (two_day_guard [(30, 1); (2, 3)] (txt "net two") 3 [(30, 1)])
    as (H1 & _ & H2 & _).
  - reflexivity.
  - split; [exact H1|exact H2].
Defined.

(** ** The keyword filter *)

(** C10: the filter keeps a segment as soon as a keyword occurs as a
    substring.  "internet" and "Monday" hold no keyword as a whole word
    and are kept; a segment with no whole-word keyword is kept and
    yields a payment term. *)
Theorem keyword_filter_by_substring :
  (found spec_kw_word_re (txt "internet") = false /\
   found kw_re (txt "internet") = true /\
   relevant_text (txt "internet") = txt "internet") /\
  (found spec_kw_word_re (txt "Monday") = false /\
   found kw_re (txt "Monday") = true /\
   relevant_text (txt "Monday") = txt "Monday") /\
  (exists seg,
     found spec_kw_word_re seg = false /\
     found kw_re seg = true /\
     relevant_text seg = seg /\
     candidates (relevant_text seg) = [(30, 8)] /\
     find_payment_days seg = Some 30) /\
  (exists seg,
     found spec_kw_word_re seg = false /\
     relevant_text seg = seg /\
     find_payment_days seg = Some 45).
Proof.
  split; [repeat split; vm_compute; reflexivity|].
  split; [repeat split; vm_compute; reflexivity|].
  split.
  - exists (txt "The internet fee is net30").
    repeat split; vm_compute; reflexivity.
  - exists (txt "Pay by Monday within 45days").
    repeat split; vm_compute; reflexivity.
Qed.

(** ** Plain terms *)

(** C6: for d from 5 to 365 written in digits, the sentence
    "net d days" alone resolves to d; it is the only candidate.  The
    same holds with a capital and a full stop. *)
Theorem net_d_days_resolves_to_d (d : Z) :
  5 <= d <= 365 ->
  candidates (relevant_text (net_days_sentence d)) = [(d, 8)] /\
  find_payment_days (net_days_sentence d) = Some d /\
  find_payment_days (net_days_full_stop d) = Some d.
Proof.
  intros H.
  assert (A : forallb
                (fun n =>
                   let d := 5 + Z.of_nat n in
                   match candidates (relevant_text (net_days_sentence d)),
                         find_payment_days (net_days_sentence d),
                         find_payment_days (net_days_full_stop d) with
                   | [(v, q)], Some x, Some y =>
                       (v =? d) && (q =? 8) && (x =? d) && (y =? d)
                   | _, _, _ => false
                   end)
                (seq 0 361) = true) by (vm_compute; reflexivity).
  rewrite forallb_forall in A.
  assert (Hin : In (Z.to_nat (d - 5)) (seq 0 361)) by (apply in_seq; lia).
  specialize (A _ Hin). cbv beta zeta in A.
  rewrite Z2Nat.id in A by lia.
  replace (5 + (d - 5)) with d in A by lia.
  destruct (candidates (relevant_text (net_days_sentence d)))
    as [|[v q] [|? ?]]; try discriminate A.
  destruct (find_payment_days (net_days_sentence d)) as [x|];
    try discriminate A.
  destruct (find_payment_days (net_days_full_stop d)) as [y|];
    try discriminate A.
  rewrite !andb_true_iff, !Z.eqb_eq in A.
  destruct A as [[[-> ->] ->] ->]. auto.
Qed.

Lemma net_d_days_resolves_to_d_witness :
  candidates (relevant_text (net_days_sentence 30)) = [(30, 8)] /\
  find_payment_days (net_days_sentence 30) = Some 30 /\
  find_payment_days (net_days_full_stop 30) = Some 30.
Proof. apply (net_d_days_resolves_to_d 30). lia. Defined.

(** ** The indemnity window *)

(** On [two_mentions] the window of the specification, taken around the
    first mention, holds no mutuality language, yet the classifier
    answers mutual, where C5 expects one-sided. *)
Lemma window_follows_later_mention :
  spec_find_indemnity two_mentions = "one-sided"%string /\
  find_indemnity two_mentions = "mutual"%string.
Proof. split; vm_compute; reflexivity. Qed.

(** C5, amended: the classifier answers none exactly when the text has
    no mention of "indemnify" or "indemnification".  Otherwise it
    looks at one window only: the window starts at or before every
    mention, no later than 200 characters before a mention that only
    characters other than line feeds precede (so exactly 200 before the
    first mention, or at the start of the text, in a NormalizedText);
    it holds up to 200 characters, then a mention, then up to 400
    characters; that mention is the last one beginning within the first
    200 characters of the window, not the first one; and the window
    goes on for 400 characters after it unless the text or the line
    ends.  The answer is mutual if the window has mutuality language
    and one-sided otherwise. *)
Theorem indemnity_window (t : text) :
  (find_indemnity t = "none"%string <->
   forall x kw y, t = x ++ kw ++ y -> ~ is_mention kw) /\
  ((exists x kw y, t = x ++ kw ++ y /\ is_mention kw) ->
   exists pre a kw0 b post,
     t = pre ++ a ++ kw0 ++ b ++ post
     /\ is_mention kw0
     /\ forallb is_dot a = true /\ (List.length a <= 200)%nat
     /\ forallb is_dot b = true /\ (List.length b <= 400)%nat
     /\ (forall x kw y,
           t = x ++ kw ++ y -> is_mention kw ->
           (List.length pre <= List.length x)%nat
           /\ (forallb is_dot x = true ->
               (List.length pre <= List.length x - 200)%nat))
     /\ (forall x1 kw1 y1,
           t = x1 ++ kw1 ++ y1 -> is_mention kw1 ->
           forallb is_dot x1 = true ->
           (forall x kw y,
              t = x ++ kw ++ y -> is_mention kw ->
              (List.length x1 <= List.length x)%nat) ->
           List.length pre = (List.length x1 - 200)%nat)
     /\ (forall a' kw' y',
           a ++ kw0 ++ b ++ post = a' ++ kw' ++ y' -> is_mention kw' ->
           forallb is_dot a' = true -> (List.length a' <= 200)%nat ->
           (List.length a' <= List.length a)%nat)
     /\ (forall b' y',
           b ++ post = b' ++ y' -> forallb is_dot b' = true ->
           (List.length b' <= 400)%nat ->
           (List.length b' <= List.length b)%nat)
     /\ find_indemnity t
        = if found mutual_re (a ++ kw0 ++ b) then "mutual"%string
          else "one-sided"%string) /\
  (forall s x, t = clean s -> (exists y, t = x ++ y) ->
     forallb is_dot x = true) /\
  find_indemnity (txt "Each party shall indemnify the other.")
    = "mutual"%string /\
  find_indemnity (txt "Contractor shall indemnify Client.")
    = "one-sided"%string /\
  find_indemnity (txt "Payment is due within 30 days.") = "none"%string.
Proof.
  assert (None_iff : search indemnity_re t = None <->
                     forall x kw y, t = x ++ kw ++ y -> ~ is_mention kw).
  { split.
    - intros H x kw y Ht Hk.
      apply (search_from_none _ _ _ _ H x kw y Ht).
      replace kw with ([] ++ kw ++ []) by (cbn; apply app_nil_r).
      apply window_lang; cbn; auto; lia.
    - intros H. destruct (search indemnity_re t) as [block|] eqn:E;
        [exfalso|reflexivity].
      apply indemnity_block in E.
      destruct E as (pre & a & kw0 & b & post & Ht & _ & Hk & _).
      apply (H (pre ++ a) kw0 (b ++ post)); [|exact Hk].
      now rewrite <- app_assoc. }
  split; [|split; [|split; [|repeat split; vm_compute; reflexivity]]].
  - rewrite <- None_iff. unfold find_indemnity.
    destruct (search indemnity_re t) as [block|].
    + split; [|discriminate].
      destruct (found mutual_re (m_text block)); discriminate.
    + split; reflexivity.
  - intros (x & kw & y & Ht & Hk).
    destruct (search indemnity_re t) as [block|] eqn:E.
    + pose proof E as E'. apply indemnity_block in E.
      destruct E as (pre & a & kw0 & b & post & H1 & H2 & H3 & H4 & H5 & H6
                     & H7 & H8 & H9 & H10).
      exists pre, a, kw0, b, post.
      repeat (split; [assumption|]).
      split.
      { intros x1 kw1 y1 Hx1 Hk1 Hd1 Hfirst.
        destruct (H8 x1 kw1 y1 Hx1 Hk1) as [_ Hup].
        specialize (Hup Hd1).
        assert (Hlow : (List.length x1 <= List.length (pre ++ a))%nat).
        { apply (Hfirst (pre ++ a) kw0 (b ++ post)); [|exact H3].
          rewrite H1. now rewrite <- app_assoc. }
        rewrite length_app in Hlow. lia. }
      repeat (split; [assumption|]).
      unfold find_indemnity. rewrite E', H2. reflexivity.
    + exfalso. exact (proj1 None_iff eq_refl x kw y Ht Hk).
  - intros s x Hs (y & Hx).
    pose proof (clean_no_linefeed s) as H. rewrite <- Hs, Hx in H.
    rewrite forallb_app in H. now apply andb_true_iff in H.
Qed.

Lemma indemnity_window_witness :
  exists pre a kw0 b post,
    two_mentions = pre ++ a ++ kw0 ++ b ++ post
    /\ is_mention kw0
    /\ forallb is_dot a = true /\ (List.length a <= 200)%nat
    /\ forallb is_dot b = true /\ (List.length b <= 400)%nat
    /\ (forall x kw y,
          two_mentions = x ++ kw ++ y -> is_mention kw ->
          (List.length pre <= List.length x)%nat
          /\ (forallb is_dot x = true ->
              (List.length pre <= List.length x - 200)%nat))
    /\ (forall x1 kw1 y1,
          two_mentions = x1 ++ kw1 ++ y1 -> is_mention kw1 ->
          forallb is_dot x1 = true ->
          (forall x kw y,
             two_mentions = x ++ kw ++ y -> is_mention kw ->
             (List.length x1 <= List.length x)%nat) ->
          List.length pre = (List.length x1 - 200)%nat)
    /\ (forall a' kw' y',
          a ++ kw0 ++ b ++ post = a' ++ kw' ++ y' -> is_mention kw' ->
          forallb is_dot a' = true -> (List.length a' <= 200)%nat ->
          (List.length a' <= List.length a)%nat)
    /\ (forall b' y',
          b ++ post = b' ++ y' -> forallb is_dot b' = true ->
          (List.length b' <= 400)%nat ->
          (List.length b' <= List.length b)%nat)
    /\ find_indemnity two_mentions
       = if found mutual_re (a ++ kw0 ++ b) then "mutual"%string
         else "one-sided"%string.
Proof.
  apply (proj1 (proj2 (indemnity_window two_mentions))).
  exists (txt "Contractor shall "), (txt "indemnify"),
    (txt " Client. " ++ repeat "x"%char 130
     ++ txt " Client may indemnify. " ++ repeat "y"%char 300
     ++ txt " each party").
  split; [reflexivity|]. left. reflexivity.
Defined.

(** ** The normalizer *)

(** C8: [clean] is defined on every text.  It is the single pass that
    answers each run of whitespace with one blank, followed by the
    removal of the blanks at both ends; a text of whitespace only, the
    empty text included, gives the empty text, and the result never
    begins or ends with whitespace nor holds two whitespace characters
    in a row. *)
Theorem clean_normalizes (s : text) :
  clean s = strip (collapse_ws false s) /\
  (forallb is_space s = true -> clean s = []) /\
  (forall c r, clean s = c :: r -> is_space c = false) /\
  (forall r c, clean s = r ++ [c] -> is_space c = false) /\
  (forall a x y b,
     clean s = a ++ x :: y :: b -> is_space x && is_space y = false).
Proof.
  unfold clean. rewrite sub_ws_collapse.
  destruct (strip_shape (collapse_ws false s)) as (S1 & S2 & S3).
  split; [reflexivity|]. split; [|split; [exact S1|split; [exact S2|]]].
  - intros H. apply collapse_ws_blank in H.
    destruct H as [_ [-> | ->]]; reflexivity.
  - intros a x y b E. apply (no_ws_pair_inside a x y b).
    rewrite <- E. apply S3. apply collapse_ws_shape.
Qed.

Lemma clean_normalizes_witness :
  clean (txt "   ") = [] /\ clean [] = [].
Proof.
  split.
  - apply (proj1 (proj2 (clean_normalizes (txt "   ")))). reflexivity.
  - apply (proj1 (proj2 (clean_normalizes []))). reflexivity.
Defined.

(** ** The resolver and the lights, end to end *)

Lemma find_payment_days_relevant (t t' : text) :
  relevant_text t = relevant_text t' ->
  find_payment_days t = find_payment_days t'.
Proof. unfold find_payment_days. cbv zeta. now intros ->. Qed.

Lemma find_payment_days_no_keyword (t : text) :
  found kw_re t = false -> find_payment_days t = None.
Proof.
  intros H. unfold find_payment_days. cbv zeta.
  now rewrite relevant_text_no_keyword.
Qed.

Lemma net_days_alone (d : Z) :
  5 <= d <= 365 -> find_payment_days (net_days_sentence d) = Some d.
Proof.
  intros H.
  assert (A : forallb
                (fun n =>
                   match find_payment_days
                           (net_days_sentence (5 + Z.of_nat n)) with
                   | Some x => x =? 5 + Z.of_nat n
                   | None => false
                   end)
                (seq 0 361) = true) by (vm_compute; reflexivity).
  rewrite forallb_forall in A.
  assert (Hin : In (Z.to_nat (d - 5)) (seq 0 361)) by (apply in_seq; lia).
  specialize (A _ Hin). cbv beta in A.
  rewrite Z2Nat.id in A by lia.
  replace (5 + (d - 5)) with d in A by lia.
  destruct (find_payment_days (net_days_sentence d)) as [x|];
    [|discriminate].
  apply Z.eqb_eq in A. now subst.
Qed.

(** The winner has the highest priority among the candidates. *)
Lemma resolve_top (picks : list pick) (relevant : text) (n hi : Z) :
  In (n, hi) picks ->
  (forall c, In c picks -> snd c <= hi) ->
  (forall c, In c picks -> snd c = hi -> fst c <> 2) ->
  exists n',
    resolve picks relevant = Some n' /\ In (n', hi) picks /\ n' <= n.
Proof.
  intros Hin Hmax Htwo.
  assert (Hne : picks <> []) by (intros ->; destruct Hin).
  destruct (sort_picks_nonempty _ Hne) as ([v q] & tl & E).
  destruct (winner_first _ _ _ E) as [Hw Hmin].
  pose proof (Hmin _ Hin) as K. unfold key_before in K. cbn [fst snd] in K.
  pose proof (Hmax _ Hw) as M. cbn [snd] in M.
  assert (q = hi) as -> by lia.
  exists v. rewrite (resolve_unfold _ relevant _ _ E). cbn [fst].
  assert (V : v <> 2) by (apply (Htwo _ Hw); reflexivity).
  apply Z.eqb_neq in V. rewrite V. cbn [andb].
  repeat split; [exact Hw|lia].
Qed.

Lemma find_indemnity_none_iff (t : text) :
  find_indemnity t = "none"%string <->
  forall x kw y, t = x ++ kw ++ y -> ~ is_mention kw.
Proof.
  unfold find_indemnity. split.
  - destruct (search indemnity_re t) as [block|] eqn:E.
    + destruct (found mutual_re (m_text block)); discriminate.
    + intros _ x kw y Ht Hk.
      apply (search_from_none _ _ _ _ E x kw y Ht).
      replace kw with ([] ++ kw ++ []) by (cbn; apply app_nil_r).
      apply window_lang; cbn; auto; lia.
  - intros H. destruct (search indemnity_re t) as [block|] eqn:E;
      [exfalso|reflexivity].
    apply indemnity_block in E.
    destruct E as (pre & a & kw0 & b & post & Ht & _ & Hk & _).
    apply (H (pre ++ a) kw0 (b ++ post)); [|exact Hk].
    now rewrite <- app_assoc.
Qed.

(** The shape of the lights, whatever the facts. *)
Lemma lights_of_shape (days : option Z) (noa ns conv : bool)
    (indem : string) :
  List.length (lights_of days noa ns conv indem) = 6%nat /\
  Forall (fun x => status x = "pass"%string \/ status x = "warn"%string
                   \/ status x = "fail"%string)
         (lights_of days noa ns conv indem) /\
  (forall i x,
     nth_error (lights_of days noa ns conv indem) i = Some x ->
     status x = "fail"%string -> i = 0%nat \/ i = 1%nat \/ i = 4%nat) /\
  (forall i x,
     nth_error (lights_of days noa ns conv indem) i = Some x ->
     status x = "warn"%string ->
     i = 0%nat \/ i = 2%nat \/ i = 3%nat \/ i = 5%nat) /\
  (days = None ->
   nth_error (lights_of days noa ns conv indem) 0
   = Some (Light "Payment Terms" "fail" "(not found)")) /\
  (indem = "none"%string ->
   nth_error (lights_of days noa ns conv indem) 4
   = Some (Light "Indemnity" "pass" "(none)")).
Proof.
  unfold lights_of. cbn [app].
  set (pay := match days with
              | Some d =>
                  let n := ("(" ++ str_of_int d ++ " days)")%string in
                  if d <=? 30 then Light "Payment Terms" "pass" n
                  else if d <=? 60 then Light "Payment Terms" "warn" n
                  else Light "Payment Terms" "fail" n
              | None => Light "Payment Terms" "fail" "(not found)"
              end).
  assert (P : status pay = "pass"%string \/ status pay = "warn"%string
              \/ status pay = "fail"%string).
  { subst pay. destruct days as [d|]; cbv zeta;
      [destruct (d <=? 30); [|destruct (d <=? 60)]|]; cbn; auto. }
  set (e1 := String.eqb indem "none").
  set (e2 := String.eqb indem "mutual").
  split; [reflexivity|]. split; [|split; [|split; [|split]]].
  - repeat (apply Forall_cons); try apply Forall_nil; cbn [status]; auto.
    + destruct noa; auto.
    + destruct ns; auto.
    + destruct conv; auto.
    + destruct (e1 || e2); auto.
  - intros i x Hn Hs.
    do 6 (destruct i as [|i];
          [cbn [nth_error] in Hn; injection Hn as <-; cbn [status] in Hs;
           auto; try discriminate Hs;
           try (destruct ns; discriminate Hs);
           try (destruct conv; discriminate Hs)|]).
    destruct i; discriminate Hn.
  - intros i x Hn Hs.
    do 6 (destruct i as [|i];
          [cbn [nth_error] in Hn; injection Hn as <-; cbn [status] in Hs;
           auto; try discriminate Hs;
           try (destruct noa; discriminate Hs);
           try (destruct (e1 || e2); discriminate Hs)|]).
    destruct i; discriminate Hn.
  - intros ->. reflexivity.
  - intros ->. reflexivity.
Qed.
Lemma same_days_eq (a b : option Z) : same_days a b = true -> a = b.
Proof.
  destruct a as [x|], b as [y|]; cbn; try discriminate; try reflexivity.
  intros H. apply Z.eqb_eq in H. now subst.
Qed.

(** A check that holds on every day count from 5 to 365. *)
Lemma window_enumeration (check : Z -> bool) :
  forallb (fun n => check (5 + Z.of_nat n)) (seq 0 361) = true ->
  forall d, 5 <= d <= 365 -> check d = true.
Proof.
  intros A d H.
  rewrite forallb_forall in A.
  assert (Hin : In (Z.to_nat (d - 5)) (seq 0 361)) by (apply in_seq; lia).
  specialize (A _ Hin). cbv beta in A.
  rewrite Z2Nat.id in A by lia.
  now replace (5 + (d - 5)) with d in A by lia.
Qed.

Lemma due_within_alone (d : Z) :
  5 <= d <= 365 -> find_payment_days (due_within_sentence d) = Some d.
Proof.
  intros H. apply same_days_eq.
  apply (window_enumeration
           (fun d => same_days (find_payment_days (due_within_sentence d))
                       (Some d))); [|exact H].
  vm_compute. reflexivity.
Qed.

Lemma past_due_alone (d : Z) :
  5 <= d <= 365 -> find_payment_days (past_due_sentence d) = Some d.
Proof.
  intros H. apply same_days_eq.
  apply (window_enumeration
           (fun d => same_days (find_payment_days (past_due_sentence d))
                       (Some d))); [|exact H].
  vm_compute. reflexivity.
Qed.

Lemma word_alone (k : string) (v : Z) :
  In (k, v) WORD ->
  find_payment_days (net_word_sentence k) = word_days v /\
  find_payment_days (due_word_sentence k) = word_days v.
Proof.
  intros H.
  assert (A : forallb
                (fun kv =>
                   same_days (find_payment_days (net_word_sentence (fst kv)))
                     (word_days (snd kv))
                   && same_days
                        (find_payment_days (due_word_sentence (fst kv)))
                        (word_days (snd kv)))
                WORD = true) by (vm_compute; reflexivity).
  rewrite forallb_forall in A. specialize (A _ H). cbn [fst snd] in A.
  apply andb_true_iff in A. destruct A as [A1 A2].
  split; now apply same_days_eq.
Qed.


(** * Further properties of the code *)

(** ** [clean] and the refusal of [analyze] *)

(** X1: normalizing a normalized text changes nothing, and the analysis
    of a text is that of its normal form. *)
Theorem clean_idempotent (s : text) :
  clean (clean s) = clean s /\ analyze (clean s) = analyze s.
Proof.
  assert (E : clean (clean s) = clean s).
  { destruct (clean_normal s) as (H1 & H2 & H3 & H4). now apply clean_fixed. }
  split; [exact E|]. unfold analyze. cbv zeta. now rewrite E.
Qed.

(** X2: [clean] touches whitespace only: the other characters come out
    the same and in the same order, every whitespace character of the
    result is a blank, and the result is no longer than the text. *)
Theorem clean_touches_whitespace_only (s : text) :
  filter (fun c => negb (is_space c)) (clean s)
    = filter (fun c => negb (is_space c)) s /\
  Forall (fun c => is_space c = true -> c = " ") (clean s) /\
  (List.length (clean s) <= List.length s)%nat.
Proof.
  split; [apply clean_keeps|]. split; [apply clean_normal|].
  unfold clean. rewrite sub_ws_collapse.
  pose proof (strip_length (collapse_ws false s)).
  pose proof (collapse_ws_length s false). lia.
Qed.

(** X3: the normal form is empty exactly for a text of whitespace only,
    so [analyze] refuses these texts and no others, and 422 is the only
    refusal. *)
Theorem analyze_refuses_blank_only (t : text) :
  (clean t = [] <-> forallb is_space t = true) /\
  (analyze t = inl 422%nat <-> forallb is_space t = true) /\
  (forall e, analyze t = inl e -> e = 422%nat) /\
  (forallb is_space t = false -> exists l, analyze t = inr l).
Proof.
  pose proof (clean_nil_iff t) as N.
  split; [exact N|]. unfold analyze. cbv zeta.
  destruct (clean t) as [|c s] eqn:E.
  - split; [|split].
    + split; [intros _; now apply N|reflexivity].
    + now intros e [= <-].
    + intros H. rewrite (proj1 N eq_refl) in H. discriminate.
  - split; [|split].
    + split; [discriminate|]. intros H. apply N in H. discriminate.
    + discriminate.
    + intros _. eauto.
Qed.

Lemma analyze_refuses_blank_only_witness :
  analyze [" "; "009"; "010"] = inl 422%nat
  /\ exists l, analyze (txt " Net 30 ") = inr l.
Proof.
  split.
  - exact (proj2 (proj1 (proj2 (analyze_refuses_blank_only
                                  [" "; "009"; "010"]))) eq_refl).
  - exact (proj2 (proj2 (proj2 (analyze_refuses_blank_only
                                  (txt " Net 30 ")))) eq_refl).
Defined.

(** X4: the lights of an accepted text: six of them, each pass, warn or
    fail; only Payment Terms, NOA and Indemnity can fail, and NOA and
    Indemnity never warn; a text with no keyword fails Payment Terms as
    not found, and a text that does not mention indemnification passes
    Indemnity as none. *)
Theorem analyze_lights (t : text) (l : list light) :
  analyze t = inr l ->
  List.length l = 6%nat /\
  Forall (fun x => status x = "pass"%string \/ status x = "warn"%string
                   \/ status x = "fail"%string) l /\
  (forall i x, nth_error l i = Some x -> status x = "fail"%string ->
     i = 0%nat \/ i = 1%nat \/ i = 4%nat) /\
  (forall i x, nth_error l i = Some x -> status x = "warn"%string ->
     i = 0%nat \/ i = 2%nat \/ i = 3%nat \/ i = 5%nat) /\
  (found kw_re (clean t) = false ->
   nth_error l 0 = Some (Light "Payment Terms" "fail" "(not found)")) /\
  ((forall x kw y, clean t = x ++ kw ++ y -> ~ is_mention kw) ->
   nth_error l 4 = Some (Light "Indemnity" "pass" "(none)")).
Proof.
  unfold analyze. cbv zeta.
  destruct (clean t) as [|c s] eqn:E; [discriminate|].
  intros [= <-].
  destruct (lights_of_shape (find_payment_days (c :: s)) (find_noa (c :: s))
              (find_nonsolicit (c :: s)) (find_conversions (c :: s))
              (find_indemnity (c :: s)))
    as (H1 & H2 & H3 & H4 & H5 & H6).
  repeat (split; [assumption|]). split.
  - intros H. apply H5. now apply find_payment_days_no_keyword.
  - intros H. apply H6. now apply find_indemnity_none_iff.
Qed.

Lemma analyze_lights_witness :
  List.length
    [Light "Payment Terms" "pass" "(30 days)";
     Light "NOA to Rev Capital" "fail" "(not found)";
     Light "Client Hire / Non-Solicit" "warn" "(missing)";
     Light "Conversions" "warn" "(missing)";
     Light "Indemnity" "pass" "(none)";
     Light "Insurance" "warn" "(client minimums not auto-evaluated here)"]
  = 6%nat.
Proof.
  apply (analyze_lights (txt " Net 30  days. ")). vm_compute. reflexivity.
Defined.

(** ** [word_to_num] *)

(** X5: [word_to_num] reads the letters of a token, whatever their case
    and whatever else stands between them: the token resolves to [v]
    exactly when its letters, lower-cased, spell a key of the table with
    value [v].  None and the empty string resolve to nothing, and a
    result is 1 to 20 or a multiple of ten from 30 to 100. *)
Theorem word_to_num_reads_letters :
  word_to_num None = None /\
  word_to_num (Some []) = None /\
  (forall w v,
     word_to_num (Some w) = Some v <->
     exists k, In (k, v) WORD /\ letters w = txt k) /\
  (forall w w',
     w <> [] -> w' <> [] -> letters w = letters w' ->
     word_to_num (Some w) = word_to_num (Some w')) /\
  (forall x v,
     word_to_num x = Some v ->
     1 <= v <= 20 \/ exists q, 3 <= q <= 10 /\ v = 10 * q).
Proof.
  assert (Hit : forall w v,
             word_to_num (Some w) = Some v ->
             exists k, In (k, v) WORD /\ letters w = txt k).
  { intros w v H. destruct w as [|c w]; [discriminate|].
    rewrite word_to_num_letters in H by discriminate.
    apply dict_get_in in H. eexists. split; [exact H|].
    unfold txt. now rewrite list_ascii_of_string_of_list_ascii. }
  split; [reflexivity|]. split; [reflexivity|]. split; [|split].
  - intros w v. split; [apply Hit|].
    intros (k & Hin & Hk). pose proof (dict_get_word k v Hin) as G.
    destruct w as [|c w].
    + cbn in Hk. destruct k; [|discriminate]. cbn in G. discriminate.
    + rewrite word_to_num_letters by discriminate.
      rewrite Hk. unfold txt. now rewrite string_of_list_ascii_of_string.
  - intros w w' Hw Hw' E.
    now rewrite !word_to_num_letters, E by assumption.
  - intros x v H. destruct x as [w|]; [|discriminate].
    apply Hit in H. destruct H as (k & Hin & _).
    unfold WORD in Hin. cbn [In] in Hin.
    repeat (destruct Hin as [Hin|Hin];
            [injection Hin as <- <-;
             first [left; lia
                   | right; exists 3; lia | right; exists 4; lia
                   | right; exists 5; lia | right; exists 6; lia
                   | right; exists 7; lia | right; exists 8; lia
                   | right; exists 9; lia | right; exists 10; lia]|]).
    destruct Hin.
Qed.

Lemma word_to_num_reads_letters_witness :
  word_to_num (Some (txt "(Thirty)")) = Some 30.
Proof.
  apply (proj1 (proj2 (proj2 word_to_num_reads_letters))
           (txt "(Thirty)") 30).
  exists "thirty"%string. split; [|reflexivity].
  unfold WORD. cbn [In]. do 20 right. left. reflexivity.
Defined.

(** ** Letter case *)

(** X6: on texts of Latin-1 characters (code points 0 to 255, the
    texts of this development, with [lower] as [str.lower] on them),
    texts that differ in letter case only get the same payment term,
    the same detections, the same indemnity class and the same lights.
    The bound matters: beyond it the code is not blind to case, since
    under [re.I] the class "[a-z]" also accepts U+017F and U+0130,
    which [word_to_num] then removes as non-letters. *)
Theorem analysis_ignores_case (t1 t2 : text) :
  map lower t1 = map lower t2 ->
  find_payment_days t1 = find_payment_days t2 /\
  find_noa t1 = find_noa t2 /\
  find_nonsolicit t1 = find_nonsolicit t2 /\
  find_conversions t1 = find_conversions t2 /\
  find_indemnity t1 = find_indemnity t2 /\
  analyze t1 = analyze t2.
Proof.
  intros E.
  rewrite <- (find_payment_days_lower t1), <- (find_payment_days_lower t2),
    <- (find_noa_lower t1), <- (find_noa_lower t2),
    <- (find_nonsolicit_lower t1), <- (find_nonsolicit_lower t2),
    <- (find_conversions_lower t1), <- (find_conversions_lower t2),
    <- (find_indemnity_lower t1), <- (find_indemnity_lower t2),
    <- (analyze_lower t1), <- (analyze_lower t2), E.
  repeat split.
Qed.

Lemma analysis_ignores_case_witness :
  find_payment_days (txt "PAYMENT DUE WITHIN Thirty (30) DAYS")
  = find_payment_days (txt "Payment due within thirty (30) days").
Proof.
  apply (analysis_ignores_case (txt "PAYMENT DUE WITHIN Thirty (30) DAYS")
           (txt "Payment due within thirty (30) days")).
  reflexivity.
Defined.

(** ** Sentences *)

(** X7: the relevant text is made of the sentences of the text that
    hold a keyword, in their order, joined by a full stop and a blank.
    The sentences are the non-empty stretches between full stops and
    line breaks; those of two texts set side by side across a
    separator are those of the one followed by those of the other. *)
Theorem relevant_text_by_sentences :
  (forall t,
     relevant_text t = join (txt ". ") (filter (found kw_re) (sentences t))) /\
  (forall t1 c t2,
     is_sep c = true ->
     sentences (t1 ++ c :: t2) = sentences t1 ++ sentences t2) /\
  (forall t f,
     In f (sentences t) ->
     f <> [] /\ forallb (fun c => negb (is_sep c)) f = true
     /\ exists a b, t = a ++ f ++ b).
Proof.
  split; [apply relevant_text_sentences|]. split; [apply sentences_app|].
  intros t f H. unfold sentences in H.
  destruct (tokens_from_shape is_sep t [] f eq_refl H) as [H1 H2].
  split; [exact H1|]. split; [exact H2|].
  apply tokens_from_inside in H. exact H.
Qed.

Lemma relevant_text_by_sentences_witness :
  sentences (txt "Fees apply" ++ "." :: txt " Net 30 days")
  = sentences (txt "Fees apply") ++ sentences (txt " Net 30 days").
Proof.
  apply (proj1 (proj2 relevant_text_by_sentences)). reflexivity.
Defined.

(** X8: a stretch of text without any keyword, set off by a full stop
    or a line break, has no say in the payment term, before or after the
    rest; a text without any keyword has no payment term. *)
Theorem keyword_free_text_ignored (t1 : text) (c : ascii) (t2 : text) :
  is_sep c = true -> found kw_re t1 = false ->
  find_payment_days (t1 ++ c :: t2) = find_payment_days t2 /\
  find_payment_days (t2 ++ c :: t1) = find_payment_days t2 /\
  find_payment_days t1 = None.
Proof.
  intros Hc H. split; [|split].
  - apply find_payment_days_relevant. now apply relevant_text_skip_left.
  - apply find_payment_days_relevant. now apply relevant_text_skip_right.
  - now apply find_payment_days_no_keyword.
Qed.

Lemma keyword_free_text_ignored_witness :
  find_payment_days (txt "This Agreement is made in Ohio" ++ "."
                     :: txt " Terms are net 45")
  = find_payment_days (txt " Terms are net 45").
Proof.
  apply (proj1 (keyword_free_text_ignored
                  (txt "This Agreement is made in Ohio") "."
                  (txt " Terms are net 45") eq_refl eq_refl)).
Defined.

(** X9: for d from 5 to 365, the sentence "net d days" resolves to d
    whatever keyword-free text stands before and after it, across full
    stops or line breaks. *)
Theorem net_term_among_other_sentences (d : Z) (before after : text)
    (c1 c2 : ascii) :
  5 <= d <= 365 -> is_sep c1 = true -> is_sep c2 = true ->
  found kw_re before = false -> found kw_re after = false ->
  find_payment_days (before ++ c1 :: net_days_sentence d ++ c2 :: after)
  = Some d.
Proof.
  intros Hd H1 H2 Hb Ha.
  rewrite <- (net_days_alone d Hd).
  apply find_payment_days_relevant.
  rewrite relevant_text_skip_left by assumption.
  now apply relevant_text_skip_right.
Qed.

Lemma net_term_among_other_sentences_witness :
  find_payment_days
    (txt "Staffing Agreement" ++ "010"
     :: net_days_sentence 45 ++ "." :: txt " Governing law: Ohio")
  = Some 45.
Proof.
  apply net_term_among_other_sentences.
  - lia.
  - reflexivity.
  - reflexivity.
  - vm_compute. reflexivity.
  - vm_compute. reflexivity.
Defined.

(** ** Priorities, end to end *)

(** X10: when the text has a "net" term, the payment term is the
    smallest "net" term, whatever the other families found; and the
    payment term is 2 only when no candidate from 5 to 365 exists. *)
Theorem net_term_wins (t : text) :
  (forall n,
     In (n, 8) (candidates (relevant_text t)) ->
     exists n',
       find_payment_days t = Some n'
       /\ In (n', 8) (candidates (relevant_text t)) /\ n' <= n) /\
  (find_payment_days t = Some 2 ->
   forall c, In c (candidates (relevant_text t)) -> c = (2, 3)).
Proof.
  split.
  - intros n Hin. unfold find_payment_days. cbv zeta.
    apply resolve_top; [exact Hin| |].
    + intros c Hc. apply candidates_range in Hc.
      destruct Hc as [->|[_ [->|[->| ->]]]]; cbn; lia.
    + intros c Hc Hs. apply candidates_range in Hc.
      destruct Hc as [->|[H _]]; [discriminate|lia].
  - unfold find_payment_days. cbv zeta. intros H c Hc.
    apply resolve_winner in H. destruct H as (w & Hw & Hf & Hmin).
    apply candidates_range in Hw.
    destruct Hw as [->|[Hr _]]; [|lia].
    specialize (Hmin c Hc). unfold key_before in Hmin. cbn [fst snd] in Hmin.
    apply candidates_range in Hc.
    destruct Hc as [->|[_ Hp]]; [reflexivity|lia].
Qed.

Lemma net_term_wins_witness :
  exists n',
    find_payment_days (txt "Net 60. Invoices due within 10 days. Net 30")
      = Some n'
    /\ In (n', 8)
         (candidates
            (relevant_text
               (txt "Net 60. Invoices due within 10 days. Net 30")))
    /\ n' <= 60.
Proof.
  apply (proj1 (net_term_wins
                  (txt "Net 60. Invoices due within 10 days. Net 30")) 60).
  vm_compute. left. reflexivity.
Defined.

(** ** The detectors *)

(** X11: the non-solicit and conversions detectors are tests for
    substrings: once on, they stay on when text is added before and
    after.  "conversion" in any case turns the conversions detector on
    wherever it stands, and "conversion fee", in any case and with any
    whitespace between the words, turns both detectors on. *)
Theorem substring_detectors_grow (a t b : text) :
  (find_nonsolicit t = true -> find_nonsolicit (a ++ t ++ b) = true) /\
  (find_conversions t = true -> find_conversions (a ++ t ++ b) = true) /\
  (map lower t = txt "conversion" -> find_conversions (a ++ t ++ b) = true) /\
  (forall w1 sp w2,
     t = w1 ++ sp ++ w2 ->
     map lower w1 = txt "conversion" -> sp <> [] ->
     forallb is_space sp = true -> map lower w2 = txt "fee" ->
     find_nonsolicit (a ++ t ++ b) = true
     /\ find_conversions (a ++ t ++ b) = true).
Proof.
  split; [|split; [|split]].
  - now apply found_inside.
  - now apply found_inside.
  - intros H. apply occurs_phrase; [reflexivity|now apply conversion_lang].
  - intros w1 sp w2 -> H1 Hs Hsp H2. split.
    + apply occurs_phrase; [reflexivity|now apply conversion_fee_lang].
    + replace (a ++ (w1 ++ sp ++ w2) ++ b)
        with (a ++ w1 ++ (sp ++ w2 ++ b)) by (now rewrite <- !app_assoc).
      apply occurs_phrase; [reflexivity|now apply conversion_lang].
Qed.

Lemma substring_detectors_grow_witness :
  find_nonsolicit
    (txt "A " ++ (txt "Conversion" ++ txt "  " ++ txt "FEE") ++ txt " applies")
    = true
  /\ find_conversions
       (txt "A " ++ (txt "Conversion" ++ txt "  " ++ txt "FEE")
        ++ txt " applies")
     = true.
Proof.
  apply (proj2 (proj2 (proj2
           (substring_detectors_grow (txt "A ")
              (txt "Conversion" ++ txt "  " ++ txt "FEE") (txt " applies"))))
           (txt "Conversion") (txt "  ") (txt "FEE"));
    try reflexivity.
  discriminate.
Defined.

(** X12: the assignment notice is detected when the phrase stands in
    one part of the text and the name "Rev Capital" in another, in
    either order and however far apart, the parts being set off by a
    character that is not a word character.  Unlike the other detectors
    it can be turned off by more text: a letter right after the name
    undoes it. *)
Theorem noa_parts_anywhere (t1 : text) (c : ascii) (t2 : text) :
  (is_word c = false ->
   (found noa_re t1 = true /\ found rev_capital_re t2 = true)
   \/ (found rev_capital_re t1 = true /\ found noa_re t2 = true) ->
   find_noa (t1 ++ c :: t2) = true) /\
  (find_noa t1 = true ->
   found noa_re t1 = true /\ found rev_capital_re t1 = true) /\
  (exists t b, find_noa t = true /\ find_noa (t ++ b) = false).
Proof.
  split; [|split].
  - intros Hc [[H1 H2]|[H1 H2]]; unfold find_noa; apply andb_true_iff; split.
    + now apply found_before_break.
    + now apply found_after_break.
    + now apply found_after_break.
    + now apply found_before_break.
  - unfold find_noa. intros H. now apply andb_true_iff in H.
  - exists (txt "Notice of Assignment to Rev Capital"), (txt "s").
    split; vm_compute; reflexivity.
Qed.

Lemma noa_parts_anywhere_witness :
  find_noa (txt "Remit to Rev Capital" ++ "."
            :: txt " See the assignment  notice below")
  = true.
Proof.
  apply (proj1 (noa_parts_anywhere (txt "Remit to Rev Capital") "."
                  (txt " See the assignment  notice below"))).
  - reflexivity.
  - right. split; vm_compute; reflexivity.
Defined.
(** ** The parenthesised digits of a "net" term *)

(** X13: in a match of the "net" pattern the parenthesised digits
    (group 4) are captured only when a word character directly follows
    the closing parenthesis; otherwise the term is read from the digits
    or the word after "net" alone.  So "Net fifteen (45) days" resolves
    to 15, and "Net fifteen (45)days" to 45. *)
Theorem net_parenthesised_digits :
  (forall (relevant : text) (m : mtch),
     In m (finditer net_re relevant) ->
     (group m 4 <> None ->
      exists c, nth_error relevant (m_end m) = Some c /\ is_word c = true)
     /\ ((forall c, nth_error relevant (m_end m) = Some c ->
                    is_word c = false) ->
         group m 4 = None
         /\ net_value m = to_num (py_or (group m 2) (group m 5)))) /\
  find_payment_days (txt "Net fifteen (45) days") = Some 15 /\
  find_payment_days (txt "Net fifteen (45)days") = Some 45.
Proof.
  split; [|split; vm_compute; reflexivity].
  intros relevant m Hm.
  pose proof (net_group4_needs_word relevant m Hm) as G.
  split; [exact G|].
  intros Hn.
  assert (E : group m 4 = None).
  { destruct (group m 4) as [w|] eqn:E; [|reflexivity].
    destruct G as (c & Hc & Hw); [discriminate|].
    rewrite (Hn c Hc) in Hw. discriminate. }
  split; [exact E|].
  unfold net_value. rewrite E.
  now destruct (group m 2) as [[|c w]|].
Qed.

Lemma net_parenthesised_digits_witness :
  group (Mtch 0 11 (txt "Net fifteen")
           [(1%nat, txt "fifteen"); (5%nat, txt "fifteen")]) 4 = None
  /\ net_value (Mtch 0 11 (txt "Net fifteen")
                  [(1%nat, txt "fifteen"); (5%nat, txt "fifteen")])
     = Some 15.
Proof.
  refine ((fun H => conj (proj1 H) (eq_trans (proj2 H) eq_refl))
            (proj2 (proj1 net_parenthesised_digits
                      (txt "Net fifteen (45) days")
                      (Mtch 0 11 (txt "Net fifteen")
                         [(1%nat, txt "fifteen"); (5%nat, txt "fifteen")])
                      _) _)).
  - vm_compute. left. reflexivity.
  - intros c Hc. vm_compute in Hc. injection Hc as <-. reflexivity.
Defined.

(** ** The other two families, and number words *)

(** X14: for d from 5 to 365, the sentences "due within d days" and
    "past due after d days" resolve to d, whatever keyword-free text
    stands before and after them, across full stops or line breaks. *)
Theorem due_and_past_due_terms (d : Z) (before after : text)
    (c1 c2 : ascii) :
  5 <= d <= 365 -> is_sep c1 = true -> is_sep c2 = true ->
  found kw_re before = false -> found kw_re after = false ->
  find_payment_days (before ++ c1 :: due_within_sentence d ++ c2 :: after)
  = Some d
  /\ find_payment_days
       (before ++ c1 :: past_due_sentence d ++ c2 :: after)
     = Some d.
Proof.
  intros Hd H1 H2 Hb Ha. split.
  - rewrite <- (due_within_alone d Hd).
    apply find_payment_days_relevant.
    rewrite relevant_text_skip_left by assumption.
    now apply relevant_text_skip_right.
  - rewrite <- (past_due_alone d Hd).
    apply find_payment_days_relevant.
    rewrite relevant_text_skip_left by assumption.
    now apply relevant_text_skip_right.
Qed.

Lemma due_and_past_due_terms_witness :
  find_payment_days
    (txt "Terms" ++ "010"
     :: due_within_sentence 45 ++ "." :: txt " Governing law: Ohio")
  = Some 45
  /\ find_payment_days
       (txt "Terms" ++ "010"
        :: past_due_sentence 45 ++ "." :: txt " Governing law: Ohio")
     = Some 45.
Proof.
  apply due_and_past_due_terms.
  - lia.
  - reflexivity.
  - reflexivity.
  - vm_compute. reflexivity.
  - vm_compute. reflexivity.
Defined.

(** X15: a number word of the table, in "net w days" or in "due within
    w days", resolves to its value when that is 5 or more; the words
    one to four, "two" among them, give no payment term. *)
Theorem number_word_terms (k : string) (v : Z) :
  In (k, v) WORD ->
  find_payment_days (net_word_sentence k) = word_days v
  /\ find_payment_days (due_word_sentence k) = word_days v
  /\ (v < 5 -> find_payment_days (net_word_sentence k) = None)
  /\ (5 <= v -> find_payment_days (net_word_sentence k) = Some v).
Proof.
  intros H. destruct (word_alone k v H) as [A B].
  split; [exact A|]. split; [exact B|].
  rewrite A. unfold word_days. split; intros Hv.
  - destruct (5 <=? v) eqn:E; [|reflexivity]. apply Z.leb_le in E. lia.
  - destruct (5 <=? v) eqn:E; [reflexivity|]. apply Z.leb_gt in E. lia.
Qed.

Lemma number_word_terms_witness :
  find_payment_days (net_word_sentence "thirty") = Some 30
  /\ find_payment_days (net_word_sentence "two") = None.
Proof.
  split.
  - refine (proj1 (number_word_terms "thirty" 30 _)).
    vm_compute. do 20 right. left. reflexivity.
  - refine (proj1 (number_word_terms "two" 2 _)).
    vm_compute. right. left. reflexivity.
Defined.

(** ** Text of a PDF *)

(** X16: [extract_text_from_pdf] returns the primary text unchanged
    whenever it has a character that is not whitespace, without asking
    for the pages, and [analyze] then accepts it; when the primary
    extraction raises or gives whitespace only and there is no OCR, the
    result is empty and [analyze] refuses it with 422; with OCR, pages
    after the twentieth do not count. *)
Theorem pdf_text_fallback (bytes image : Type)
    (pdf_text : bytes -> option text)
    (convert_from_bytes : bytes -> option (list image))
    (image_to_string : image -> option text)
    (OCR_OK : bool) (b : bytes) :
  (forall t, pdf_text b = Some t -> forallb is_space t = false ->
     extract_text_from_pdf bytes image pdf_text convert_from_bytes
       image_to_string OCR_OK b = t
     /\ exists l, analyze t = inr l) /\
  ((pdf_text b = None
    \/ exists t, pdf_text b = Some t /\ forallb is_space t = true) ->
   OCR_OK = false ->
   extract_text_from_pdf bytes image pdf_text convert_from_bytes
     image_to_string OCR_OK b = []
   /\ analyze
        (extract_text_from_pdf bytes image pdf_text convert_from_bytes
           image_to_string OCR_OK b) = inl 422%nat) /\
  (forall (convert' : bytes -> option (list image)) (ps extra : list image),
     convert_from_bytes b = Some ps -> convert' b = Some (ps ++ extra) ->
     (20 <= List.length ps)%nat ->
     extract_text_from_pdf bytes image pdf_text convert' image_to_string
       OCR_OK b
     = extract_text_from_pdf bytes image pdf_text convert_from_bytes
         image_to_string OCR_OK b).
Proof.
  split; [|split].
  - intros t Ht Hs.
    assert (N : clean t <> []).
    { intros E. apply clean_nil_iff in E. congruence. }
    split.
    + unfold extract_text_from_pdf, primary_text. rewrite Ht.
      now destruct (clean t).
    + unfold analyze. cbv zeta. destruct (clean t); [easy|eauto].
  - intros Hp ->.
    assert (P : primary_text bytes pdf_text b = None).
    { unfold primary_text. destruct Hp as [->|(t & -> & Hs)].
      - reflexivity.
      - apply clean_nil_iff in Hs. now rewrite Hs. }
    unfold extract_text_from_pdf. rewrite P. split; reflexivity.
  - intros convert' ps extra E E' Hl.
    unfold extract_text_from_pdf. rewrite E, E'.
    rewrite firstn_app.
    replace (20 - List.length ps)%nat with 0%nat by lia.
    cbn [firstn]. now rewrite app_nil_r.
Qed.

Lemma pdf_text_fallback_witness :
  extract_text_from_pdf nat text
    (fun _ => Some (txt " Net 30 days "))
    (fun _ => None) (fun s => Some s) true 0%nat
  = txt " Net 30 days "
  /\ extract_text_from_pdf nat text
       (fun n => match n with O => None | S _ => Some (txt "  ") end)
       (fun _ => None) (fun s => Some s) false 1%nat
     = []
  /\ analyze
       (extract_text_from_pdf nat text
          (fun n => match n with O => None | S _ => Some (txt "  ") end)
          (fun _ => None) (fun s => Some s) false 1%nat)
     = inl 422%nat.
Proof.
  split.
  - refine (proj1 (proj1 (pdf_text_fallback nat text
                            (fun _ => Some (txt " Net 30 days "))
                            (fun _ => None) (fun s => Some s) true 0%nat)
                     (txt " Net 30 days ") eq_refl _)).
    vm_compute. reflexivity.
  - refine (proj1 (proj2 (pdf_text_fallback nat text
                            (fun n => match n with
                                      | O => None
                                      | S _ => Some (txt "  ")
                                      end)
                            (fun _ => None) (fun s => Some s) false 1%nat))
              _ eq_refl).
    right. exists (txt "  "). split; reflexivity.
Defined.

